(** * QFQ-RL: a shallow embedding of [sch_qfq.c] and its properties

    The scheduler of [src/sch_qfq.c] is embedded as Rocq functions over an
    explicit scheduler state.  Machine integers are integers of [Z] with the
    wrap-around of their C type written out ([u64], [u32], [s64]); the kernel
    is taken to be an LP64 one, so [unsigned long] has 64 bits.  Pointers to
    groups are indices into the [groups] array, pointers to classes are class
    ids looked up in the class table, and the intrusive slot lists hold class
    ids.  A computation that would dereference an invalid pointer, index an
    array out of its bounds or shift by at least the width of the type has no
    result ([None]).  A class has one list node, so it is on one slot list at
    most: [hlist_add_head] on a class that is already on a list leaves links
    that are no list any more, and [hlist_del] on a class that is on no list
    follows links that are not there; neither has a result here. *)

From Stdlib Require Import ZArith Lia Bool.
From stdpp Require Import base option list gmap.

Local Open Scope Z_scope.

(** ** Constants *)

Definition QFQ_MAX_SLOTS : Z := 32.
Definition QFQ_MAX_INDEX : Z := 19.
Definition QFQ_MAX_WSHIFT : Z := 16.
Definition QFQ_MAX_WEIGHT : Z := Z.shiftl 1 QFQ_MAX_WSHIFT.
Definition QFQ_MAX_WSUM : Z := 2 * QFQ_MAX_WEIGHT.
Definition FRAC_BITS : Z := 30.
Definition ONE_FP : Z := Z.shiftl 1 FRAC_BITS.
Definition QFQ_MTU_SHIFT : Z := 11.
Definition QFQ_MIN_SLOT_SHIFT : Z := FRAC_BITS + QFQ_MTU_SHIFT - QFQ_MAX_INDEX.
Definition LINK_SPEED : Z := 9800.

(** [NSEC_PER_SEC] and the error numbers come from the kernel headers
    ([linux/time.h], [asm-generic/errno*.h]); their values are the kernel's. *)
Definition NSEC_PER_SEC : Z := 1000000000.
Definition EINVAL : Z := 22.
Definition ENOBUFS : Z := 105.

(** ** Machine integers *)

Definition u64 (x : Z) : Z := x mod 2 ^ 64.
Definition u32 (x : Z) : Z := x mod 2 ^ 32.

(** The cast [(s64)x] of a 64-bit pattern, and [(int)x] of a 32-bit one. *)
Definition s64 (x : Z) : Z :=
  let y := u64 x in if y <? 2 ^ 63 then y else y - 2 ^ 64.
Definition s32 (x : Z) : Z :=
  let y := u32 x in if y <? 2 ^ 31 then y else y - 2 ^ 32.

(** [~x] on an [unsigned long] or a [u64]. *)
Definition not64 (x : Z) : Z := u64 (Z.lnot x).

Definition max_u32 (a b : Z) : Z := if a <? b then b else a.

(** [(u64)LINK_SPEED * 125000 * ONE_FP / NSEC_PER_SEC] *)
Definition QFQ_DRAIN_RATE : Z :=
  u64 (u64 (LINK_SPEED * 125000) * ONE_FP) / NSEC_PER_SEC.

(** [__set_bit], [__clear_bit] and [test_bit] on one [unsigned long]. *)
Definition __set_bit (nr : Z) (w : Z) : Z := Z.lor w (Z.shiftl 1 nr).
Definition __clear_bit (nr : Z) (w : Z) : Z := Z.ldiff w (Z.shiftl 1 nr).
Definition test_bit (nr : Z) (w : Z) : bool := Z.testbit w nr.

(** [__ffs]: index of the lowest set bit; the kernel leaves it undefined on
    0, where this definition gives 0. *)
Fixpoint ffs_pos (p : positive) : Z :=
  match p with
  | xO p' => 1 + ffs_pos p'
  | _ => 0
  end.

Definition __ffs (x : Z) : Z :=
  match x with
  | Zpos p => ffs_pos p
  | _ => 0
  end.

(** [__fls]: index of the highest set bit of an [unsigned long] (undefined on
    0), and [fls(int)]: one more than that index, 0 on 0; its argument is
    converted to a 32-bit [int] first. *)
Definition __fls (x : Z) : Z := Z.log2 x.

Definition fls (x : Z) : Z :=
  let y := u32 x in if y =? 0 then 0 else Z.log2 y + 1.

(** ** Fixed-point and bitmap primitives *)

Definition qfq_gt (a b : Z) : bool := 0 <? s64 (a - b).

Definition qfq_round_down (ts shift : Z) : Z :=
  Z.land ts (not64 (u64 (Z.shiftl 1 shift) - 1)).

Definition mask_from (bitmap from : Z) : Z :=
  Z.land bitmap (not64 (u64 (Z.shiftl 1 from) - 1)).

(** ** Index assignment *)

Definition qfq_calc_index (inv_w maxlen : Z) : Z :=
  let slot_size := u64 (maxlen * inv_w) in
  if inv_w =? ONE_FP + 1 then 0
  else
    let size_map := Z.shiftr slot_size QFQ_MIN_SLOT_SHIFT in
    if size_map =? 0 then 0
    else
      let index := __fls size_map + 1 in
      let index :=
        index - (if u64 (slot_size - Z.shiftl 1 (index + QFQ_MIN_SLOT_SHIFT - 1)) =? 0
                 then 1 else 0) in
      if index <? 0 then 0 else index.

(** ** Data model *)

(** Possible group states; the values index the [bitmaps] array. *)
Inductive qfq_state := ER | IR | EB | IB.

#[global] Instance qfq_state_eq_dec : EqDecision qfq_state.
Proof. solve_decision. Defined.

Definition qfq_state_of_int (s : Z) : option qfq_state :=
  if s =? 0 then Some ER
  else if s =? 1 then Some IR
  else if s =? 2 then Some EB
  else if s =? 3 then Some IB
  else None.

(** A class.  [cl_grp] is the index of the group [grp] points to; [qdisc] is
    the class's sub-queue, the packet lengths in FIFO order (head first). *)
Record qfq_class := mk_class {
  cl_S : Z;
  cl_F : Z;
  cl_grp : Z;
  inv_w : Z;
  lmax : Z;
  qdisc : list Z
}.

(** A group.  [slots] are the [QFQ_MAX_SLOTS] lists of the ring; a list holds
    the ids of its classes, first entry first. *)
Record qfq_group := mk_group {
  grp_S : Z;
  grp_F : Z;
  slot_shift : Z;
  index : Z;
  front : Z;
  full_slots : Z;
  slots : list (list Z)
}.

(** The scheduler, with the [q.qlen] of its [struct Qdisc] ([sch_qlen]), the
    class table and the per-CPU work queues of [(class, pkt_len)] entries. *)
Record qfq_sched := mk_sched {
  V : Z;
  wsum : Z;
  wsum_active : Z;
  bitmaps : qfq_state -> Z;
  groups : list qfq_group;
  v_last_updated : Z;
  v_diff_sum : Z;
  t_diff_sum : Z;
  work_bitmap : Z;
  work_queue : list (list (Z * Z));
  clhash : gmap Z qfq_class;
  sch_qlen : Z
}.

(** Field updates. *)
Definition set_cl_S (cl : qfq_class) (v : Z) : qfq_class :=
  mk_class v (cl_F cl) (cl_grp cl) (inv_w cl) (lmax cl) (qdisc cl).
Definition set_cl_F (cl : qfq_class) (v : Z) : qfq_class :=
  mk_class (cl_S cl) v (cl_grp cl) (inv_w cl) (lmax cl) (qdisc cl).
Definition set_qdisc (cl : qfq_class) (l : list Z) : qfq_class :=
  mk_class (cl_S cl) (cl_F cl) (cl_grp cl) (inv_w cl) (lmax cl) l.

Definition set_grp_SF (g : qfq_group) (s f : Z) : qfq_group :=
  mk_group s f (slot_shift g) (index g) (front g) (full_slots g) (slots g).
Definition set_front (g : qfq_group) (v : Z) : qfq_group :=
  mk_group (grp_S g) (grp_F g) (slot_shift g) (index g) v (full_slots g) (slots g).
Definition set_full_slots (g : qfq_group) (v : Z) : qfq_group :=
  mk_group (grp_S g) (grp_F g) (slot_shift g) (index g) (front g) v (slots g).
Definition set_slots (g : qfq_group) (l : list (list Z)) : qfq_group :=
  mk_group (grp_S g) (grp_F g) (slot_shift g) (index g) (front g) (full_slots g) l.

Definition set_clock (q : qfq_sched) (v last vds tds : Z) : qfq_sched :=
  mk_sched v (wsum q) (wsum_active q) (bitmaps q) (groups q) last vds tds
           (work_bitmap q) (work_queue q) (clhash q) (sch_qlen q).
Definition set_wsum (q : qfq_sched) (v : Z) : qfq_sched :=
  mk_sched (V q) v (wsum_active q) (bitmaps q) (groups q) (v_last_updated q)
           (v_diff_sum q) (t_diff_sum q) (work_bitmap q) (work_queue q) (clhash q)
           (sch_qlen q).
Definition set_wsum_active (q : qfq_sched) (v : Z) : qfq_sched :=
  mk_sched (V q) (wsum q) v (bitmaps q) (groups q) (v_last_updated q)
           (v_diff_sum q) (t_diff_sum q) (work_bitmap q) (work_queue q) (clhash q)
           (sch_qlen q).
Definition set_bitmaps (q : qfq_sched) (b : qfq_state -> Z) : qfq_sched :=
  mk_sched (V q) (wsum q) (wsum_active q) b (groups q) (v_last_updated q)
           (v_diff_sum q) (t_diff_sum q) (work_bitmap q) (work_queue q) (clhash q)
           (sch_qlen q).
Definition set_groups (q : qfq_sched) (l : list qfq_group) : qfq_sched :=
  mk_sched (V q) (wsum q) (wsum_active q) (bitmaps q) l (v_last_updated q)
           (v_diff_sum q) (t_diff_sum q) (work_bitmap q) (work_queue q) (clhash q)
           (sch_qlen q).
Definition set_work (q : qfq_sched) (b : Z) (w : list (list (Z * Z))) : qfq_sched :=
  mk_sched (V q) (wsum q) (wsum_active q) (bitmaps q) (groups q) (v_last_updated q)
           (v_diff_sum q) (t_diff_sum q) b w (clhash q) (sch_qlen q).
Definition set_clhash (q : qfq_sched) (m : gmap Z qfq_class) : qfq_sched :=
  mk_sched (V q) (wsum q) (wsum_active q) (bitmaps q) (groups q) (v_last_updated q)
           (v_diff_sum q) (t_diff_sum q) (work_bitmap q) (work_queue q) m (sch_qlen q).
Definition set_sch_qlen (q : qfq_sched) (v : Z) : qfq_sched :=
  mk_sched (V q) (wsum q) (wsum_active q) (bitmaps q) (groups q) (v_last_updated q)
           (v_diff_sum q) (t_diff_sum q) (work_bitmap q) (work_queue q) (clhash q) v.

(** [q->bitmaps[s] = v] *)
Definition set_bitmap (q : qfq_sched) (s : qfq_state) (v : Z) : qfq_sched :=
  set_bitmaps q (fun s' => if decide (s' = s) then v else bitmaps q s').

(** [&q->groups[i]] read and written through its index. *)
Definition get_group (q : qfq_sched) (i : Z) : option qfq_group :=
  if i <? 0 then None else groups q !! Z.to_nat i.
Definition set_group (q : qfq_sched) (i : Z) (g : qfq_group) : qfq_sched :=
  set_groups q (<[Z.to_nat i := g]> (groups q)).

(** A class pointer read and written through the class id. *)
Definition get_class (q : qfq_sched) (cid : Z) : option qfq_class :=
  clhash q !! cid.
Definition set_class (q : qfq_sched) (cid : Z) (cl : qfq_class) : qfq_sched :=
  set_clhash q (<[cid := cl]> (clhash q)).

(** ** Group state engine *)

(** The group with the lowest index in [bitmap]. *)
Definition qfq_ffs (q : qfq_sched) (bitmap : Z) : option qfq_group :=
  get_group q (__ffs bitmap).

Definition qfq_calc_state (q : qfq_sched) (grp : qfq_group) : option Z :=
  let state := if qfq_gt (grp_S grp) (V q) then 1 else 0 in
  let mask := mask_from (bitmaps q ER) (index grp) in
  if negb (mask =? 0) then
    next ← qfq_ffs q mask;
    Some (if qfq_gt (grp_F grp) (grp_F next) then Z.lor state 2 else state)
  else Some state.

Definition qfq_move_groups (q : qfq_sched) (mask : Z) (src dst : qfq_state)
  : qfq_sched :=
  let q1 := set_bitmap q dst (Z.lor (bitmaps q dst) (Z.land (bitmaps q src) mask)) in
  set_bitmap q1 src (Z.land (bitmaps q1 src) (not64 mask)).

Definition qfq_unblock_groups (q : qfq_sched) (idx old_F : Z) : option qfq_sched :=
  let mask := mask_from (bitmaps q ER) (idx + 1) in
  stay ← (if negb (mask =? 0) then
            next ← qfq_ffs q mask;
            Some (negb (qfq_gt (grp_F next) old_F))
          else Some false);
  if stay : bool then Some q
  else
    let mask := u64 (Z.shiftl 1 idx) - 1 in
    Some (qfq_move_groups (qfq_move_groups q mask EB ER) mask IB IR).

Definition qfq_make_eligible (q : qfq_sched) (old_V : Z) : qfq_sched :=
  let vslot := Z.shiftr (V q) QFQ_MIN_SLOT_SHIFT in
  let old_vslot := Z.shiftr old_V QFQ_MIN_SLOT_SHIFT in
  if negb (vslot =? old_vslot) then
    let mask := u64 (Z.shiftl 1 (fls (Z.lxor vslot old_vslot))) - 1 in
    qfq_move_groups (qfq_move_groups q mask IR ER) mask IB EB
  else q.

Definition qfq_update_eligible (q : qfq_sched) (old_V : Z) : qfq_sched :=
  let ineligible := Z.lor (bitmaps q IR) (bitmaps q IB) in
  if negb (ineligible =? 0) then qfq_make_eligible q old_V else q.

(** ** Slot ring *)

(** Whether the list node of class [cid] is on a slot list of some group. *)
Definition hlist_linked (cid : Z) (q : qfq_sched) : bool :=
  existsb (fun grp => existsb (fun l => existsb (Z.eqb cid) l) (slots grp))
          (groups q).

(** [hlist_add_head(&cl->next, &grp->slots[i])] writes the one list node of
    the class: on a class that is already on a slot list, of this group or of
    another, it leaves a node that points to itself or joins two lists, which
    the lists of class ids cannot hold.  The insertion has a result for a
    class that is on no list. *)
Definition qfq_slot_insert (q : qfq_sched) (gi cid roundedS : Z)
  : option qfq_sched :=
  if hlist_linked cid q then None
  else
    grp ← get_group q gi;
    let slot := Z.shiftr (u64 (roundedS - grp_S grp)) (slot_shift grp) in
    let i := u64 (front grp + slot) mod QFQ_MAX_SLOTS in
    let '(slot, i) :=
      if QFQ_MAX_SLOTS <=? slot
      then (QFQ_MAX_SLOTS - 1, u64 (front grp + (QFQ_MAX_SLOTS - 1)) mod QFQ_MAX_SLOTS)
      else (slot, i) in
    l ← slots grp !! Z.to_nat i;
    let grp := set_slots grp (<[Z.to_nat i := cid :: l]> (slots grp)) in
    Some (set_group q gi (set_full_slots grp (__set_bit slot (full_slots grp)))).

(** The first class of the front slot; no result on an empty list, where the
    source computes a pointer that is no class. *)
Definition qfq_slot_head (grp : qfq_group) : option Z :=
  l ← slots grp !! Z.to_nat (front grp);
  head l.

Definition qfq_front_slot_remove (grp : qfq_group) : option qfq_group :=
  _ ← qfq_slot_head grp;
  l ← slots grp !! Z.to_nat (front grp);
  let l := tail l in
  let grp1 := set_slots grp (<[Z.to_nat (front grp) := l]> (slots grp)) in
  Some (match l with
        | [] => set_full_slots grp1 (__clear_bit 0 (full_slots grp1))
        | _ => grp1
        end).

(** The class returned is [None] for the source's [NULL]. *)
Definition qfq_slot_scan (grp : qfq_group) : option (qfq_group * option Z) :=
  if full_slots grp =? 0 then Some (grp, None)
  else
    let i := __ffs (full_slots grp) in
    let grp :=
      if 0 <? i then
        set_full_slots (set_front grp (u32 (front grp + i) mod QFQ_MAX_SLOTS))
                       (Z.shiftr (full_slots grp) i)
      else grp in
    cl ← qfq_slot_head grp;
    Some (grp, Some cl).

Definition qfq_slot_rotate (grp : qfq_group) (roundedS : Z) : option qfq_group :=
  let i := u32 (Z.shiftr (u64 (grp_S grp - roundedS)) (slot_shift grp)) in
  if 64 <=? i then None
  else
    let grp := set_full_slots grp (u64 (Z.shiftl (full_slots grp) i)) in
    Some (set_front grp (u32 (front grp - i) mod QFQ_MAX_SLOTS)).

(** ** Dequeue *)

(** Updates the class; the boolean tells whether the group needs an update
    too. *)
Definition qfq_update_class (q : qfq_sched) (gi cid len : Z)
  : option (qfq_sched * bool) :=
  grp ← get_group q gi;
  cl ← get_class q cid;
  let cl := set_cl_S cl (cl_F cl) in
  if len =? 0 then
    grp ← qfq_front_slot_remove grp;
    Some (set_group (set_class q cid cl) gi grp, true)
  else if inv_w cl =? ONE_FP + 1 then
    grp ← qfq_front_slot_remove grp;
    Some (set_group (set_class q cid cl) gi grp, true)
  else
    let cl := set_cl_F cl (u64 (cl_S cl + u64 (len * inv_w cl))) in
    let roundedS := qfq_round_down (cl_S cl) (slot_shift grp) in
    let q := set_class q cid cl in
    if roundedS =? grp_S grp then Some (q, false)
    else
      grp ← qfq_front_slot_remove grp;
      q ← qfq_slot_insert (set_group q gi grp) gi cid roundedS;
      Some (q, true).

(** Update system time V; [now] is the value of [ktime_get().tv64]. *)
Definition qfq_update_system_time (q : qfq_sched) (now : Z) : qfq_sched :=
  let old_V := V q in
  if v_last_updated q =? now then q
  else
    let t_diff := u64 (now - v_last_updated q) in
    let '(v_diff, vds, tds) :=
      if negb (t_diff_sum q =? 0) then
        if t_diff_sum q <=? t_diff then
          let v_diff := v_diff_sum q in
          let t_diff := u64 (t_diff - t_diff_sum q) in
          let v_diff :=
            if bitmaps q ER =? 0 then
              u64 (v_diff + u64 (QFQ_DRAIN_RATE * t_diff)
                            / max_u32 LINK_SPEED (wsum_active q))
            else v_diff in
          (v_diff, 0, 0)
        else
          let v_diff := u64 (v_diff_sum q * t_diff) / t_diff_sum q in
          (v_diff, u64 (v_diff_sum q - v_diff), u64 (t_diff_sum q - t_diff))
      else if bitmaps q ER =? 0 then
        (u64 (QFQ_DRAIN_RATE * t_diff) / max_u32 LINK_SPEED (wsum_active q),
         v_diff_sum q, t_diff_sum q)
      else (0, v_diff_sum q, t_diff_sum q) in
    let q := set_clock q (u64 (V q + v_diff)) now vds tds in
    qfq_update_eligible q old_V.

(** [q->wsum_active -= ONE_FP / cl->inv_w] under [cl->inv_w && !cl_qlen]. *)
Definition wsum_active_idle (q : qfq_sched) (cl : qfq_class) (cl_qlen : nat)
  : qfq_sched :=
  if negb (inv_w cl =? 0) && bool_decide (cl_qlen = 0%nat)
  then set_wsum_active q (u32 (wsum_active q - ONE_FP / inv_w cl))
  else q.

(** The packet handed out is given by its length; [None] is the source's
    [NULL]. *)
Definition qfq_dequeue (q : qfq_sched) (now : Z)
  : option (qfq_sched * option Z) :=
  let q := qfq_update_system_time q now in
  if bitmaps q ER =? 0 then Some (q, None)
  else
    let gi := __ffs (bitmaps q ER) in
    grp ← get_group q gi;
    cid ← qfq_slot_head grp;
    cl ← get_class q cid;
    match qdisc cl with
    | [] => Some (q, None)
    | len :: rest =>
      let cl_qlen := length rest in
      let next_len := match rest with [] => 0 | n :: _ => n end in
      let q := set_class q cid (set_qdisc cl rest) in
      let q := if bool_decide (cl_qlen = 0%nat)
               then set_sch_qlen q (u32 (sch_qlen q - 1)) else q in
      let old_V := V q in
      let q := set_clock q (V q) (v_last_updated q)
                 (u64 (v_diff_sum q
                       + u64 (len * ONE_FP) / max_u32 LINK_SPEED (wsum_active q)))
                 (u64 (t_diff_sum q
                       + u64 (len * NSEC_PER_SEC) / (125000 * LINK_SPEED))) in
      '(q, changed) ← qfq_update_class q gi cid next_len;
      cl ← get_class q cid;
      if changed : bool then
        grp ← get_group q gi;
        let old_F := grp_F grp in
        let q := wsum_active_idle q cl cl_qlen in
        '(grp, ocl) ← qfq_slot_scan grp;
        let q := set_group q gi grp in
        match ocl with
        | None =>
          let q := set_bitmap q ER (__clear_bit (index grp) (bitmaps q ER)) in
          q ← qfq_unblock_groups q (index grp) old_F;
          Some (qfq_update_eligible q old_V, Some len)
        | Some c2 =>
          cl2 ← get_class q c2;
          let roundedS := qfq_round_down (cl_S cl2) (slot_shift grp) in
          if grp_S grp =? roundedS then
            Some (qfq_update_eligible q old_V, Some len)
          else
            let grp := set_grp_SF grp roundedS
                         (u64 (roundedS + u64 (Z.shiftl 2 (slot_shift grp)))) in
            let q := set_group q gi grp in
            let q := set_bitmap q ER (__clear_bit (index grp) (bitmaps q ER)) in
            s ← qfq_calc_state q grp;
            st ← qfq_state_of_int s;
            let q := set_bitmap q st (__set_bit (index grp) (bitmaps q st)) in
            q ← qfq_unblock_groups q (index grp) old_F;
            Some (qfq_update_eligible q old_V, Some len)
        end
      else
        Some (qfq_update_eligible (wsum_active_idle q cl cl_qlen) old_V, Some len)
    end.

(** ** Activate / deactivate *)

Definition qfq_update_start (q : qfq_sched) (cid : Z) : option qfq_sched :=
  cl ← get_class q cid;
  grp ← get_group q (cl_grp cl);
  let slot_shift := slot_shift grp in
  let roundedF := qfq_round_down (cl_F cl) slot_shift in
  let limit := u64 (qfq_round_down (V q) slot_shift + u64 (Z.shiftl 1 slot_shift)) in
  if negb (qfq_gt (cl_F cl) (V q)) || qfq_gt roundedF limit then
    let mask := mask_from (bitmaps q ER) (index grp) in
    if negb (mask =? 0) then
      next ← qfq_ffs q mask;
      if qfq_gt roundedF (grp_F next) then
        if qfq_gt limit (grp_F next)
        then Some (set_class q cid (set_cl_S cl (grp_F next)))
        else Some (set_class q cid (set_cl_S cl limit))
      else Some (set_class q cid (set_cl_S cl (V q)))
    else Some (set_class q cid (set_cl_S cl (V q)))
  else Some (set_class q cid (set_cl_S cl (cl_F cl))).

Definition qfq_activate_class (q : qfq_sched) (cid pkt_len : Z)
  : option qfq_sched :=
  cl ← get_class q cid;
  let gi := cl_grp cl in
  q ← qfq_update_start q cid;
  cl ← get_class q cid;
  grp ← get_group q gi;
  let cl := set_cl_F cl (u64 (cl_S cl + u64 (pkt_len * inv_w cl))) in
  let roundedS := qfq_round_down (cl_S cl) (slot_shift grp) in
  let q := set_class q cid cl in
  if negb (full_slots grp =? 0) && negb (qfq_gt (grp_S grp) (cl_S cl)) then
    qfq_slot_insert q gi cid roundedS
  else
    '(q, grp) ← (if negb (full_slots grp =? 0) then
                   grp ← qfq_slot_rotate grp roundedS;
                   let q := set_bitmap q IR (__clear_bit (index grp) (bitmaps q IR)) in
                   let q := set_bitmap q IB (__clear_bit (index grp) (bitmaps q IB)) in
                   Some (q, grp)
                 else Some (q, grp));
    let grp := set_grp_SF grp roundedS
                 (u64 (roundedS + u64 (Z.shiftl 2 (slot_shift grp)))) in
    let q := set_group q gi grp in
    s ← qfq_calc_state q grp;
    st ← qfq_state_of_int s;
    let q := set_bitmap q st (__set_bit (index grp) (bitmaps q st)) in
    qfq_slot_insert q gi cid roundedS.

(** [hlist_del(&cl->next)]: the class leaves the list it is on, whichever
    group that list belongs to; a class that is on no list has no valid links
    to follow. *)
Definition hlist_unlink (cid : Z) (grp : qfq_group) : qfq_group :=
  set_slots grp (map (filter (fun c => c <> cid)) (slots grp)).

Definition hlist_del (q : qfq_sched) (cid : Z) : option qfq_sched :=
  if hlist_linked cid q then Some (set_groups q (map (hlist_unlink cid) (groups q)))
  else None.

Definition qfq_slot_remove (q : qfq_sched) (gi cid : Z) : option qfq_sched :=
  grp ← get_group q gi;
  cl ← get_class q cid;
  let roundedS := qfq_round_down (cl_S cl) (slot_shift grp) in
  let offset := u32 (Z.shiftr (u64 (roundedS - grp_S grp)) (slot_shift grp)) in
  let i := u32 (front grp + offset) mod QFQ_MAX_SLOTS in
  q ← hlist_del q cid;
  grp ← get_group q gi;
  l ← slots grp !! Z.to_nat i;
  match l with
  | [] =>
    if 64 <=? offset then None
    else Some (set_group q gi
                 (set_full_slots grp (__clear_bit offset (full_slots grp))))
  | _ => Some q
  end.

Definition qfq_deactivate_class (q : qfq_sched) (cid : Z) : option qfq_sched :=
  cl ← get_class q cid;
  let gi := cl_grp cl in
  let q := set_class q cid (set_cl_F cl (cl_S cl)) in
  q ← qfq_slot_remove q gi cid;
  grp ← get_group q gi;
  q ← (if full_slots grp =? 0 then
         let q := set_bitmap q IR (__clear_bit (index grp) (bitmaps q IR)) in
         let q := set_bitmap q EB (__clear_bit (index grp) (bitmaps q EB)) in
         let q := set_bitmap q IB (__clear_bit (index grp) (bitmaps q IB)) in
         let q :=
           if test_bit (index grp) (bitmaps q ER)
              && (Z.land (bitmaps q ER)
                         (not64 (u64 (Z.shiftl 1 (index grp)) - 1)) =? 0)
           then
             let mask := Z.land (bitmaps q ER) (u64 (Z.shiftl 1 (index grp)) - 1) in
             let mask := if negb (mask =? 0)
                         then not64 (u64 (Z.shiftl 1 (__fls mask)) - 1)
                         else not64 0 in
             qfq_move_groups (qfq_move_groups q mask EB ER) mask IB IR
           else q in
         Some (set_bitmap q ER (__clear_bit (index grp) (bitmaps q ER)))
       else
         l ← slots grp !! Z.to_nat (front grp);
         match l with
         | [] =>
           '(grp, ocl) ← qfq_slot_scan grp;
           c2 ← ocl;
           cl2 ← get_class q c2;
           let q := set_group q gi grp in
           let roundedS := qfq_round_down (cl_S cl2) (slot_shift grp) in
           if negb (grp_S grp =? roundedS) then
             let q := set_bitmap q ER (__clear_bit (index grp) (bitmaps q ER)) in
             let q := set_bitmap q IR (__clear_bit (index grp) (bitmaps q IR)) in
             let q := set_bitmap q EB (__clear_bit (index grp) (bitmaps q EB)) in
             let q := set_bitmap q IB (__clear_bit (index grp) (bitmaps q IB)) in
             let grp := set_grp_SF grp roundedS
                          (u64 (roundedS + u64 (Z.shiftl 2 (slot_shift grp)))) in
             let q := set_group q gi grp in
             s ← qfq_calc_state q grp;
             st ← qfq_state_of_int s;
             Some (set_bitmap q st (__set_bit (index grp) (bitmaps q st)))
           else Some q
         | _ => Some q
         end);
  Some (qfq_update_eligible q (V q)).

Definition qfq_qlen_notify (q : qfq_sched) (cid : Z) : option qfq_sched :=
  cl ← get_class q cid;
  match qdisc cl with
  | [] => qfq_deactivate_class q cid
  | _ => Some q
  end.

(** ** Sub-queue, enqueue path and spinner *)

(** Modelled from the spec: the [drop] operation of the class's sub-queue (a
    [pfifo] created by [qdisc_create_dflt], whose code is not part of this
    file).  Following the sub-queue contract [drop_one() -> bytes_removed (0 if
    none)], it removes one packet, the one at the tail, and gives its length. *)
Definition qdisc_drop (l : list Z) : list Z * Z :=
  match reverse l with
  | [] => (l, 0)
  | len :: rest => (reverse rest, len)
  end.

(** [qfq_drop] walks the groups, their slots and the classes of each slot, in
    this order; no list changes before the walk ends. *)
Fixpoint qfq_drop_walk (q : qfq_sched) (cids : list Z) : option (qfq_sched * Z) :=
  match cids with
  | [] => Some (q, 0)
  | cid :: cids =>
    cl ← get_class q cid;
    let '(l, len) := qdisc_drop (qdisc cl) in
    let q := set_class q cid (set_qdisc cl l) in
    if 0 <? len then
      let q := set_sch_qlen q (u32 (sch_qlen q - 1)) in
      match l with
      | [] => q ← qfq_deactivate_class q cid; Some (q, len)
      | _ => Some (q, len)
      end
    else qfq_drop_walk q cids
  end.

Definition qfq_drop (q : qfq_sched) : option (qfq_sched * Z) :=
  qfq_drop_walk q (concat (map (fun grp => concat (slots grp)) (groups q))).

(** The work entry is taken to be allocated with success. *)
Definition qfq_enqueue_work_entry (q : qfq_sched) (cid pkt_len cpu : Z)
  : option qfq_sched :=
  if cpu <? 0 then None
  else
    w ← work_queue q !! Z.to_nat cpu;
    Some (set_work q (Z.lor (work_bitmap q) (Z.shiftl 1 cpu))
                   (<[Z.to_nat cpu := w ++ [(cid, pkt_len)]]> (work_queue q))).

(** [cid] is the class the classifier found for the packet, [len] the length
    of the packet, [cpu] the CPU the producer runs on, and [accept] tells
    whether the sub-queue took the packet. *)
Definition qfq_enqueue (q : qfq_sched) (cid len cpu : Z) (accept : bool)
  : option qfq_sched :=
  cl ← get_class q cid;
  if accept then
    let l := qdisc cl ++ [len] in
    let q := set_class q cid (set_qdisc cl l) in
    if bool_decide (length l = 1%nat) then
      if negb (inv_w cl =? ONE_FP + 1) then qfq_enqueue_work_entry q cid len cpu
      else Some q
    else Some q
  else Some q.

(** The entries of one CPU's work queue, in order. *)
Fixpoint qfq_activate_entries (q : qfq_sched) (ents : list (Z * Z))
  : option qfq_sched :=
  match ents with
  | [] => Some q
  | (cid, pkt_len) :: ents =>
    q ← qfq_activate_class q cid pkt_len;
    cl ← get_class q cid;
    if inv_w cl =? 0 then None
    else
      let q := set_wsum_active q (u32 (wsum_active q + ONE_FP / inv_w cl)) in
      let q := set_sch_qlen q (u32 (sch_qlen q + 1)) in
      qfq_activate_entries q ents
  end.

Fixpoint qfq_activate_cpus (q : qfq_sched) (cpus : list nat) : option qfq_sched :=
  match cpus with
  | [] => Some q
  | cpu :: cpus =>
    if test_bit (Z.of_nat cpu) (work_bitmap q) then
      ents ← work_queue q !! cpu;
      let q := set_work q (__clear_bit (Z.of_nat cpu) (work_bitmap q))
                        (<[cpu := []]> (work_queue q)) in
      q ← qfq_activate_entries q ents;
      qfq_activate_cpus q cpus
    else qfq_activate_cpus q cpus
  end.

Definition qfq_spinner_activate_classes (q : qfq_sched) (now : Z)
  : option qfq_sched :=
  if work_bitmap q =? 0 then Some q
  else
    let q := qfq_update_system_time q now in
    qfq_activate_cpus q (seq 0 (length (work_queue q))).

(** ** Class configuration *)

Definition qfq_update_class_params (q : qfq_sched) (cid : Z) (cl : qfq_class)
    (lmax' inv_w' delta_w : Z) : qfq_sched :=
  let i := qfq_calc_index inv_w' lmax' in
  let cl := mk_class (cl_S cl) (cl_F cl) i inv_w' lmax' (qdisc cl) in
  set_wsum (set_class q cid cl) (u32 (wsum q + delta_w)).

(** A request to [qfq_change_class]: whether [tca[TCA_OPTIONS]] is there, the
    value [nla_parse_nested] returns, the two attributes when they are given,
    what the rate estimator returns when [tca[TCA_RATE]] is given, and whether
    the allocation of a new class succeeds. *)
Record change_req := mk_req {
  tca_options : bool;
  nla_err : Z;
  tb_weight : option Z;
  tb_lmax : option Z;
  tca_rate : option Z;
  alloc_ok : bool
}.

(** [cl] is the class behind [*arg] ([None] for [NULL]).  The result is the
    value returned and the scheduler after the call. *)
Definition qfq_change_class (q : qfq_sched) (classid : Z) (cl : option Z)
    (req : change_req) : option (Z * qfq_sched) :=
  if negb (tca_options req) then Some (- EINVAL, q)
  else if nla_err req <? 0 then Some (nla_err req, q)
  else if match tb_weight req with
          | Some w => Z.shiftl 1 QFQ_MAX_WSHIFT <? w
          | None => false
          end
  then Some (- EINVAL, q)
  else
    let weight := match tb_weight req with Some w => w | None => 1 end in
    let inv_w' := if negb (weight =? 0) then ONE_FP / weight else ONE_FP + 1 in
    let weight := ONE_FP / inv_w' in
    old ← match cl with
          | Some cid =>
            c ← get_class q cid;
            if inv_w c =? 0 then None else Some (ONE_FP / inv_w c)
          | None => Some 0
          end;
    let delta_w := s32 (weight - old) in
    if QFQ_MAX_WSUM <? u32 (wsum q + delta_w) then Some (- EINVAL, q)
    else if match tb_lmax req with
            | Some l => (l =? 0) || (Z.shiftl 1 QFQ_MTU_SHIFT <? l)
            | None => false
            end
    then Some (- EINVAL, q)
    else
      let lmax' := match tb_lmax req with
                  | Some l => l
                  | None => Z.shiftl 1 QFQ_MTU_SHIFT
                  end in
      match cl with
      | Some cid =>
        c ← get_class q cid;
        if match tca_rate req with Some e => negb (e =? 0) | None => false end
        then Some (default 0 (tca_rate req), q)
        else if (lmax' =? lmax c) && (inv_w' =? inv_w c)
        then Some (0, q)
        else
          let i := qfq_calc_index inv_w' lmax' in
          let qlen := length (qdisc c) in
          '(q, need_reactivation) ←
            (if negb (i =? cl_grp c) && negb (bool_decide (qlen = 0%nat))
                && negb (inv_w c =? ONE_FP + 1)
             then
               let q := set_class q cid (set_cl_F c (cl_S c)) in
               q ← qfq_deactivate_class q cid;
               Some (q, negb (inv_w' =? ONE_FP + 1))
             else Some (q, false));
          let need_reactivation :=
            need_reactivation
            || ((inv_w c =? ONE_FP + 1) && negb (inv_w' =? ONE_FP + 1)) in
          c ← get_class q cid;
          let q := qfq_update_class_params q cid c lmax' inv_w' delta_w in
          let q := if negb (bool_decide (qlen = 0%nat))
                   then set_wsum_active q (u32 (wsum_active q + delta_w))
                   else q in
          if need_reactivation then
            q ← qfq_activate_class q cid
                  (match qdisc c with [] => 0 | n :: _ => n end);
            Some (0, q)
          else Some (0, q)
      | None =>
        if negb (alloc_ok req) then Some (- ENOBUFS, q)
        else
          let c := mk_class 0 0 0 0 0 [] in
          let q := qfq_update_class_params q classid c lmax' inv_w' delta_w in
          if match tca_rate req with Some e => negb (e =? 0) | None => false end
          then Some (default 0 (tca_rate req), set_clhash q (delete classid (clhash q)))
          else Some (0, q)
      end.

(** ** Initialisation *)

Definition qfq_init_group (i : Z) : qfq_group :=
  mk_group 0 0 (QFQ_MTU_SHIFT + FRAC_BITS - (QFQ_MAX_INDEX - i)) i 0 0
           (replicate (Z.to_nat QFQ_MAX_SLOTS) []).

(** The scheduler after [qfq_init_qdisc] on a machine with [ncpus] possible
    CPUs; the private area of a new qdisc is zeroed memory. *)
Definition qfq_init_qdisc (ncpus : nat) : qfq_sched :=
  mk_sched 0 0 0 (fun _ => 0)
           (map (fun i => qfq_init_group (Z.of_nat i))
                (seq 0 (Z.to_nat (QFQ_MAX_INDEX + 1))))
           0 0 0 0 (replicate ncpus []) ∅ 0.

(** ** Operations on a scheduler and reachable states *)

(** The entry points through which the kernel drives one scheduler: a class
    is configured, a producer enqueues a packet of [len] bytes for a class,
    the spinner drains the activation work at time [now], the spinner dequeues
    at time [now], a packet is dropped. *)
Inductive qfq_op :=
| OpChange (classid : Z) (req : change_req)
| OpEnqueue (cid len cpu : Z)
| OpActivate (now : Z)
| OpDequeue (now : Z)
| OpDrop.

(** One operation.  Packets have a positive length that fits [unsigned int],
    and the clock never reads less than at the last update of V. *)
Definition qfq_run_op (q : qfq_sched) (op : qfq_op) : option qfq_sched :=
  match op with
  | OpChange classid req =>
    let cl := match clhash q !! classid with
              | Some _ => Some classid
              | None => None
              end in
    r ← qfq_change_class q classid cl req;
    Some (snd r)
  | OpEnqueue cid len cpu =>
    if (0 <? len) && (len <? 2 ^ 32) then qfq_enqueue q cid len cpu true else None
  | OpActivate now =>
    if (v_last_updated q <=? now) && (now <? 2 ^ 63)
    then qfq_spinner_activate_classes q now else None
  | OpDequeue now =>
    if (v_last_updated q <=? now) && (now <? 2 ^ 63)
    then r ← qfq_dequeue q now; Some (fst r) else None
  | OpDrop => r ← qfq_drop q; Some (fst r)
  end.

Fixpoint qfq_run (q : qfq_sched) (ops : list qfq_op) : option qfq_sched :=
  match ops with
  | [] => Some q
  | op :: ops => q ← qfq_run_op q op; qfq_run q ops
  end.

Definition reachable (q : qfq_sched) : Prop :=
  exists ncpus ops, qfq_run (qfq_init_qdisc ncpus) ops = Some q.

(** A state in which an operation other than an enqueue has just completed,
    or the state after initialisation. *)
Definition quiescent (q : qfq_sched) : Prop :=
  (exists ncpus, q = qfq_init_qdisc ncpus)
  \/ exists ncpus ops op,
       (forall cid len cpu, op <> OpEnqueue cid len cpu)
       /\ qfq_run (qfq_init_qdisc ncpus) (ops ++ [op]) = Some q.

(** A request that gives a weight and a maximum packet length. *)
Definition class_req (weight lmax' : Z) : change_req :=
  mk_req true 0 (Some weight) (Some lmax') None true.

(** ** Properties the claims are about *)

(** The four state bitmaps are pairwise disjoint. *)
Definition bitmaps_disjoint (q : qfq_sched) : Prop :=
  forall s1 s2, s1 <> s2 -> Z.land (bitmaps q s1) (bitmaps q s2) = 0.

(** Bit [i] is set in exactly one of the four bitmaps. *)
Definition in_exactly_one (q : qfq_sched) (i : Z) : Prop :=
  exists s, Z.testbit (bitmaps q s) i = true
            /\ forall s', s' <> s -> Z.testbit (bitmaps q s') i = false.

Definition qfq_bitmap_invariant (q : qfq_sched) : Prop :=
  bitmaps_disjoint q
  /\ forall grp, grp ∈ groups q ->
       (full_slots grp <> 0 <-> in_exactly_one q (index grp)).

(** The sum of [ONE_FP / inv_w] over the classes whose sub-queue is not empty
    and whose [inv_w] is not the weight-zero sentinel. *)
Definition backlogged_weight (cl : qfq_class) : Z :=
  match qdisc cl with
  | [] => 0
  | _ => if inv_w cl =? ONE_FP + 1 then 0 else ONE_FP / inv_w cl
  end.

Definition active_weight_sum (q : qfq_sched) : Z :=
  map_fold (fun _ cl acc => acc + backlogged_weight cl) 0 (clhash q).

(** Bit [j] is the lowest bit of [bitmap] among the positions [k] and up. *)
Definition lowest_from (bitmap k j : Z) : Prop :=
  k <= j /\ Z.testbit bitmap j = true
  /\ forall i, k <= i < j -> Z.testbit bitmap i = false.

(** The state is well formed for the bitmap operations: every bitmap is an
    [unsigned long] and every bit of ER is the index of a group. *)
Definition bitmaps_wf (q : qfq_sched) : Prop :=
  (forall s, 0 <= bitmaps q s < 2 ^ 64)
  /\ forall j, Z.testbit (bitmaps q ER) j = true -> is_Some (get_group q j).

(** Some group of ER at index [k] or above exists, and the one with the
    lowest index has a finish time that [ts] exceeds. *)
Definition exceeds_next_from (q : qfq_sched) (k ts : Z) : Prop :=
  exists j next, lowest_from (bitmaps q ER) k j
                 /\ get_group q j = Some next
                 /\ qfq_gt ts (grp_F next) = true.

(** The start time [qfq_update_start] is to give class [cl] of group [grp],
    after the words of the specification. *)
Definition start_time_spec (q : qfq_sched) (cl : qfq_class) (grp : qfq_group)
    (S' : Z) : Prop :=
  let roundedF := qfq_round_down (cl_F cl) (slot_shift grp) in
  let limit := u64 (qfq_round_down (V q) (slot_shift grp)
                    + u64 (Z.shiftl 1 (slot_shift grp))) in
  let stale := qfq_gt (cl_F cl) (V q) = false \/ qfq_gt roundedF limit = true in
  (stale
   /\ exists j next, lowest_from (bitmaps q ER) (index grp) j
                     /\ get_group q j = Some next
                     /\ qfq_gt roundedF (grp_F next) = true
                     /\ S' = if qfq_gt limit (grp_F next) then grp_F next else limit)
  \/ (stale /\ ~ exceeds_next_from q (index grp) roundedF /\ S' = V q)
  \/ (~ stale /\ S' = cl_F cl).

(** The increment of V at the drain rate over [dt] nanoseconds. *)
Definition drain_increment (q : qfq_sched) (dt : Z) : Z :=
  QFQ_DRAIN_RATE * dt / Z.max LINK_SPEED (wsum_active q).

(** What the specification says one call of [qfq_update_system_time] at time
    [now] does to the clock, for an elapsed time [dt]. *)
Definition system_time_spec (q : qfq_sched) (now dt : Z) (q' : qfq_sched) : Prop :=
  v_last_updated q' = now
  /\ ((0 < t_diff_sum q /\ t_diff_sum q <= dt
       /\ V q' = u64 (V q + v_diff_sum q
                      + if bitmaps q ER =? 0
                        then drain_increment q (dt - t_diff_sum q) else 0)
       /\ v_diff_sum q' = 0 /\ t_diff_sum q' = 0)
      \/ (0 < t_diff_sum q /\ dt < t_diff_sum q
          /\ let dv := v_diff_sum q * dt / t_diff_sum q in
             V q' = u64 (V q + dv)
             /\ v_diff_sum q' = v_diff_sum q - dv
             /\ t_diff_sum q' = t_diff_sum q - dt)
      \/ (t_diff_sum q = 0
          /\ V q' = u64 (V q + if bitmaps q ER =? 0 then drain_increment q dt else 0)
          /\ v_diff_sum q' = v_diff_sum q /\ t_diff_sum q' = 0)).

(** The weight a request asks for, as [qfq_change_class] computes it from
    [inv_w], and the weight the class behind [*arg] is configured with. *)
Definition requested_weight (req : change_req) : Z :=
  let w := default 1 (tb_weight req) in
  ONE_FP / (if w =? 0 then ONE_FP + 1 else ONE_FP / w).

Definition configured_weight (q : qfq_sched) (cl : option Z) : Z :=
  match cl with
  | Some cid =>
    match get_class q cid with
    | Some c => ONE_FP / inv_w c
    | None => 0
    end
  | None => 0
  end.

(** The three kinds of request the control plane is to reject. *)
Definition bad_weight (req : change_req) : Prop :=
  exists w, tb_weight req = Some w /\ QFQ_MAX_WEIGHT < w.

Definition bad_lmax (req : change_req) : Prop :=
  exists l, tb_lmax req = Some l /\ (l = 0 \/ 2 ^ QFQ_MTU_SHIFT < l).

Definition wsum_overflow (q : qfq_sched) (cl : option Z) (req : change_req) : Prop :=
  wsum q + (requested_weight req - configured_weight q cl) > QFQ_MAX_WSUM.

(** The attributes of a request are [u32] values; [*arg], when it is not
    [NULL], is a class of the scheduler, whose [inv_w] is a positive [u32]. *)
Definition change_args_wf (q : qfq_sched) (cl : option Z) (req : change_req)
  : Prop :=
  (forall w, tb_weight req = Some w -> 0 <= w < 2 ^ 32)
  /\ (forall l, tb_lmax req = Some l -> 0 <= l < 2 ^ 32)
  /\ (forall cid, cl = Some cid ->
        exists c, get_class q cid = Some c /\ 0 < inv_w c < 2 ^ 32).

(** ** Traces used as concrete inputs *)

(** Two classes of different groups: class 2 (weight 100, [lmax] 256, group
    10) is served once and stays backlogged, then class 1 (weight 1000, [lmax]
    1500, group 9) becomes backlogged.  No packet is longer than the [lmax] of
    its class. *)
Definition blocked_group_trace : list qfq_op :=
  [OpChange 1 (class_req 1000 1500); OpChange 2 (class_req 100 256);
   OpEnqueue 2 256 0; OpEnqueue 2 256 0; OpActivate 7448900; OpDequeue 7449000;
   OpEnqueue 1 500 0; OpActivate 7549000].

(** Two classes of weight 100 and the largest [lmax] that can be configured,
    2048, which send jumbo frames of 9000 bytes. *)
Definition jumbo_trace : list qfq_op :=
  [OpChange 1 (class_req 100 2048); OpChange 2 (class_req 100 2048);
   OpEnqueue 2 9000 0; OpActivate 11000; OpDequeue 121200;
   OpEnqueue 1 9000 0; OpEnqueue 1 64 0; OpActivate 345600; OpDequeue 345700;
   OpEnqueue 2 1500 0; OpActivate 459200].

(** One class receives one packet, is activated, and the packet is dropped. *)
Definition drop_trace : list qfq_op :=
  [OpChange 1 (class_req 1 2048); OpEnqueue 1 100 0; OpActivate 1000; OpDrop].

(** ** Concrete inputs *)

(** A state for the state computation: groups 0 and 1 are both in ER, and
    group 0 finishes after group 1. *)
Definition calc_state_input : qfq_sched :=
  let q := qfq_init_qdisc 1 in
  let g0 := set_grp_SF (qfq_init_group 0) (2 ^ 24) (2 ^ 24 + 2 ^ 23) in
  let g1 := set_grp_SF (qfq_init_group 1) 0 (2 ^ 24) in
  let q := set_group (set_group q 0 g0) 1 g1 in
  set_bitmap (set_clock q (2 ^ 25) 0 0 0) ER 3.

Definition calc_state_group : qfq_group :=
  set_grp_SF (qfq_init_group 0) (2 ^ 24) (2 ^ 24 + 2 ^ 23).

(** Class 5 of group 0, never served, on the input above. *)
Definition update_start_input : qfq_sched :=
  set_class calc_state_input 5 (mk_class 0 0 0 16384 64 [1]).

(** Moving groups between bitmaps changes the bitmaps only. *)
Definition same_but_bitmaps (q q' : qfq_sched) : Prop :=
  V q' = V q /\ wsum q' = wsum q /\ wsum_active q' = wsum_active q
  /\ groups q' = groups q /\ v_last_updated q' = v_last_updated q
  /\ v_diff_sum q' = v_diff_sum q /\ t_diff_sum q' = t_diff_sum q
  /\ work_bitmap q' = work_bitmap q /\ work_queue q' = work_queue q
  /\ clhash q' = clhash q /\ sch_qlen q' = sch_qlen q.

(** A group whose front is at slot 30 and whose only class is three slots
    further, in physical slot 1; and the same group once a scan has moved the
    front to that class. *)
Definition scan_group : qfq_group :=
  mk_group 0 0 22 0 30 8 (<[1%nat := [7]]> (replicate 32 [])).

Definition rotate_group : qfq_group :=
  mk_group (3 * 2 ^ 22) (5 * 2 ^ 22) 22 0 1 1 (<[1%nat := [7]]> (replicate 32 [])).

(** ** The invariant of the bitmaps, with its side conditions *)

(** The number of bitmaps in which bit [j] is set. *)
Definition state_count (q : qfq_sched) (j : Z) : nat :=
  (Nat.b2n (Z.testbit (bitmaps q ER) j) + Nat.b2n (Z.testbit (bitmaps q IR) j)
   + Nat.b2n (Z.testbit (bitmaps q EB) j) + Nat.b2n (Z.testbit (bitmaps q IB) j))%nat.

(** Every group carries its own position as index, as [qfq_init_qdisc] sets
    it, and the index fits a bit of a bitmap word. *)
Definition groups_wf (q : qfq_sched) : Prop :=
  forall i grp, get_group q i = Some grp -> index grp = i /\ i < 64.

Definition bitmaps_nonneg (q : qfq_sched) : Prop :=
  forall s, 0 <= bitmaps q s.

Definition scheduler_inv (q : qfq_sched) : Prop :=
  groups_wf q /\ bitmaps_nonneg q /\ qfq_bitmap_invariant q.

(** The index and the marks of the group at position [i]. *)
Definition group_view (q : qfq_sched) (i : Z) : option (Z * Z) :=
  (fun grp => (index grp, full_slots grp)) <$> get_group q i.

(** The same invariant, counted bit by bit. *)
Definition counted_inv (q : qfq_sched) : Prop :=
  bitmaps_nonneg q
  /\ (forall j, 0 <= j -> (state_count q j <= 1)%nat)
  /\ forall i idx f, group_view q i = Some (idx, f) ->
       idx = i /\ i < 64 /\ (f <> 0 <-> state_count q i = 1%nat).

(** From [q] to [q'] groups only move between bitmaps: the groups themselves
    are the same, and a bit held by at most one bitmap is still held by at most
    one, and by as many when it is the bit of a group. *)
Definition groups_moved (q q' : qfq_sched) : Prop :=
  groups q' = groups q
  /\ (bitmaps_nonneg q -> bitmaps_nonneg q')
  /\ forall j, 0 <= j -> (state_count q j <= 1)%nat ->
       (state_count q' j <= 1)%nat
       /\ (j < 64 -> state_count q' j = state_count q j).


(** The invariant as a test that runs on a scheduler state. *)
Fixpoint groups_check (q : qfq_sched) (i : Z) (l : list qfq_group) : bool :=
  match l with
  | [] => true
  | grp :: l' =>
    (index grp =? i) && (i <? 64)
    && Bool.eqb (negb (full_slots grp =? 0)) (Nat.eqb (state_count q i) 1)
    && groups_check q (i + 1) l'
  end.

Definition bitmaps_check (q : qfq_sched) : bool :=
  forallb (fun s => 0 <=? bitmaps q s) [ER; IR; EB; IB]
  && forallb (fun p => Z.land (bitmaps q (fst p)) (bitmaps q (snd p)) =? 0)
             [(ER, IR); (ER, EB); (ER, IB); (IR, EB); (IR, IB); (EB, IB)].

Definition scheduler_check (q : qfq_sched) : bool :=
  bitmaps_check q && groups_check q 0 (groups q).

(** From [q] to [q'] only the groups, the bitmaps and the classes may differ:
    the clock, the weight sums, the packet count and the activation work are
    the same. *)
Definition same_accounts (q q' : qfq_sched) : Prop :=
  V q' = V q /\ wsum q' = wsum q /\ wsum_active q' = wsum_active q
  /\ v_last_updated q' = v_last_updated q
  /\ v_diff_sum q' = v_diff_sum q /\ t_diff_sum q' = t_diff_sum q
  /\ work_bitmap q' = work_bitmap q /\ work_queue q' = work_queue q
  /\ sch_qlen q' = sch_qlen q.

(** ** Reset *)

(** [qfq_reset_qdisc] deactivates every class it finds on a slot list, in the
    order of the groups, of their slots and of each list; the walk keeps the
    next entry before it deactivates one, and a deactivation takes no other
    class off a list. *)
Fixpoint qfq_reset_walk (q : qfq_sched) (cids : list Z) : option qfq_sched :=
  match cids with
  | [] => Some q
  | cid :: cids => q ← qfq_deactivate_class q cid; qfq_reset_walk q cids
  end.

(** The sub-queues are then reset, which for the [pfifo] of a class (code
    outside this file) leaves the queue empty, and the work entries of every
    CPU are freed. *)
Definition qfq_reset_qdisc (q : qfq_sched) : option qfq_sched :=
  q ← qfq_reset_walk q (concat (map (fun grp => concat (slots grp)) (groups q)));
  let q := set_clhash q ((fun cl => set_qdisc cl []) <$> clhash q) in
  let q := set_sch_qlen q 0 in
  Some (set_work q 0 ((fun _ => []) <$> work_queue q)).

(** ** States on which the properties of dequeue and activation are shown *)

(** The scheduler of [blocked_group_trace] before its dequeue, with class 2
    active, and the scheduler that the dequeue at 7449000 ns leaves. *)
Definition served_input : qfq_sched :=
  default (qfq_init_qdisc 1)
          (qfq_run (qfq_init_qdisc 1) (take 5 blocked_group_trace)).

Definition served_output : qfq_sched :=
  default served_input (fst <$> qfq_dequeue served_input 7449000).

(** The scheduler of [blocked_group_trace] before its last activation, with a
    packet of 500 bytes waiting in class 1, and the scheduler after the
    activation of class 1. *)
Definition activate_input : qfq_sched :=
  default (qfq_init_qdisc 1)
          (qfq_run (qfq_init_qdisc 1) (take 7 blocked_group_trace)).

Definition activate_output : qfq_sched :=
  default activate_input (qfq_activate_class activate_input 1 500).
(** * Machine arithmetic and bit lemmas *)

Lemma u64_small x : 0 <= x < 2 ^ 64 -> u64 x = x.
Proof. intros H. unfold u64. apply Z.mod_small. exact H. Qed.

Lemma u64_range x : 0 <= u64 x < 2 ^ 64.
Proof. unfold u64. apply Z.mod_pos_bound. lia. Qed.

Lemma u32_small x : 0 <= x < 2 ^ 32 -> u32 x = x.
Proof. intros H. unfold u32. apply Z.mod_small. exact H. Qed.

Lemma u64_shiftl_1 k : 0 <= k < 64 -> u64 (Z.shiftl 1 k) = 2 ^ k.
Proof.
  intros Hk. rewrite Z.shiftl_1_l. apply u64_small. split.
  - apply Z.pow_nonneg. lia.
  - apply Z.pow_lt_mono_r; lia.
Qed.

Lemma testbit_above x n j :
  0 <= x < 2 ^ n -> 0 <= n <= j -> Z.testbit x j = false.
Proof.
  intros Hx Hj. destruct (Z.eq_dec x 0) as [->|Hne].
  - apply Z.bits_0.
  - apply Z.bits_above_log2; [lia|].
    assert (Z.log2 x < n) by (apply Z.log2_lt_pow2; lia). lia.
Qed.

Lemma not64_testbit x j :
  0 <= j -> Z.testbit (not64 x) j = (j <? 64) && negb (Z.testbit x j).
Proof.
  intros Hj. unfold not64, u64. destruct (Z.ltb_spec j 64) as [Hlt|Hge].
  - rewrite Z.mod_pow2_bits_low by lia. rewrite Z.lnot_spec by lia. reflexivity.
  - rewrite Z.mod_pow2_bits_high by lia. reflexivity.
Qed.

Lemma mask_from_testbit b k j :
  0 <= b < 2 ^ 64 -> 0 <= k < 64 -> 0 <= j ->
  Z.testbit (mask_from b k) j = Z.testbit b j && (k <=? j).
Proof.
  intros Hb Hk Hj. unfold mask_from.
  rewrite Z.land_spec, not64_testbit by lia.
  rewrite u64_shiftl_1 by lia.
  replace (2 ^ k - 1) with (Z.ones k) by (rewrite Z.ones_equiv; lia).
  rewrite Z.testbit_ones_nonneg by lia.
  destruct (Z.ltb_spec j 64) as [Hlt|Hge].
  - destruct (Z.ltb_spec j k), (Z.leb_spec k j); try lia; reflexivity.
  - rewrite (testbit_above b 64 j) by lia. reflexivity.
Qed.

Lemma mask_from_range b k : 0 <= b -> 0 <= mask_from b k <= b.
Proof.
  intros Hb. unfold mask_from. split.
  - apply Z.land_nonneg. left. exact Hb.
  - assert (H : Z.land b (not64 (u64 (Z.shiftl 1 k) - 1)) <= b); [|exact H].
    assert (Hn : 0 <= not64 (u64 (Z.shiftl 1 k) - 1))
      by (unfold not64; apply u64_range).
    remember (not64 (u64 (Z.shiftl 1 k) - 1)) as m.
    destruct (Z.eq_dec b 0) as [->|Hne]; [rewrite Z.land_0_l; lia|].
    rewrite <- (Z.lor_ldiff_and b m) at 2.
    rewrite Z.lor_comm.
    assert (Hd : 0 <= Z.ldiff b m) by (apply Z.ldiff_nonneg; lia).
    assert (Ha : 0 <= Z.land b m) by (apply Z.land_nonneg; lia).
    rewrite <- Z.add_nocarry_lor.
    + lia.
    + apply Z.bits_inj_0. intros n. rewrite Z.land_spec, Z.land_spec, Z.ldiff_spec.
      destruct (Z.testbit b n), (Z.testbit m n); reflexivity.
Qed.

Lemma ffs_pos_nonneg p : 0 <= ffs_pos p.
Proof. induction p; simpl; lia. Qed.

Lemma ffs_pos_spec p :
  Z.testbit (Zpos p) (ffs_pos p) = true
  /\ forall i, 0 <= i < ffs_pos p -> Z.testbit (Zpos p) i = false.
Proof.
  induction p as [p IH|p IH|]; simpl ffs_pos.
  - split; [reflexivity|intros i Hi; lia].
  - destruct IH as [IH1 IH2]. pose proof (ffs_pos_nonneg p) as Hn.
    rewrite Pos2Z.inj_xO. split.
    + replace (1 + ffs_pos p) with (Z.succ (ffs_pos p)) by lia.
      rewrite Z.double_bits_succ. exact IH1.
    + intros i Hi. destruct (Z.eq_dec i 0) as [->|Hne].
      * apply Z.testbit_even_0.
      * replace i with (Z.succ (i - 1)) by lia.
        rewrite Z.double_bits_succ. apply IH2. lia.
  - split; [reflexivity|intros i Hi; lia].
Qed.

Lemma ffs_spec x :
  0 < x ->
  0 <= __ffs x /\ Z.testbit x (__ffs x) = true
  /\ forall i, 0 <= i < __ffs x -> Z.testbit x i = false.
Proof.
  intros Hx. destruct x as [|p|p]; try lia. simpl.
  pose proof (ffs_pos_spec p) as [H1 H2]. pose proof (ffs_pos_nonneg p).
  repeat split; assumption.
Qed.

Lemma lowest_from_ffs b k :
  0 <= b < 2 ^ 64 -> 0 <= k < 64 -> mask_from b k <> 0 ->
  lowest_from b k (__ffs (mask_from b k)).
Proof.
  intros Hb Hk Hne.
  assert (Hpos : 0 < mask_from b k) by (pose proof (mask_from_range b k); lia).
  destruct (ffs_spec _ Hpos) as (Hn & Hset & Hlow).
  rewrite mask_from_testbit in Hset by lia.
  apply andb_true_iff in Hset as [Hset Hle]. apply Z.leb_le in Hle.
  repeat split; try assumption.
  intros i Hi. specialize (Hlow i ltac:(lia)).
  rewrite mask_from_testbit in Hlow by lia.
  apply andb_false_iff in Hlow as [Hlow|Hlow]; [exact Hlow|].
  apply Z.leb_gt in Hlow. lia.
Qed.

Lemma lowest_from_unique b k j j' :
  lowest_from b k j -> lowest_from b k j' -> j = j'.
Proof.
  intros (Hk & Hj & Hl) (Hk' & Hj' & Hl').
  destruct (Z.lt_trichotomy j j') as [Hlt|[Heq|Hgt]]; [|exact Heq|].
  - rewrite Hl' in Hj by lia. discriminate.
  - rewrite Hl in Hj' by lia. discriminate.
Qed.

Lemma mask_from_zero b k j :
  0 <= b < 2 ^ 64 -> 0 <= k < 64 -> mask_from b k = 0 -> k <= j ->
  Z.testbit b j = false.
Proof.
  intros Hb Hk Hz Hj.
  assert (H : Z.testbit (mask_from b k) j = false) by (rewrite Hz; apply Z.bits_0).
  rewrite mask_from_testbit in H by lia.
  apply andb_false_iff in H as [H|H]; [exact H|]. apply Z.leb_gt in H. lia.
Qed.

(** * Group state *)


Lemma lowest_from_none b k j :
  0 <= b < 2 ^ 64 -> 0 <= k < 64 -> mask_from b k = 0 -> ~ lowest_from b k j.
Proof.
  intros Hb Hk Hz (Hle & Hset & _).
  rewrite (mask_from_zero b k j) in Hset by assumption. discriminate.
Qed.




Lemma calc_state_input_wf : bitmaps_wf calc_state_input.
Proof.
  split.
  - intros s. destruct s; vm_compute; split; congruence.
  - intros j Hj. change (bitmaps calc_state_input ER) with 3 in Hj.
    destruct (Z.eq_dec j 0) as [->|H0]; [vm_compute; eauto|].
    destruct (Z.eq_dec j 1) as [->|H1]; [vm_compute; eauto|].
    exfalso. destruct (Z.neg_nonneg_cases j) as [Hneg|Hpos].
    + rewrite Z.testbit_neg_r in Hj by lia. discriminate.
    + rewrite (testbit_above 3 2 j) in Hj by lia. discriminate.
Qed.



(** * Start time of a class that becomes backlogged *)

Lemma exceeds_next_from_ffs (q : qfq_sched) (k ts : Z) (next : qfq_group) :
  0 <= bitmaps q ER < 2 ^ 64 -> 0 <= k < 64 ->
  mask_from (bitmaps q ER) k <> 0 ->
  qfq_ffs q (mask_from (bitmaps q ER) k) = Some next ->
  (exceeds_next_from q k ts <-> qfq_gt ts (grp_F next) = true).
Proof.
  intros HER Hk Hnz Hnext.
  pose proof (lowest_from_ffs _ _ HER Hk Hnz) as Hlow. split.
  - intros (j & next' & Hlow' & Hnext' & Hgt).
    rewrite (lowest_from_unique _ _ _ _ Hlow' Hlow) in Hnext'.
    unfold qfq_ffs in Hnext. rewrite Hnext in Hnext'. injection Hnext' as <-.
    exact Hgt.
  - intros Hgt. exists (__ffs (mask_from (bitmaps q ER) k)), next.
    repeat split; try assumption; apply Hlow.
Qed.

(** C5: [qfq_update_start] sets [cl.S], with [roundedF] and [limit] as in the
    source: for a stale timestamp ([cl.F <= V] wraparound-aware, or
    [roundedF > limit]), when some group of ER at index at least the class's
    group index exists and the lowest such group [next] has
    [roundedF > next.F], to [next.F] when [limit > next.F] and to [limit]
    otherwise; in the remaining stale cases to [V]; and to [cl.F] when the
    timestamp is not stale.  Nothing else of the scheduler changes. *)
Theorem qfq_update_start_spec (q : qfq_sched) (cid : Z) (cl : qfq_class)
    (grp : qfq_group) :
  get_class q cid = Some cl -> get_group q (cl_grp cl) = Some grp ->
  bitmaps_wf q -> 0 <= index grp < 64 ->
  exists S', qfq_update_start q cid = Some (set_class q cid (set_cl_S cl S'))
             /\ start_time_spec q cl grp S'.
Proof.
  intros Hcl Hgrp [Hrange Hgroups] Hidx.
  pose proof (Hrange ER) as HER.
  unfold qfq_update_start, start_time_spec. rewrite Hcl. simpl. rewrite Hgrp. simpl.
  set (roundedF := qfq_round_down (cl_F cl) (slot_shift grp)).
  set (limit := u64 (qfq_round_down (V q) (slot_shift grp)
                     + u64 (Z.shiftl 1 (slot_shift grp)))).
  destruct (negb (qfq_gt (cl_F cl) (V q)) || qfq_gt roundedF limit) eqn:Hstale.
  - assert (Hst : qfq_gt (cl_F cl) (V q) = false \/ qfq_gt roundedF limit = true).
    { apply orb_true_iff in Hstale as [H|H]; [left|right; exact H].
      apply negb_true_iff in H. exact H. }
    destruct (Z.eqb_spec (mask_from (bitmaps q ER) (index grp)) 0) as [Hz|Hnz]; simpl.
    + eexists. split; [reflexivity|]. right. left. repeat split; try assumption.
      intros (j & next & Hlow & _).
      exact (lowest_from_none _ _ j HER Hidx Hz Hlow).
    + pose proof (lowest_from_ffs _ _ HER Hidx Hnz) as Hlow.
      destruct (Hgroups _ (proj1 (proj2 Hlow))) as [next Hnext].
      pose proof (exceeds_next_from_ffs q (index grp) roundedF next HER Hidx Hnz Hnext)
        as Hiff.
      unfold qfq_ffs. rewrite Hnext. simpl.
      destruct (qfq_gt roundedF (grp_F next)) eqn:Hgt.
      * exists (if qfq_gt limit (grp_F next) then grp_F next else limit).
        split; [destruct (qfq_gt limit (grp_F next)); reflexivity|].
        left. split; [exact Hst|].
        exists (__ffs (mask_from (bitmaps q ER) (index grp))), next.
        repeat split; try assumption; apply Hlow.
      * eexists. split; [reflexivity|]. right. left. repeat split; try assumption.
        intros Hex. apply Hiff in Hex. discriminate.
  - eexists. split; [reflexivity|]. right. right. split; [|reflexivity].
    apply orb_false_iff in Hstale as [H1 H2]. apply negb_false_iff in H1.
    intros [H|H]; congruence.
Qed.

(** Witness of [qfq_update_start_spec]: class 5 of group 0, never served, on
    [calc_state_input]. *)
Lemma qfq_update_start_spec_witness :
  exists S', qfq_update_start update_start_input 5
             = Some (set_class update_start_input 5
                       (set_cl_S (mk_class 0 0 0 16384 64 [1]) S'))
             /\ start_time_spec update_start_input (mk_class 0 0 0 16384 64 [1])
                                calc_state_group S'.
Proof.
  apply (qfq_update_start_spec update_start_input 5 (mk_class 0 0 0 16384 64 [1])
                               calc_state_group).
  - vm_compute. reflexivity.
  - vm_compute. reflexivity.
  - destruct calc_state_input_wf as [H1 H2]. split; [exact H1|exact H2].
  - vm_compute. split; congruence.
Defined.

(** * Index assignment *)

Lemma u64_sub_eq_0 a b :
  0 <= a < 2 ^ 64 -> 0 <= b < 2 ^ 64 -> (u64 (a - b) =? 0) = (a =? b).
Proof.
  intros Ha Hb. unfold u64.
  destruct (Z.eqb_spec a b) as [->|Hne].
  - rewrite Z.sub_diag. reflexivity.
  - apply Z.eqb_neq. intros H.
    apply Z.mod_divide in H; [|lia]. destruct H as [c Hc]. lia.
Qed.

Lemma size_map_log2 (slot_size : Z) :
  0 <= slot_size < 2 ^ 64 ->
  Z.shiftr slot_size QFQ_MIN_SLOT_SHIFT <> 0 ->
  0 <= Z.log2 (Z.shiftr slot_size QFQ_MIN_SLOT_SHIFT) < 42.
Proof.
  intros Hs Hnz. rewrite Z.shiftr_div_pow2 in * by (vm_compute; congruence).
  change QFQ_MIN_SLOT_SHIFT with 22 in *.
  assert (Hq : 0 <= slot_size / 2 ^ 22 < 2 ^ 42).
  { split; [apply Z.div_pos; lia|]. apply Z.div_lt_upper_bound; lia. }
  split; [apply Z.log2_nonneg|]. apply Z.log2_lt_pow2; lia.
Qed.

(** The index without the machine arithmetic, for arguments that fit their
    32-bit types. *)
Lemma qfq_calc_index_eq (inv_w' maxlen : Z) :
  0 <= inv_w' < 2 ^ 32 -> 0 <= maxlen < 2 ^ 32 ->
  qfq_calc_index inv_w' maxlen =
  if inv_w' =? ONE_FP + 1 then 0
  else
    let size_map := Z.shiftr (maxlen * inv_w') QFQ_MIN_SLOT_SHIFT in
    if size_map =? 0 then 0
    else
      let i := Z.log2 size_map + 1 in
      if maxlen * inv_w' =? 2 ^ (i + QFQ_MIN_SLOT_SHIFT - 1) then i - 1 else i.
Proof.
  intros Hw Hl. unfold qfq_calc_index, __fls.
  assert (Hs : 0 <= maxlen * inv_w' < 2 ^ 64) by nia.
  rewrite (u64_small _ Hs).
  destruct (inv_w' =? ONE_FP + 1); [reflexivity|].
  destruct (Z.eqb_spec (Z.shiftr (maxlen * inv_w') QFQ_MIN_SLOT_SHIFT) 0) as [Hz|Hnz];
    [reflexivity|].
  cbv zeta. pose proof (size_map_log2 _ Hs Hnz) as Hlog.
  set (i := Z.log2 (Z.shiftr (maxlen * inv_w') QFQ_MIN_SLOT_SHIFT) + 1) in *.
  change QFQ_MIN_SLOT_SHIFT with 22 in *.
  rewrite Z.shiftl_1_l.
  assert (Hp : 0 < 2 ^ (i + 22 - 1) <= 2 ^ 63).
  { split; [apply Z.pow_pos_nonneg; lia|apply Z.pow_le_mono_r; lia]. }
  rewrite u64_sub_eq_0 by lia.
  destruct (maxlen * inv_w' =? 2 ^ (i + 22 - 1)).
  - destruct (Z.ltb_spec (i - 1) 0); lia.
  - destruct (Z.ltb_spec (i - 0) 0); lia.
Qed.

(** C6: for every [inv_w] and [lmax] of type [u32], [qfq_calc_index] returns 0
    when [inv_w = ONE_FP + 1] or when [(lmax * inv_w) >> MIN_SLOT_SHIFT = 0];
    otherwise, with [slot_size = lmax * inv_w] and
    [size_map = slot_size >> MIN_SLOT_SHIFT], it returns
    [i = floor(log2(size_map)) + 1], decremented by one exactly when
    [slot_size = 2^(i + MIN_SLOT_SHIFT - 1)], and clamped to be non-negative. *)
Theorem qfq_calc_index_spec (inv_w' maxlen : Z) :
  0 <= inv_w' < 2 ^ 32 -> 0 <= maxlen < 2 ^ 32 ->
  let slot_size := maxlen * inv_w' in
  let size_map := Z.shiftr slot_size QFQ_MIN_SLOT_SHIFT in
  (inv_w' = ONE_FP + 1 \/ size_map = 0 -> qfq_calc_index inv_w' maxlen = 0)
  /\ (inv_w' <> ONE_FP + 1 -> size_map <> 0 ->
      let i := Z.log2 size_map + 1 in
      qfq_calc_index inv_w' maxlen =
      Z.max 0 (if slot_size =? 2 ^ (i + QFQ_MIN_SLOT_SHIFT - 1) then i - 1 else i)).
Proof.
  intros Hw Hl slot_size size_map.
  rewrite (qfq_calc_index_eq _ _ Hw Hl). fold slot_size. fold size_map. split.
  - intros [->|Hz].
    + rewrite Z.eqb_refl. reflexivity.
    + destruct (inv_w' =? ONE_FP + 1); [reflexivity|]. cbv zeta.
      rewrite Hz. reflexivity.
  - intros Hne Hnz i.
    destruct (Z.eqb_spec inv_w' (ONE_FP + 1)) as [|_]; [contradiction|]. cbv zeta.
    destruct (Z.eqb_spec size_map 0) as [|_]; [contradiction|]. fold i.
    pose proof (Z.log2_nonneg size_map).
    destruct (slot_size =? 2 ^ (i + QFQ_MIN_SLOT_SHIFT - 1)); unfold i; lia.
Qed.

(** Witness of [qfq_calc_index_spec]: weight 1 and [lmax] 2048. *)
Lemma qfq_calc_index_spec_witness :
  (1073741824 = ONE_FP + 1 \/ Z.shiftr (2048 * 1073741824) QFQ_MIN_SLOT_SHIFT = 0 ->
   qfq_calc_index 1073741824 2048 = 0)
  /\ (1073741824 <> ONE_FP + 1 ->
      Z.shiftr (2048 * 1073741824) QFQ_MIN_SLOT_SHIFT <> 0 ->
      qfq_calc_index 1073741824 2048 =
      Z.max 0 (if 2048 * 1073741824
                  =? 2 ^ (Z.log2 (Z.shiftr (2048 * 1073741824) QFQ_MIN_SLOT_SHIFT) + 1
                          + QFQ_MIN_SLOT_SHIFT - 1)
               then Z.log2 (Z.shiftr (2048 * 1073741824) QFQ_MIN_SLOT_SHIFT) + 1 - 1
               else Z.log2 (Z.shiftr (2048 * 1073741824) QFQ_MIN_SLOT_SHIFT) + 1)).
Proof.
  apply (qfq_calc_index_spec 1073741824 2048); lia.
Defined.

(** C10: for every weight in [1, 2^MAX_WSHIFT] with [inv_w = ONE_FP / weight]
    and every [lmax] in [1, 2^MTU_SHIFT], [qfq_calc_index] returns a value in
    [0, QFQ_MAX_INDEX], so the group [qfq_update_class_params] assigns to the
    class is one of the groups of the scheduler. *)
Theorem qfq_calc_index_bound (weight lmax' : Z) :
  1 <= weight <= 2 ^ QFQ_MAX_WSHIFT -> 1 <= lmax' <= 2 ^ QFQ_MTU_SHIFT ->
  0 <= qfq_calc_index (ONE_FP / weight) lmax' <= QFQ_MAX_INDEX
  /\ forall q cid cl delta_w,
       length (groups q) = Z.to_nat (QFQ_MAX_INDEX + 1) ->
       exists c grp,
         get_class (qfq_update_class_params q cid cl lmax' (ONE_FP / weight) delta_w)
                   cid = Some c
         /\ cl_grp c = qfq_calc_index (ONE_FP / weight) lmax'
         /\ get_group (qfq_update_class_params q cid cl lmax' (ONE_FP / weight) delta_w)
                      (cl_grp c) = Some grp.
Proof.
  intros Hw Hl.
  change (2 ^ QFQ_MAX_WSHIFT) with 65536 in Hw.
  change (2 ^ QFQ_MTU_SHIFT) with 2048 in Hl.
  change QFQ_MAX_INDEX with 19. change ONE_FP with 1073741824.
  set (inv := 1073741824 / weight).
  assert (Hinv : 16384 <= inv <= 1073741824).
  { unfold inv. split.
    - apply Z.div_le_lower_bound; lia.
    - apply Z.div_le_upper_bound; lia. }
  assert (Hb : 0 <= qfq_calc_index inv lmax' <= 19).
  { rewrite qfq_calc_index_eq by lia.
    change ONE_FP with 1073741824. change QFQ_MIN_SLOT_SHIFT with 22.
    destruct (Z.eqb_spec inv (1073741824 + 1)); [lia|]. cbv zeta.
    assert (Hs : 0 < lmax' * inv <= 2 ^ 41) by nia.
    rewrite Z.shiftr_div_pow2 by lia.
    set (size_map := lmax' * inv / 2 ^ 22).
    assert (Hm : 0 <= size_map <= 2 ^ 19).
    { unfold size_map. split; [apply Z.div_pos; lia|].
      apply Z.div_le_upper_bound; lia. }
    destruct (Z.eqb_spec size_map 0) as [|Hnz]; [lia|].
    assert (Hlog : 0 <= Z.log2 size_map <= 19).
    { split; [apply Z.log2_nonneg|].
      replace 19 with (Z.log2 (2 ^ 19)) by (apply Z.log2_pow2; lia).
      apply Z.log2_le_mono. lia. }
    destruct (Z.eq_dec (Z.log2 size_map) 19) as [H19|Hlt].
    - assert (Hge : 2 ^ 19 <= size_map).
      { rewrite <- H19. apply Z.log2_spec. lia. }
      assert (Hsz : 2 ^ 41 <= lmax' * inv).
      { unfold size_map in Hge.
        pose proof (Z.mul_div_le (lmax' * inv) (2 ^ 22) ltac:(lia)). lia. }
      rewrite H19.
      replace (lmax' * inv) with (2 ^ 41) by lia. simpl. lia.
    - destruct (lmax' * inv =? 2 ^ (Z.log2 size_map + 1 + 22 - 1)); lia. }
  split; [exact Hb|].
  intros q cid cl delta_w Hlen.
  eexists. unfold qfq_update_class_params, get_class, get_group. simpl.
  rewrite lookup_insert_eq.
  destruct (lookup_lt_is_Some_2 (groups q) (Z.to_nat (qfq_calc_index inv lmax')))
    as [grp Hgrp]; [rewrite Hlen; simpl; lia|].
  exists grp. split; [reflexivity|]. split; [reflexivity|]. simpl.
  destruct (Z.ltb_spec (qfq_calc_index inv lmax') 0); [lia|]. exact Hgrp.
Qed.

(** Witness of [qfq_calc_index_bound]: weight 3 and [lmax] 1500. *)
Lemma qfq_calc_index_bound_witness :
  0 <= qfq_calc_index (ONE_FP / 3) 1500 <= QFQ_MAX_INDEX
  /\ forall q cid cl delta_w,
       length (groups q) = Z.to_nat (QFQ_MAX_INDEX + 1) ->
       exists c grp,
         get_class (qfq_update_class_params q cid cl 1500 (ONE_FP / 3) delta_w)
                   cid = Some c
         /\ cl_grp c = qfq_calc_index (ONE_FP / 3) 1500
         /\ get_group (qfq_update_class_params q cid cl 1500 (ONE_FP / 3) delta_w)
                      (cl_grp c) = Some grp.
Proof.
  apply (qfq_calc_index_bound 3 1500); vm_compute; split; congruence.
Defined.

(** * Slot insertion *)

Lemma get_group_set_group_eq q gi grp0 grp :
  get_group q gi = Some grp0 -> get_group (set_group q gi grp) gi = Some grp.
Proof.
  unfold get_group, set_group. simpl. destruct (gi <? 0); [discriminate|].
  intros H. apply list_lookup_insert_eq. eapply lookup_lt_Some. exact H.
Qed.

Lemma get_group_set_group_ne q gi j grp0 grp :
  get_group q gi = Some grp0 -> j <> gi ->
  get_group (set_group q gi grp) j = get_group q j.
Proof.
  unfold get_group, set_group. simpl.
  destruct (Z.ltb_spec gi 0); [discriminate|]. intros _ Hne.
  destruct (Z.ltb_spec j 0); [reflexivity|].
  apply list_lookup_insert_ne. lia.
Qed.




(** * Rejected configuration requests *)

Lemma s32_small x : - 2 ^ 31 <= x < 2 ^ 31 -> s32 x = x.
Proof.
  intros H. unfold s32, u32.
  destruct (Z.neg_nonneg_cases x) as [Hneg|Hpos].
  - replace (x mod 2 ^ 32) with (x + 2 ^ 32).
    + destruct (Z.ltb_spec (x + 2 ^ 32) (2 ^ 31)); lia.
    + apply Z.mod_unique with (q := -1); lia.
  - rewrite Z.mod_small by lia. destruct (Z.ltb_spec x (2 ^ 31)); lia.
Qed.

Lemma requested_weight_range (req : change_req) :
  (forall w, tb_weight req = Some w -> 0 <= w <= QFQ_MAX_WEIGHT) ->
  0 <= requested_weight req <= QFQ_MAX_WEIGHT.
Proof.
  intros Hw. unfold requested_weight.
  change QFQ_MAX_WEIGHT with 65536 in *. change ONE_FP with 1073741824.
  assert (Hd : 0 <= default 1 (tb_weight req) <= 65536).
  { destruct (tb_weight req) as [w|]; simpl; [apply Hw; reflexivity|lia]. }
  destruct (Z.eqb_spec (default 1 (tb_weight req)) 0) as [_|Hnz].
  - vm_compute. split; congruence.
  - assert (16384 <= 1073741824 / default 1 (tb_weight req)).
    { apply Z.div_le_lower_bound; lia. }
    split; [apply Z.div_pos; lia|]. apply Z.div_le_upper_bound; lia.
Qed.

(** C9: [qfq_change_class] rejects every request with
    [weight > MAX_WEIGHT], every request with [lmax = 0] or
    [lmax > 2^MTU_SHIFT], and every request where [wsum] plus the weight delta
    would exceed [MAX_WSUM]: it returns a negative error code and the
    scheduler is unchanged.  The scheduler has [wsum <= MAX_WSUM], as the data
    model says. *)
Theorem qfq_change_class_rejects (q : qfq_sched) (classid : Z) (cl : option Z)
    (req : change_req) :
  change_args_wf q cl req ->
  0 <= wsum q <= QFQ_MAX_WSUM ->
  bad_weight req \/ bad_lmax req \/ wsum_overflow q cl req ->
  exists err, err < 0 /\ qfq_change_class q classid cl req = Some (err, q).
Proof.
  intros (Hw32 & Hl32 & Hcl) Hwsum Hbad. unfold qfq_change_class.
  destruct (tca_options req); simpl; [|exists (- EINVAL); split; [reflexivity|reflexivity]].
  destruct (Z.ltb_spec (nla_err req) 0) as [Hneg|_];
    [exists (nla_err req); split; [exact Hneg|reflexivity]|].
  change (Z.shiftl 1 QFQ_MAX_WSHIFT) with QFQ_MAX_WEIGHT.
  destruct (match tb_weight req with
            | Some w => QFQ_MAX_WEIGHT <? w
            | None => false
            end) eqn:Hwchk;
    [exists (- EINVAL); split; reflexivity|].
  assert (Hwok : forall w, tb_weight req = Some w -> 0 <= w <= QFQ_MAX_WEIGHT).
  { intros w Hw. rewrite Hw in Hwchk. apply Z.ltb_ge in Hwchk.
    specialize (Hw32 w Hw). lia. }
  pose proof (requested_weight_range req Hwok) as Hreq.
  assert (Hold : exists old,
             match cl with
             | Some cid =>
               c ← get_class q cid;
               if inv_w c =? 0 then None else Some (ONE_FP / inv_w c)
             | None => Some 0
             end = Some old
             /\ old = configured_weight q cl /\ 0 <= old <= ONE_FP).
  { unfold configured_weight. destruct cl as [cid|].
    - destruct (Hcl cid eq_refl) as (c & Hc & Hinv). rewrite Hc. simpl.
      destruct (Z.eqb_spec (inv_w c) 0); [lia|].
      eexists. split; [reflexivity|]. split; [reflexivity|].
      change ONE_FP with 1073741824.
      split; [apply Z.div_pos; lia|]. apply Z.div_le_upper_bound; nia.
    - exists 0. repeat split; vm_compute; congruence. }
  destruct Hold as (old & -> & Hcw & Hrange). simpl.
  assert (Hweight :
            ONE_FP / (if negb (default 1 (tb_weight req) =? 0)
                      then ONE_FP / default 1 (tb_weight req) else ONE_FP + 1)
            = requested_weight req).
  { unfold requested_weight.
    destruct (default 1 (tb_weight req) =? 0); reflexivity. }
  replace (match tb_weight req with Some w => w | None => 1 end)
    with (default 1 (tb_weight req)) by (destruct (tb_weight req); reflexivity).
  rewrite Hweight.
  change QFQ_MAX_WEIGHT with 65536 in *. change ONE_FP with 1073741824 in *.
  change QFQ_MAX_WSUM with 131072 in *.
  rewrite s32_small by lia.
  destruct (Z.ltb_spec 131072 (u32 (wsum q + (requested_weight req - old))))
    as [_|Hsum]; [exists (- EINVAL); split; reflexivity|].
  change (Z.shiftl 1 QFQ_MTU_SHIFT) with 2048.
  destruct (match tb_lmax req with
            | Some l => (l =? 0) || (2048 <? l)
            | None => false
            end) eqn:Hlchk;
    [exists (- EINVAL); split; reflexivity|].
  exfalso. destruct Hbad as [(w & Hw & Hbig)|[(l & Hl & Hbad)|Hover]].
  - specialize (Hwok w Hw). change QFQ_MAX_WEIGHT with 65536 in Hbig. lia.
  - rewrite Hl in Hlchk. apply orb_false_iff in Hlchk as [H0 H1].
    apply Z.eqb_neq in H0. apply Z.ltb_ge in H1.
    change (2 ^ QFQ_MTU_SHIFT) with 2048 in Hbad. lia.
  - unfold wsum_overflow in Hover. rewrite <- Hcw in Hover.
    change QFQ_MAX_WSUM with 131072 in Hover.
    rewrite u32_small in Hsum by lia. lia.
Qed.

(** Witness of [qfq_change_class_rejects]: a new class with weight 70000 on
    the initial scheduler. *)
Lemma qfq_change_class_rejects_witness :
  exists err, err < 0
              /\ qfq_change_class (qfq_init_qdisc 1) 1 None (class_req 70000 2048)
                 = Some (err, qfq_init_qdisc 1).
Proof.
  apply (qfq_change_class_rejects (qfq_init_qdisc 1) 1 None (class_req 70000 2048)).
  - split; [|split].
    + intros w Hw. injection Hw as <-. lia.
    + intros l Hl. injection Hl as <-. lia.
    + intros cid Hcid. discriminate Hcid.
  - vm_compute. split; congruence.
  - left. exists 70000. split; [reflexivity|reflexivity].
Defined.

(** * Virtual clock *)


Lemma same_but_bitmaps_refl q : same_but_bitmaps q q.
Proof. repeat split. Qed.

Lemma same_but_bitmaps_trans q1 q2 q3 :
  same_but_bitmaps q1 q2 -> same_but_bitmaps q2 q3 -> same_but_bitmaps q1 q3.
Proof. unfold same_but_bitmaps. intuition congruence. Qed.

Lemma set_bitmap_same q s v : same_but_bitmaps q (set_bitmap q s v).
Proof. repeat split. Qed.

Lemma qfq_move_groups_same q mask src dst :
  same_but_bitmaps q (qfq_move_groups q mask src dst).
Proof. repeat split. Qed.

Lemma qfq_make_eligible_same q old_V : same_but_bitmaps q (qfq_make_eligible q old_V).
Proof.
  unfold qfq_make_eligible.
  destruct (negb (Z.shiftr (V q) QFQ_MIN_SLOT_SHIFT =? Z.shiftr old_V QFQ_MIN_SLOT_SHIFT));
    repeat split.
Qed.

Lemma qfq_update_eligible_same q old_V :
  same_but_bitmaps q (qfq_update_eligible q old_V).
Proof.
  unfold qfq_update_eligible.
  destruct (negb (Z.lor (bitmaps q IR) (bitmaps q IB) =? 0)).
  - apply qfq_make_eligible_same.
  - apply same_but_bitmaps_refl.
Qed.

Lemma u64_add_u64_r a b : u64 (a + u64 b) = u64 (a + b).
Proof. unfold u64. apply Zplus_mod_idemp_r. Qed.

(** The clock update where no product leaves the 64 bits of its type: what
    the specification says. *)
Lemma qfq_update_system_time_in_range (q : qfq_sched) (now : Z) :
  let dt := now - v_last_updated q in
  0 < dt < 2 ^ 64 ->
  0 <= v_diff_sum q < 2 ^ 64 -> 0 <= t_diff_sum q < 2 ^ 64 ->
  0 <= wsum_active q ->
  QFQ_DRAIN_RATE * dt < 2 ^ 64 -> v_diff_sum q * dt < 2 ^ 64 ->
  system_time_spec q now dt (qfq_update_system_time q now).
Proof.
  intros dt Hdt Hv Ht Hwa Hdrain Hprod.
  unfold system_time_spec, qfq_update_system_time.
  destruct (Z.eqb_spec (v_last_updated q) now) as [Heq|_]; [unfold dt in Hdt; lia|].
  fold dt. rewrite (u64_small dt) by lia.
  assert (Hmax : max_u32 LINK_SPEED (wsum_active q) = Z.max LINK_SPEED (wsum_active q)).
  { unfold max_u32. destruct (Z.ltb_spec LINK_SPEED (wsum_active q)); lia. }
  assert (Hrate : 0 < QFQ_DRAIN_RATE) by reflexivity.
  destruct (Z.eqb_spec (t_diff_sum q) 0) as [Hz|Hnz]; simpl negb; cbv iota.
  - (* no debt *)
    destruct (bitmaps q ER =? 0) eqn:HER;
      match goal with
      | |- context [qfq_update_eligible ?q1 ?o] =>
        destruct (qfq_update_eligible_same q1 o)
          as (HV & _ & _ & _ & Hlast & Hvds & Htds & _)
      end; rewrite HV, Hlast, Hvds, Htds; simpl;
      (split; [reflexivity|]); right; right; rewrite Hz;
      (split; [reflexivity|]); (split; [|split; reflexivity]).
    + unfold drain_increment. rewrite Hmax.
      rewrite (u64_small (QFQ_DRAIN_RATE * dt)) by nia. reflexivity.
    + reflexivity.
  - destruct (Z.leb_spec (t_diff_sum q) dt) as [Hle|Hgt].
    + (* all debt retired *)
      rewrite (u64_small (dt - t_diff_sum q)) by lia.
      destruct (bitmaps q ER =? 0) eqn:HER;
        match goal with
        | |- context [qfq_update_eligible ?q1 ?o] =>
          destruct (qfq_update_eligible_same q1 o)
            as (HV & _ & _ & _ & Hlast & Hvds & Htds & _)
        end; rewrite HV, Hlast, Hvds, Htds; simpl;
        (split; [reflexivity|]); left;
        (split; [lia|]); (split; [lia|]); (split; [|split; reflexivity]).
      * unfold drain_increment. rewrite Hmax.
        rewrite (u64_small (QFQ_DRAIN_RATE * (dt - t_diff_sum q))) by nia.
        rewrite u64_add_u64_r. f_equal. lia.
      * f_equal. lia.
    + (* debt paid in proportion *)
      match goal with
      | |- context [qfq_update_eligible ?q1 ?o] =>
        destruct (qfq_update_eligible_same q1 o)
          as (HV & _ & _ & _ & Hlast & Hvds & Htds & _)
      end. rewrite HV, Hlast, Hvds, Htds. simpl.
      split; [reflexivity|]. right. left.
      split; [lia|]. split; [lia|].
      rewrite (u64_small (v_diff_sum q * dt)) by nia.
      assert (Hdv : 0 <= v_diff_sum q * dt / t_diff_sum q <= v_diff_sum q).
      { split; [apply Z.div_pos; nia|]. apply Z.div_le_upper_bound; nia. }
      split; [reflexivity|]. split; apply u64_small; lia.
Qed.

(** C2 at a failing input: the first clock update of a scheduler, twenty
    seconds after boot.  No group is in ER and there is no debt, so the
    specification advances V by [DRAIN_RATE * dt / max(LINK_SPEED,
    wsum_active)], which is 2684354559183673; the product
    [(u64)QFQ_DRAIN_RATE * t_diff] does not fit 64 bits, and V advances by
    802033735335760 only. *)
Theorem qfq_update_system_time_overflow :
  let q := qfq_init_qdisc 1 in
  let now := 20000000000 in
  let q' := qfq_update_system_time q now in
  t_diff_sum q = 0 /\ bitmaps q ER = 0 /\ now - v_last_updated q = now
  /\ V q + drain_increment q now = 2684354559183673
  /\ V q' = 802033735335760
  /\ ~ system_time_spec q now now q'.
Proof.
  cbv zeta. repeat split; try (vm_compute; reflexivity).
  unfold system_time_spec. intros (_ & [H|[H|H]]).
  - destruct H as (H & _). vm_compute in H. discriminate H.
  - destruct H as (H & _). vm_compute in H. discriminate H.
  - destruct H as (_ & H & _). vm_compute in H. discriminate H.
Qed.

(** * Deactivation of the last class of a group *)

Lemma qfq_slot_remove_bitmaps q gi cid q1 :
  qfq_slot_remove q gi cid = Some q1 ->
  bitmaps q1 = bitmaps q /\ V q1 = V q /\ wsum_active q1 = wsum_active q
  /\ clhash q1 = clhash q.
Proof.
  unfold qfq_slot_remove, hlist_del. intros H.
  destruct (get_group q gi) as [grp|]; [|discriminate]. simpl in H.
  destruct (get_class q cid) as [cl|]; [|discriminate]. simpl in H.
  destruct (hlist_linked cid q); [|discriminate]. simpl in H.
  match type of H with
  | context [get_group ?q0 gi] => destruct (get_group q0 gi) as [grp1|]
  end; [|discriminate]. simpl in H.
  match type of H with
  | context [slots grp1 !! ?i] => destruct (slots grp1 !! i) as [l|]
  end; [|discriminate]. simpl in H.
  destruct l.
  - match type of H with
    | context [64 <=? ?o] => destruct (64 <=? o)
    end; [discriminate|]. injection H as <-. repeat split.
  - injection H as <-. repeat split.
Qed.

(** The test that guards the cross-tier unblock never holds: a set bit
    [idx] of ER lies in the mask of the positions [idx] and up. *)
Lemma deactivate_guard_false (er idx : Z) :
  0 <= er < 2 ^ 64 ->
  test_bit idx er && (Z.land er (not64 (u64 (Z.shiftl 1 idx) - 1)) =? 0) = false.
Proof.
  intros Her. unfold test_bit.
  destruct (Z.testbit er idx) eqn:Hbit; [|reflexivity]. simpl.
  apply Z.eqb_neq. intros Hz.
  assert (Hidx : 0 <= idx < 64).
  { destruct (Z.neg_nonneg_cases idx) as [Hneg|Hpos].
    - rewrite Z.testbit_neg_r in Hbit by lia. discriminate.
    - destruct (Z.lt_ge_cases idx 64) as [Hlt|Hge]; [lia|].
      rewrite (testbit_above er 64 idx) in Hbit by lia. discriminate. }
  pose proof (mask_from_zero er idx idx Her Hidx Hz ltac:(lia)) as Hf.
  congruence.
Qed.

(** When the removal of a class empties its group, [qfq_deactivate_class]
    clears the bit of the group in the four bitmaps and changes no other bit of
    any bitmap: no group moves from EB to ER or from IB to IR, whatever ER
    holds. *)
Lemma qfq_deactivate_class_moves_nothing (q q1 : qfq_sched) (cid : Z)
    (cl : qfq_class) (grp : qfq_group) :
  (forall s, 0 <= bitmaps q s < 2 ^ 64) ->
  get_class q cid = Some cl ->
  qfq_slot_remove (set_class q cid (set_cl_F cl (cl_S cl))) (cl_grp cl) cid
  = Some q1 ->
  get_group q1 (cl_grp cl) = Some grp ->
  full_slots grp = 0 ->
  exists q', qfq_deactivate_class q cid = Some q'
             /\ (forall s, bitmaps q' s = __clear_bit (index grp) (bitmaps q s))
             /\ groups q' = groups q1.
Proof.
  intros Hrange Hcl Hrem Hgrp Hfull. unfold qfq_deactivate_class.
  rewrite Hcl. simpl. rewrite Hrem. simpl. rewrite Hgrp. simpl.
  rewrite Hfull. simpl.
  destruct (qfq_slot_remove_bitmaps _ _ _ _ Hrem) as (Hbm & HV & _ & _).
  simpl in Hbm, HV.
  match goal with
  | |- context [test_bit ?i ?er && ?c] =>
    replace (test_bit i er && c) with false
      by (symmetry; apply deactivate_guard_false; rewrite Hbm; apply Hrange)
  end.
  eexists. split; [reflexivity|].
  match goal with
  | |- context [qfq_update_eligible ?q0 ?o] =>
    assert (Hel : qfq_update_eligible q0 o = q0)
  end.
  { unfold qfq_update_eligible, qfq_make_eligible.
    match goal with |- context [negb (?a =? 0)] => destruct (negb (a =? 0)) end;
      [|reflexivity].
    rewrite Z.eqb_refl. reflexivity. }
  rewrite Hel. split; [|reflexivity].
  intros s. destruct s; simpl; rewrite Hbm; reflexivity.
Qed.

(** C4 at a failing input: after [blocked_group_trace], group 10 is in ER
    with class 2 as its only class and group 9 is in EB.  Deactivating class 2
    empties group 10 and no group of ER is left, so the claim moves group 9
    from EB to ER; in the code group 9 stays in EB and ER is empty. *)
Theorem qfq_deactivate_class_strands_blocked_group :
  exists q q',
    qfq_run (qfq_init_qdisc 1) blocked_group_trace = Some q
    /\ bitmaps q ER = Z.shiftl 1 10 /\ bitmaps q EB = Z.shiftl 1 9
    /\ bitmaps q IR = 0 /\ bitmaps q IB = 0
    /\ qfq_deactivate_class q 2 = Some q'
    /\ (full_slots <$> get_group q' 10) = Some 0
    /\ bitmaps q' ER = 0 /\ bitmaps q' EB = Z.shiftl 1 9.
Proof.
  eexists. eexists.
  split; [vm_compute; reflexivity|].
  split; [vm_compute; reflexivity|].
  split; [vm_compute; reflexivity|].
  split; [vm_compute; reflexivity|].
  split; [vm_compute; reflexivity|].
  split; [vm_compute; reflexivity|].
  split; [vm_compute; reflexivity|].
  split; vm_compute; reflexivity.
Qed.

(** * The bitmap invariant on reachable states *)

(** C1 at a failing input: [jumbo_trace] is a run of the scheduler, every
    operation of which returns, and at its end group 13 is in ER and in IR at
    once.  The last operation is the activation of class 2: its group is not
    empty and starts later than the class, the source takes the group to be
    "surely ineligible" and clears its bit in IR and IB only, while the group
    is in ER. *)
Theorem qfq_activate_class_breaks_disjointness :
  exists q,
    qfq_run (qfq_init_qdisc 1) jumbo_trace = Some q
    /\ bitmaps q ER = Z.shiftl 1 13 /\ bitmaps q IR = Z.shiftl 1 13
    /\ reachable q /\ ~ qfq_bitmap_invariant q.
Proof.
  eexists.
  split; [vm_compute; reflexivity|].
  split; [vm_compute; reflexivity|].
  split; [vm_compute; reflexivity|].
  split.
  - exists 1%nat, jumbo_trace. vm_compute. reflexivity.
  - intros [Hdis _]. specialize (Hdis ER IR ltac:(discriminate)).
    vm_compute in Hdis. discriminate Hdis.
Qed.

(** The state before the last operation of [jumbo_trace] satisfies the
    invariant on its bitmaps: group 13 is in IR only. *)
Lemma jumbo_trace_before_last :
  exists q,
    qfq_run (qfq_init_qdisc 1) (take 10 jumbo_trace) = Some q
    /\ bitmaps q ER = 0 /\ bitmaps q IR = Z.shiftl 1 13
    /\ bitmaps q EB = 0 /\ bitmaps q IB = 0.
Proof.
  eexists.
  split; [vm_compute; reflexivity|].
  split; [vm_compute; reflexivity|].
  split; [vm_compute; reflexivity|].
  split; vm_compute; reflexivity.
Qed.

(** * The weight sum of the backlogged classes *)

Lemma qfq_deactivate_class_wsum_active q cid q' :
  qfq_deactivate_class q cid = Some q' -> wsum_active q' = wsum_active q.
Proof.
  unfold qfq_deactivate_class. intros H.
  destruct (get_class q cid) as [cl|]; [|discriminate H].
  cbn [mbind option_bind] in H.
  destruct (qfq_slot_remove _ _ _) as [q1|] eqn:Hrem; [|discriminate H].
  cbn [mbind option_bind] in H.
  apply qfq_slot_remove_bitmaps in Hrem as (_ & _ & Hwa & _).
  change (wsum_active (set_class q cid (set_cl_F cl (cl_S cl))))
    with (wsum_active q) in Hwa.
  rewrite <- Hwa. clear Hwa.
  destruct (get_group q1 (cl_grp cl)) as [grp|]; [|discriminate H].
  cbn [mbind option_bind] in H.
  match type of H with
  | mbind _ ?m = _ =>
    assert (Hm : forall x, m = Some x -> wsum_active x = wsum_active q1)
  end.
  { intros x Hx. destruct (full_slots grp =? 0).
    - injection Hx as <-.
      match goal with |- context [if ?c then _ else _] => destruct c end; reflexivity.
    - destruct (slots grp !! Z.to_nat (front grp)) as [l|]; [|discriminate Hx].
      cbn [mbind option_bind] in Hx. destruct l; [|injection Hx as <-; reflexivity].
      destruct (qfq_slot_scan grp) as [[grp' ocl]|]; [|discriminate Hx].
      cbn [mbind option_bind] in Hx.
      destruct ocl as [c2|]; [|discriminate Hx]. cbn [mbind option_bind] in Hx.
      destruct (get_class q1 c2) as [cl2|]; [|discriminate Hx].
      cbn [mbind option_bind] in Hx.
      match type of Hx with context [if ?c then _ else _] => destruct c end;
        [|injection Hx as <-; reflexivity].
      destruct (qfq_calc_state _ _) as [s|]; [|discriminate Hx].
      cbn [mbind option_bind] in Hx.
      destruct (qfq_state_of_int s) as [st|]; [|discriminate Hx].
      cbn [mbind option_bind] in Hx. injection Hx as <-. reflexivity. }
  match type of H with
  | mbind _ ?m = _ => destruct m as [q2|]
  end; [|discriminate H].
  cbn [mbind option_bind] in H. injection H as <-.
  rewrite <- (Hm q2 eq_refl).
  apply (qfq_update_eligible_same q2 (V q2)).
Qed.

(** No path through [qfq_drop] writes [wsum_active], whether the drop
    empties a class or not. *)
Lemma qfq_drop_wsum_active q q' len :
  qfq_drop q = Some (q', len) -> wsum_active q' = wsum_active q.
Proof.
  unfold qfq_drop.
  generalize (concat (map (fun grp => concat (slots grp)) (groups q))).
  intros cids. revert q. induction cids as [|cid cids IH]; intros q H.
  - injection H as <- _. reflexivity.
  - cbn [qfq_drop_walk] in H.
    destruct (get_class q cid) as [cl|]; [|discriminate H].
    cbn [mbind option_bind] in H.
    destruct (qdisc_drop (qdisc cl)) as [l n].
    destruct (0 <? n).
    + destruct l.
      * destruct (qfq_deactivate_class _ cid) as [q2|] eqn:Hd; [|discriminate H].
        cbn [mbind option_bind] in H. injection H as <- _.
        apply qfq_deactivate_class_wsum_active in Hd. exact Hd.
      * injection H as <- _. reflexivity.
    + apply IH in H. exact H.
Qed.

(** C7 at a failing input: in [drop_trace] the drop empties the sub-queue of
    class 1 and deactivates the class, and [wsum_active] still counts its
    weight.  Before the drop the two agree. *)
Theorem qfq_drop_keeps_wsum_active :
  (exists q0,
     qfq_run (qfq_init_qdisc 1) (take 3 drop_trace) = Some q0
     /\ wsum_active q0 = 1 /\ active_weight_sum q0 = 1)
  /\ exists q,
       qfq_run (qfq_init_qdisc 1) drop_trace = Some q
       /\ quiescent q /\ work_bitmap q = 0
       /\ wsum_active q = 1 /\ active_weight_sum q = 0.
Proof.
  split.
  - eexists.
    split; [vm_compute; reflexivity|].
    split; vm_compute; reflexivity.
  - eexists.
    split; [vm_compute; reflexivity|].
    split.
    + right. exists 1%nat, (take 3 drop_trace), OpDrop.
      split; [intros; discriminate|]. vm_compute. reflexivity.
    + split; [vm_compute; reflexivity|].
      split; vm_compute; reflexivity.
Qed.

(** * Further properties of the primitives *)

Lemma s64_small x : - 2 ^ 63 <= x < 2 ^ 63 -> s64 x = x.
Proof.
  intros H. unfold s64, u64.
  destruct (Z.neg_nonneg_cases x) as [Hneg|Hpos].
  - replace (x mod 2 ^ 64) with (x + 2 ^ 64).
    + destruct (Z.ltb_spec (x + 2 ^ 64) (2 ^ 63)); lia.
    + apply Z.mod_unique with (q := -1); lia.
  - rewrite Z.mod_small by lia. destruct (Z.ltb_spec x (2 ^ 63)); lia.
Qed.

Lemma s64_congr x y : x mod 2 ^ 64 = y mod 2 ^ 64 -> s64 x = s64 y.
Proof. intros H. unfold s64, u64. rewrite H. reflexivity. Qed.

Lemma qfq_gt_advance b d :
  0 <= d < 2 ^ 63 -> qfq_gt b (u64 (b + d)) = false.
Proof.
  intros Hd. unfold qfq_gt.
  rewrite (s64_congr (b - u64 (b + d)) (- d)).
  - rewrite s64_small by lia. apply Z.ltb_ge. lia.
  - unfold u64. rewrite Zminus_mod_idemp_r. f_equal. lia.
Qed.

(** The wraparound-aware comparison [qfq_gt] is the order of the integers on
    two timestamps less than [2^63] apart, and a timestamp advanced by less
    than [2^63] compares greater than the one it comes from even when the
    64-bit addition wraps. *)
Theorem qfq_gt_spec (a b : Z) :
  0 <= a < 2 ^ 64 -> 0 <= b < 2 ^ 64 ->
  (- 2 ^ 63 < a - b < 2 ^ 63 -> qfq_gt a b = (b <? a))
  /\ (forall d, 0 < d < 2 ^ 63 -> a = u64 (b + d) ->
        qfq_gt a b = true /\ qfq_gt b a = false).
Proof.
  intros Ha Hb. split.
  - intros Hd. unfold qfq_gt. rewrite s64_small by lia.
    destruct (Z.ltb_spec 0 (a - b)), (Z.ltb_spec b a); lia.
  - intros d Hd ->. split.
    + unfold qfq_gt. rewrite (s64_congr (u64 (b + d) - b) d).
      * rewrite s64_small by lia. apply Z.ltb_lt. lia.
      * unfold u64. rewrite Zminus_mod_idemp_l. f_equal. lia.
    + apply qfq_gt_advance. lia.
Qed.

(** Witness of [qfq_gt_spec]: a timestamp one below the top of the 64-bit
    range and the one three units later, which has wrapped to 2. *)
Lemma qfq_gt_spec_witness :
  (- 2 ^ 63 < 2 - (2 ^ 64 - 1) < 2 ^ 63 -> qfq_gt 2 (2 ^ 64 - 1) = (2 ^ 64 - 1 <? 2))
  /\ (forall d, 0 < d < 2 ^ 63 -> 2 = u64 (2 ^ 64 - 1 + d) ->
        qfq_gt 2 (2 ^ 64 - 1) = true /\ qfq_gt (2 ^ 64 - 1) 2 = false).
Proof.
  apply (qfq_gt_spec 2 (2 ^ 64 - 1)); lia.
Defined.

(** [qfq_round_down] takes a 64-bit timestamp to the multiple of
    [2^shift] at or below it. *)
Theorem qfq_round_down_spec (ts shift : Z) :
  0 <= ts < 2 ^ 64 -> 0 <= shift < 64 ->
  qfq_round_down ts shift = ts - ts mod 2 ^ shift
  /\ qfq_round_down ts shift = 2 ^ shift * (ts / 2 ^ shift)
  /\ qfq_round_down ts shift <= ts < qfq_round_down ts shift + 2 ^ shift.
Proof.
  intros Hts Hs.
  assert (Hp : 0 < 2 ^ shift) by (apply Z.pow_pos_nonneg; lia).
  assert (Heq : qfq_round_down ts shift = 2 ^ shift * (ts / 2 ^ shift)).
  { unfold qfq_round_down. rewrite u64_shiftl_1 by lia.
    replace (2 ^ shift - 1) with (Z.ones shift) by (rewrite Z.ones_equiv; lia).
    rewrite Z.mul_comm, <- Z.shiftr_div_pow2, <- Z.shiftl_mul_pow2 by lia.
    apply Z.bits_inj'. intros j Hj.
    rewrite Z.land_spec, not64_testbit, Z.testbit_ones_nonneg by lia.
    destruct (Z.ltb_spec j shift) as [Hlt|Hge].
    - rewrite Z.shiftl_spec_low by lia.
      destruct (Z.testbit ts j), (j <? 64); reflexivity.
    - rewrite Z.shiftl_spec, Z.shiftr_spec by lia.
      replace (j - shift + shift) with j by lia.
      destruct (Z.ltb_spec j 64) as [H64|H64].
      + destruct (Z.testbit ts j); reflexivity.
      + rewrite (testbit_above ts 64 j) by lia. reflexivity. }
  pose proof (Z.div_mod ts (2 ^ shift) ltac:(lia)) as Hdm.
  pose proof (Z.mod_pos_bound ts (2 ^ shift) Hp) as Hm.
  rewrite Heq. repeat split; lia.
Qed.

(** Witness of [qfq_round_down_spec]. *)
Lemma qfq_round_down_spec_witness :
  qfq_round_down 1609223179372 36 = 1609223179372 - 1609223179372 mod 2 ^ 36
  /\ qfq_round_down 1609223179372 36 = 2 ^ 36 * (1609223179372 / 2 ^ 36)
  /\ qfq_round_down 1609223179372 36 <= 1609223179372
     < qfq_round_down 1609223179372 36 + 2 ^ 36.
Proof.
  apply (qfq_round_down_spec 1609223179372 36); lia.
Defined.

(** The group [qfq_calc_index] picks has a slot that holds the largest packet
    of the class: [lmax * inv_w] is at most [2^(MIN_SLOT_SHIFT + index)], and
    no group of a lower index would do. *)
Theorem qfq_calc_index_fits (inv_w' maxlen : Z) :
  0 <= inv_w' < 2 ^ 32 -> 0 <= maxlen < 2 ^ 32 -> inv_w' <> ONE_FP + 1 ->
  let i := qfq_calc_index inv_w' maxlen in
  0 <= i
  /\ maxlen * inv_w' <= 2 ^ (QFQ_MIN_SLOT_SHIFT + i)
  /\ (0 < i -> 2 ^ (QFQ_MIN_SLOT_SHIFT + i - 1) < maxlen * inv_w').
Proof.
  intros Hw Hl Hne. cbv zeta. rewrite qfq_calc_index_eq by assumption.
  destruct (Z.eqb_spec inv_w' (ONE_FP + 1)) as [|_]; [contradiction|]. cbv zeta.
  change QFQ_MIN_SLOT_SHIFT with 22.
  assert (Hs : 0 <= maxlen * inv_w') by nia.
  rewrite Z.shiftr_div_pow2 by lia.
  set (slot_size := maxlen * inv_w') in *.
  destruct (Z.eqb_spec (slot_size / 2 ^ 22) 0) as [Hz|Hnz].
  - split; [lia|]. split; [|lia].
    assert (slot_size < 2 ^ 22); [|simpl; lia].
    apply Z.div_small_iff in Hz; lia.
  - assert (Hpos : 0 < slot_size / 2 ^ 22).
    { pose proof (Z.div_pos slot_size (2 ^ 22) Hs ltac:(lia)). lia. }
    pose proof (Z.log2_spec _ Hpos) as [Hlo Hhi].
    pose proof (Z.log2_nonneg (slot_size / 2 ^ 22)) as Hk.
    set (k := Z.log2 (slot_size / 2 ^ 22)) in *.
    assert (Hlo' : 2 ^ (k + 22) <= slot_size).
    { rewrite Z.pow_add_r by lia.
      pose proof (Z.mul_div_le slot_size (2 ^ 22) ltac:(lia)). nia. }
    assert (Hhi' : slot_size < 2 ^ (k + 23)).
    { replace (k + 23) with (Z.succ k + 22) by lia. rewrite Z.pow_add_r by lia.
      pose proof (Z.mod_pos_bound slot_size (2 ^ 22) ltac:(lia)).
      pose proof (Z.div_mod slot_size (2 ^ 22) ltac:(lia)). nia. }
    replace (k + 1 + 22 - 1) with (k + 22) by lia.
    destruct (Z.eqb_spec slot_size (2 ^ (k + 22))) as [Heq|Hneq].
    + replace (k + 1 - 1) with k by lia. replace (22 + k) with (k + 22) by lia.
      split; [lia|]. split; [lia|]. intros Hk0. rewrite Heq.
      apply Z.pow_lt_mono_r; lia.
    + replace (22 + (k + 1)) with (k + 23) by lia.
      replace (k + 23 - 1) with (k + 22) by lia.
      split; [lia|]. split; [lia|]. intros _. lia.
Qed.

(** Witness of [qfq_calc_index_fits]: weight 100 and [lmax] 1500. *)
Lemma qfq_calc_index_fits_witness :
  let i := qfq_calc_index (ONE_FP / 100) 1500 in
  0 <= i
  /\ 1500 * (ONE_FP / 100) <= 2 ^ (QFQ_MIN_SLOT_SHIFT + i)
  /\ (0 < i -> 2 ^ (QFQ_MIN_SLOT_SHIFT + i - 1) < 1500 * (ONE_FP / 100)).
Proof.
  apply (qfq_calc_index_fits (ONE_FP / 100) 1500); vm_compute; try split; congruence.
Defined.

(** * Further properties of the virtual clock *)

Lemma qfq_update_system_time_last (q : qfq_sched) (now : Z) :
  v_last_updated (qfq_update_system_time q now) = now.
Proof.
  unfold qfq_update_system_time.
  destruct (Z.eqb_spec (v_last_updated q) now) as [Heq|_]; [exact Heq|].
  destruct (negb (t_diff_sum q =? 0)); [destruct (t_diff_sum q <=? _)|];
    try destruct (bitmaps q ER =? 0);
    match goal with
    | |- context [qfq_update_eligible ?q1 ?o] =>
      destruct (qfq_update_eligible_same q1 o) as (_ & _ & _ & _ & Hlast & _)
    end; rewrite Hlast; reflexivity.
Qed.

(** A second clock update at the same reading of the clock changes nothing:
    V, the debt and the bitmaps stay as the first update left them. *)
Theorem qfq_update_system_time_idempotent (q : qfq_sched) (now : Z) :
  qfq_update_system_time (qfq_update_system_time q now) now
  = qfq_update_system_time q now.
Proof.
  pose proof (qfq_update_system_time_last q now) as Hlast.
  generalize dependent (qfq_update_system_time q now). intros q1 Hlast.
  unfold qfq_update_system_time. rewrite Hlast, Z.eqb_refl. reflexivity.
Qed.

Lemma max_u32_lower a b : a <= max_u32 a b.
Proof. unfold max_u32. destruct (Z.ltb_spec a b); lia. Qed.

Lemma drain_quotient_bound (x m : Z) :
  LINK_SPEED <= m -> 0 <= u64 x / m < 2 ^ 51.
Proof.
  intros Hm. change LINK_SPEED with 9800 in Hm. pose proof (u64_range x) as Hx.
  split; [apply Z.div_pos; lia|]. apply Z.div_lt_upper_bound; lia.
Qed.

(** A clock update never moves V backwards in the wraparound-aware order, as
    long as the debt recorded in [v_diff_sum] is below [2^62]. *)
Theorem qfq_update_system_time_monotone (q : qfq_sched) (now : Z) :
  0 <= v_diff_sum q < 2 ^ 62 -> 0 <= t_diff_sum q ->
  qfq_gt (V q) (V (qfq_update_system_time q now)) = false.
Proof.
  intros Hv Ht. unfold qfq_update_system_time.
  destruct (Z.eqb_spec (v_last_updated q) now) as [_|_].
  - unfold qfq_gt. rewrite Z.sub_diag. reflexivity.
  - pose proof (max_u32_lower LINK_SPEED (wsum_active q)) as Hmax.
    set (t_diff := u64 (now - v_last_updated q)).
    pose proof (u64_range (now - v_last_updated q)) as Htd. fold t_diff in Htd.
    assert (Hadv : forall q1 d, V q1 = u64 (V q + d) -> 0 <= d < 2 ^ 63 ->
                     qfq_gt (V q) (V (qfq_update_eligible q1 (V q))) = false).
    { intros q1 d HV Hd.
      destruct (qfq_update_eligible_same q1 (V q)) as (HV' & _).
      rewrite HV', HV. apply qfq_gt_advance. exact Hd. }
    destruct (Z.eqb_spec (t_diff_sum q) 0) as [Hz|Hnz]; simpl negb; cbv iota.
    + destruct (bitmaps q ER =? 0).
      * eapply Hadv; [reflexivity|].
        pose proof (drain_quotient_bound (QFQ_DRAIN_RATE * t_diff) _ Hmax). lia.
      * eapply Hadv; [reflexivity|]. lia.
    + destruct (Z.leb_spec (t_diff_sum q) t_diff) as [Hle|Hgt].
      * destruct (bitmaps q ER =? 0).
        -- pose proof (drain_quotient_bound
                         (QFQ_DRAIN_RATE * u64 (t_diff - t_diff_sum q)) _ Hmax) as Hq.
           eapply Hadv; [reflexivity|]. rewrite u64_small; lia.
        -- eapply Hadv; [reflexivity|]. lia.
      * eapply Hadv; [reflexivity|].
        pose proof (u64_range (v_diff_sum q * t_diff)) as Hp.
        split; [apply Z.div_pos; lia|].
        apply Z.div_lt_upper_bound; [lia|].
        destruct (Z.eq_dec t_diff 0) as [H0|H0].
        -- rewrite H0, Z.mul_0_r. change (u64 0) with 0. lia.
        -- assert (2 <= t_diff_sum q) by lia. nia.
Qed.

(** Witness of [qfq_update_system_time_monotone]: the first update of a new
    scheduler, twenty seconds after boot. *)
Lemma qfq_update_system_time_monotone_witness :
  qfq_gt (V (qfq_init_qdisc 1))
         (V (qfq_update_system_time (qfq_init_qdisc 1) 20000000000)) = false.
Proof.
  apply (qfq_update_system_time_monotone (qfq_init_qdisc 1) 20000000000).
  - vm_compute. split; congruence.
  - vm_compute. congruence.
Defined.

(** * Further properties of the slot ring *)

Lemma shiftl_1_testbit nr j : 0 <= j -> Z.testbit (Z.shiftl 1 nr) j = (j =? nr).
Proof.
  intros Hj. destruct (Z.neg_nonneg_cases nr) as [Hneg|Hpos].
  - rewrite Z.shiftl_spec by lia. change 1 with (2 ^ 0).
    rewrite Z.pow2_bits_eqb by lia.
    destruct (Z.eqb_spec 0 (j - nr)), (Z.eqb_spec j nr); lia.
  - rewrite Z.shiftl_1_l, Z.pow2_bits_eqb by lia. apply Z.eqb_sym.
Qed.

Lemma clear_bit_testbit nr w j :
  0 <= j -> Z.testbit (__clear_bit nr w) j = Z.testbit w j && negb (j =? nr).
Proof.
  intros Hj. unfold __clear_bit. rewrite Z.ldiff_spec, shiftl_1_testbit by lia.
  reflexivity.
Qed.

Lemma set_bit_testbit_any nr w j :
  0 <= j -> Z.testbit (__set_bit nr w) j = (j =? nr) || Z.testbit w j.
Proof.
  intros Hj. unfold __set_bit. rewrite Z.lor_spec, shiftl_1_testbit by lia.
  apply orb_comm.
Qed.

Lemma ffs_unique x j :
  0 < x -> 0 <= j -> Z.testbit x j = true ->
  (forall k, 0 <= k < j -> Z.testbit x k = false) -> __ffs x = j.
Proof.
  intros Hx Hj Hset Hlow. destruct (ffs_spec x Hx) as (Hn & Hs & Hl).
  destruct (Z.lt_trichotomy (__ffs x) j) as [Hlt|[Heq|Hgt]]; [|exact Heq|].
  - rewrite Hlow in Hs by lia. discriminate.
  - rewrite Hl in Hset by lia. discriminate.
Qed.

Lemma u32_mod_slots x : u32 x mod QFQ_MAX_SLOTS = x mod QFQ_MAX_SLOTS.
Proof. unfold u32. apply Z.mod_mod_divide. exists (2 ^ 27). reflexivity. Qed.

Lemma group_eta (g : qfq_group) :
  mk_group (grp_S g) (grp_F g) (slot_shift g) (index g) (front g) (full_slots g)
           (slots g) = g.
Proof. destruct g. reflexivity. Qed.

(** A class that is on no slot list and is inserted at the start time of its
    group is the head of the front slot, and removing the head of the front
    slot gives the group back as it was, when the front slot is marked in
    [full_slots] exactly if it holds a class. *)
Theorem qfq_slot_insert_front_remove (q : qfq_sched) (gi cid : Z)
    (grp : qfq_group) (l : list Z) :
  get_group q gi = Some grp ->
  hlist_linked cid q = false ->
  0 <= front grp < QFQ_MAX_SLOTS ->
  slots grp !! Z.to_nat (front grp) = Some l ->
  (l = [] <-> Z.testbit (full_slots grp) 0 = false) ->
  exists q1 g1,
    qfq_slot_insert q gi cid (grp_S grp) = Some q1
    /\ get_group q1 gi = Some g1
    /\ qfq_slot_head g1 = Some cid
    /\ qfq_front_slot_remove g1 = Some grp.
Proof.
  intros Hgrp Hunl Hfront Hl Hmark. unfold qfq_slot_insert. rewrite Hunl, Hgrp.
  cbn [mbind option_bind]. rewrite Z.sub_diag. change (u64 0) with 0.
  rewrite Z.shiftr_0_l, Z.add_0_r.
  change (QFQ_MAX_SLOTS <=? 0) with false. cbv iota beta.
  change QFQ_MAX_SLOTS with 32 in *.
  assert (Hi : u64 (front grp) mod 32 = front grp).
  { rewrite u64_small by lia. apply Z.mod_small. lia. }
  rewrite Hi, Hl. cbn [mbind option_bind].
  assert (Hlen : (Z.to_nat (front grp) < length (slots grp))%nat)
    by (eapply lookup_lt_Some; exact Hl).
  eexists _, _. split; [reflexivity|].
  split; [eapply get_group_set_group_eq; exact Hgrp|].
  unfold qfq_slot_head, qfq_front_slot_remove, qfq_slot_head. cbn [slots front set_full_slots set_slots].
  rewrite list_lookup_insert_eq by exact Hlen. cbn [mbind option_bind head tail].
  split; [reflexivity|].
  cbn [slots front set_full_slots set_slots full_slots grp_S grp_F slot_shift index].
  rewrite list_insert_insert_eq, (list_insert_id _ _ _ Hl).
  f_equal. destruct l as [|c l'].
  - assert (Hb : __clear_bit 0 (__set_bit 0 (full_slots grp)) = full_slots grp).
    { apply Z.bits_inj'. intros j Hj.
      rewrite clear_bit_testbit, set_bit_testbit_any by lia.
      destruct (Z.eqb_spec j 0) as [->|_].
      - rewrite (proj1 Hmark eq_refl). reflexivity.
      - rewrite andb_true_r. reflexivity. }
    unfold set_full_slots, set_slots.
    cbn [slots front full_slots grp_S grp_F slot_shift index].
    rewrite Hb. apply group_eta.
  - assert (Hb : __set_bit 0 (full_slots grp) = full_slots grp).
    { apply Z.bits_inj'. intros j Hj.
      rewrite set_bit_testbit_any by lia.
      destruct (Z.eqb_spec j 0) as [->|_]; [|reflexivity].
      destruct (Z.testbit (full_slots grp) 0); [reflexivity|].
      discriminate (proj2 Hmark eq_refl). }
    unfold set_full_slots, set_slots.
    cbn [slots front full_slots grp_S grp_F slot_shift index].
    rewrite Hb. apply group_eta.
Qed.

(** Witness of [qfq_slot_insert_front_remove]: group 0 of a new scheduler,
    where no class is on a list. *)
Lemma qfq_slot_insert_front_remove_witness :
  hlist_linked 7 (qfq_init_qdisc 1) = false
  /\ exists q1 g1,
    qfq_slot_insert (qfq_init_qdisc 1) 0 7 (grp_S (qfq_init_group 0)) = Some q1
    /\ get_group q1 0 = Some g1
    /\ qfq_slot_head g1 = Some 7
    /\ qfq_front_slot_remove g1 = Some (qfq_init_group 0).
Proof.
  split; [reflexivity|].
  apply (qfq_slot_insert_front_remove (qfq_init_qdisc 1) 0 7 (qfq_init_group 0) []).
  - reflexivity.
  - reflexivity.
  - vm_compute. split; congruence.
  - reflexivity.
  - split; reflexivity.
Defined.

(** [qfq_slot_scan] on a group with a marked slot moves the front to the
    first marked slot: the marks shift down by the number of slots skipped,
    the new front slot is marked, every logical slot keeps its place in the
    ring, and no list changes. *)
Theorem qfq_slot_scan_spec (grp g' : qfq_group) (ocl : option Z) :
  0 < full_slots grp ->
  qfq_slot_scan grp = Some (g', ocl) ->
  let i := __ffs (full_slots grp) in
  slots g' = slots grp
  /\ Z.testbit (full_slots g') 0 = true
  /\ (forall k, 0 <= k -> Z.testbit (full_slots g') k = Z.testbit (full_slots grp) (k + i))
  /\ (forall k, (front g' + k) mod QFQ_MAX_SLOTS
                = (front grp + i + k) mod QFQ_MAX_SLOTS)
  /\ (0 < i \/ front g' = front grp)
  /\ grp_S g' = grp_S grp /\ grp_F g' = grp_F grp /\ index g' = index grp
  /\ exists cl, ocl = Some cl /\ qfq_slot_head g' = Some cl.
Proof.
  intros Hfull Hscan. cbv zeta. unfold qfq_slot_scan in Hscan.
  destruct (Z.eqb_spec (full_slots grp) 0) as [|_]; [lia|].
  destruct (ffs_spec _ Hfull) as (Hn & Hset & Hlow).
  set (i := __ffs (full_slots grp)) in *.
  destruct (Z.ltb_spec 0 i) as [Hpos|Hzero].
  - destruct (qfq_slot_head _) as [cl|] eqn:Hhead; [|discriminate Hscan].
    cbn [mbind option_bind] in Hscan. injection Hscan as <- <-.
    cbn [slots full_slots front grp_S grp_F index set_full_slots set_front].
    split; [reflexivity|].
    split; [rewrite Z.shiftr_spec by lia; exact Hset|].
    split; [intros k Hk; apply Z.shiftr_spec; exact Hk|].
    split.
    { intros k. rewrite u32_mod_slots, Zplus_mod_idemp_l. reflexivity. }
    split; [left; exact Hpos|].
    repeat split. exists cl. split; [reflexivity|exact Hhead].
  - assert (Hi0 : i = 0) by lia.
    destruct (qfq_slot_head grp) as [cl|] eqn:Hhead; [|discriminate Hscan].
    cbn [mbind option_bind] in Hscan. injection Hscan as <- <-.
    rewrite Hi0 in *.
    split; [reflexivity|]. split; [exact Hset|].
    split; [intros k Hk; rewrite Z.add_0_r; reflexivity|].
    split; [intros k; rewrite Z.add_0_r; reflexivity|].
    split; [right; reflexivity|].
    repeat split. exists cl. split; [reflexivity|exact Hhead].
Qed.

(** Witness of [qfq_slot_scan_spec]: [scan_group]. *)
Lemma qfq_slot_scan_spec_witness :
  exists g' ocl,
    qfq_slot_scan scan_group = Some (g', ocl)
    /\ front g' = 1 /\ full_slots g' = 1 /\ ocl = Some 7
    /\ slots g' = slots scan_group
    /\ Z.testbit (full_slots g') 0 = true
    /\ (forall k, 0 <= k ->
          Z.testbit (full_slots g') k
          = Z.testbit (full_slots scan_group) (k + __ffs (full_slots scan_group)))
    /\ (forall k, (front g' + k) mod QFQ_MAX_SLOTS
                  = (front scan_group + __ffs (full_slots scan_group) + k)
                    mod QFQ_MAX_SLOTS).
Proof.
  eexists _, _. split; [vm_compute; reflexivity|].
  split; [reflexivity|]. split; [reflexivity|]. split; [reflexivity|].
  pose proof (qfq_slot_scan_spec scan_group _ _ ltac:(reflexivity)
                ltac:(vm_compute; reflexivity)) as H.
  cbv zeta in H. destruct H as (H1 & H2 & H3 & H4 & _).
  split; [exact H1|]. split; [exact H2|]. split; [exact H3|exact H4].
Defined.

(** [qfq_slot_rotate] followed by [qfq_slot_scan] gives the group back: when
    the front slot is marked and no mark is shifted out of the word, the scan
    finds the earlier front slot again, with the marks and the lists it had. *)
Theorem qfq_slot_rotate_scan (grp g1 : qfq_group) (roundedS : Z) :
  qfq_slot_rotate grp roundedS = Some g1 ->
  0 <= front grp < QFQ_MAX_SLOTS ->
  Z.testbit (full_slots grp) 0 = true ->
  0 < full_slots grp ->
  Z.shiftl (full_slots grp)
           (u32 (Z.shiftr (u64 (grp_S grp - roundedS)) (slot_shift grp))) < 2 ^ 64 ->
  qfq_slot_scan g1 = (cl ← qfq_slot_head grp; Some (grp, Some cl)).
Proof.
  intros Hrot Hfront Hbit Hfull Hfit. unfold qfq_slot_rotate in Hrot.
  set (i := u32 (Z.shiftr (u64 (grp_S grp - roundedS)) (slot_shift grp))) in *.
  assert (Hi0 : 0 <= i) by (unfold i, u32; apply Z.mod_pos_bound; lia).
  destruct (Z.leb_spec 64 i) as [|Hi]; [discriminate Hrot|]. injection Hrot as <-.
  cbn [set_front set_full_slots full_slots front slots grp_S grp_F slot_shift index].
  assert (Hsh : 0 < Z.shiftl (full_slots grp) i).
  { rewrite Z.shiftl_mul_pow2 by lia.
    assert (0 < 2 ^ i) by (apply Z.pow_pos_nonneg; lia). nia. }
  rewrite u64_small by lia.
  change QFQ_MAX_SLOTS with 32 in *.
  assert (Hfr : forall x, u32 x mod 32 = x mod 32) by (exact u32_mod_slots).
  unfold qfq_slot_scan.
  cbn [set_front set_full_slots full_slots front slots grp_S grp_F slot_shift index].
  destruct (Z.eqb_spec (Z.shiftl (full_slots grp) i) 0) as [|_]; [lia|].
  assert (Hffs : __ffs (Z.shiftl (full_slots grp) i) = i).
  { apply ffs_unique; try lia.
    - rewrite Z.shiftl_spec by lia. rewrite Z.sub_diag. exact Hbit.
    - intros k Hk. apply Z.shiftl_spec_low. lia. }
  rewrite Hffs. change QFQ_MAX_SLOTS with 32.
  destruct (Z.ltb_spec 0 i) as [Hpos|Hzero].
  - cbn [set_front set_full_slots full_slots front slots grp_S grp_F slot_shift index].
    rewrite !Hfr, Zplus_mod_idemp_l.
    replace (front grp - i + i) with (front grp) by lia.
    rewrite (Z.mod_small (front grp)) by lia.
    rewrite Z.shiftr_shiftl_l, Z.sub_diag, Z.shiftl_0_r by lia.
    unfold set_full_slots, set_front.
    cbn [full_slots front slots grp_S grp_F slot_shift index].
    rewrite group_eta. reflexivity.
  - assert (i = 0) as -> by lia.
    rewrite Z.shiftl_0_r, Z.sub_0_r, Hfr, (Z.mod_small (front grp)) by lia.
    unfold set_full_slots, set_front.
    cbn [full_slots front slots grp_S grp_F slot_shift index].
    rewrite group_eta. reflexivity.
Qed.

(** Witness of [qfq_slot_rotate_scan]: [rotate_group], whose start moves back
    by three slots. *)
Lemma qfq_slot_rotate_scan_witness :
  exists g1,
    qfq_slot_rotate rotate_group 0 = Some g1
    /\ front g1 = 30 /\ full_slots g1 = 8
    /\ qfq_slot_scan g1 = (cl ← qfq_slot_head rotate_group; Some (rotate_group, Some cl)).
Proof.
  eexists. split; [vm_compute; reflexivity|].
  split; [reflexivity|]. split; [reflexivity|].
  apply (qfq_slot_rotate_scan rotate_group _ 0).
  - vm_compute. reflexivity.
  - vm_compute. split; congruence.
  - reflexivity.
  - reflexivity.
  - vm_compute. reflexivity.
Defined.

(** * The invariant of the bitmaps: what keeps it *)

Lemma bitmaps_set_bitmap q s v s' :
  bitmaps (set_bitmap q s v) s' = if decide (s' = s) then v else bitmaps q s'.
Proof. reflexivity. Qed.

Lemma land_eq_0_bits a b :
  Z.land a b = 0 <-> forall j, 0 <= j -> Z.testbit a j && Z.testbit b j = false.
Proof.
  split.
  - intros H j Hj. rewrite <- Z.land_spec, H. apply Z.bits_0.
  - intros H. apply Z.bits_inj'. intros j Hj.
    rewrite Z.land_spec, Z.bits_0. apply H. exact Hj.
Qed.

Lemma in_exactly_one_count q j : in_exactly_one q j <-> state_count q j = 1%nat.
Proof.
  unfold in_exactly_one, state_count. split.
  - intros (s & Hs & Hothers).
    destruct s;
      repeat match goal with
             | |- context [Z.testbit (bitmaps q ?s') j] =>
               first [rewrite Hs | rewrite (Hothers s') by discriminate]
             end; reflexivity.
  - intros H.
    destruct (Z.testbit (bitmaps q ER) j) eqn:HER,
             (Z.testbit (bitmaps q IR) j) eqn:HIR,
             (Z.testbit (bitmaps q EB) j) eqn:HEB,
             (Z.testbit (bitmaps q IB) j) eqn:HIB; simpl in H; try discriminate H.
    + exists ER. split; [exact HER|]. intros s' Hs'. destruct s'; congruence.
    + exists IR. split; [exact HIR|]. intros s' Hs'. destruct s'; congruence.
    + exists EB. split; [exact HEB|]. intros s' Hs'. destruct s'; congruence.
    + exists IB. split; [exact HIB|]. intros s' Hs'. destruct s'; congruence.
Qed.

Lemma bitmaps_disjoint_count q :
  bitmaps_disjoint q <-> forall j, 0 <= j -> (state_count q j <= 1)%nat.
Proof.
  unfold bitmaps_disjoint, state_count. split.
  - intros H j Hj.
    assert (Hp : forall s1 s2, s1 <> s2 ->
                   Z.testbit (bitmaps q s1) j && Z.testbit (bitmaps q s2) j = false).
    { intros s1 s2 Hne. apply land_eq_0_bits; [apply H; exact Hne|exact Hj]. }
    pose proof (Hp ER IR ltac:(discriminate)). pose proof (Hp ER EB ltac:(discriminate)).
    pose proof (Hp ER IB ltac:(discriminate)). pose proof (Hp IR EB ltac:(discriminate)).
    pose proof (Hp IR IB ltac:(discriminate)). pose proof (Hp EB IB ltac:(discriminate)).
    destruct (Z.testbit (bitmaps q ER) j), (Z.testbit (bitmaps q IR) j),
             (Z.testbit (bitmaps q EB) j), (Z.testbit (bitmaps q IB) j);
      simpl in *; try discriminate; lia.
  - intros H s1 s2 Hne. apply land_eq_0_bits. intros j Hj. specialize (H j Hj).
    destruct (Z.testbit (bitmaps q ER) j) eqn:HER,
             (Z.testbit (bitmaps q IR) j) eqn:HIR,
             (Z.testbit (bitmaps q EB) j) eqn:HEB,
             (Z.testbit (bitmaps q IB) j) eqn:HIB; simpl in H; try lia;
      destruct s1, s2; try congruence;
      rewrite ?HER, ?HIR, ?HEB, ?HIB; reflexivity.
Qed.

Lemma get_group_elem_of q grp :
  grp ∈ groups q <-> exists i, get_group q i = Some grp.
Proof.
  rewrite list_elem_of_lookup. unfold get_group. split.
  - intros [n Hn]. exists (Z.of_nat n).
    destruct (Z.ltb_spec (Z.of_nat n) 0); [lia|]. rewrite Nat2Z.id. exact Hn.
  - intros [i Hi]. destruct (i <? 0); [discriminate|]. eauto.
Qed.

Lemma counted_inv_iff q : counted_inv q <-> scheduler_inv q.
Proof.
  unfold counted_inv, scheduler_inv, groups_wf, qfq_bitmap_invariant, group_view.
  rewrite bitmaps_disjoint_count. split.
  - intros (Hnn & Hcnt & Hg).
    assert (Hwf : forall i grp, get_group q i = Some grp -> index grp = i /\ i < 64).
    { intros i grp Hi. destruct (Hg i (index grp) (full_slots grp)) as (H1 & H2 & _).
      - rewrite Hi. reflexivity.
      - auto. }
    split; [exact Hwf|]. split; [exact Hnn|]. split; [exact Hcnt|].
    intros grp Hin. apply get_group_elem_of in Hin as [i Hi].
    destruct (Hg i (index grp) (full_slots grp)) as (H1 & _ & H3).
    { rewrite Hi. reflexivity. }
    rewrite in_exactly_one_count, H1. exact H3.
  - intros (Hwf & Hnn & Hcnt & Hg).
    split; [exact Hnn|]. split; [exact Hcnt|].
    intros i idx f Hv. destruct (get_group q i) as [grp|] eqn:Hi; [|discriminate Hv].
    simpl in Hv. injection Hv as <- <-. destruct (Hwf i grp Hi) as [H1 H2].
    split; [exact H1|]. split; [exact H2|].
    rewrite <- in_exactly_one_count, <- H1. apply Hg.
    apply get_group_elem_of. eauto.
Qed.

Lemma groups_moved_refl q : groups_moved q q.
Proof. split; [reflexivity|]. split; [auto|]. intros j Hj Hc. auto. Qed.

Lemma groups_moved_trans q1 q2 q3 :
  groups_moved q1 q2 -> groups_moved q2 q3 -> groups_moved q1 q3.
Proof.
  intros (Hg1 & Hn1 & Hc1) (Hg2 & Hn2 & Hc2).
  split; [congruence|]. split; [auto|].
  intros j Hj Hc. destruct (Hc1 j Hj Hc) as [Ha Hb].
  destruct (Hc2 j Hj Ha) as [Ha' Hb']. split; [exact Ha'|].
  intros H64. rewrite Hb', Hb by exact H64. reflexivity.
Qed.

Lemma counted_inv_moved q q' :
  counted_inv q -> groups_moved q q' -> counted_inv q'.
Proof.
  intros (Hnn & Hcnt & Hg) (Hgs & Hn & Hc).
  split; [auto|]. split; [intros j Hj; apply Hc; auto|].
  intros i idx f Hv. unfold group_view, get_group in *. rewrite Hgs in Hv.
  destruct (Hg i idx f Hv) as (H1 & H2 & H3).
  split; [exact H1|]. split; [exact H2|].
  assert (Hi : 0 <= i).
  { destruct (Z.ltb_spec i 0); [discriminate Hv|lia]. }
  destruct (Hc i Hi (Hcnt i Hi)) as [_ Heq]. rewrite Heq by exact H2. exact H3.
Qed.

Lemma lor_nonneg_2 a b : 0 <= a -> 0 <= b -> 0 <= Z.lor a b.
Proof. intros. apply Z.lor_nonneg. auto. Qed.

Lemma land_nonneg_l a b : 0 <= a -> 0 <= Z.land a b.
Proof. intros. apply Z.land_nonneg. auto. Qed.

Lemma qfq_move_groups_bits q mask src dst :
  src <> dst ->
  let q' := qfq_move_groups q mask src dst in
  (forall s, s <> src -> s <> dst -> bitmaps q' s = bitmaps q s)
  /\ (forall j, 0 <= j ->
        Z.testbit (bitmaps q' src) j
        = Z.testbit (bitmaps q src) j && ((j <? 64) && negb (Z.testbit mask j)))
  /\ (forall j, 0 <= j ->
        Z.testbit (bitmaps q' dst) j
        = Z.testbit (bitmaps q dst) j
          || (Z.testbit (bitmaps q src) j && Z.testbit mask j)).
Proof.
  intros Hne q'. split; [|split].
  - intros s H1 H2. unfold q', qfq_move_groups. rewrite !bitmaps_set_bitmap.
    rewrite !decide_False by congruence. reflexivity.
  - intros j Hj. unfold q', qfq_move_groups. rewrite !bitmaps_set_bitmap.
    rewrite decide_True by reflexivity. rewrite decide_False by congruence.
    rewrite Z.land_spec, not64_testbit by lia. reflexivity.
  - intros j Hj. unfold q', qfq_move_groups. rewrite !bitmaps_set_bitmap.
    rewrite decide_False by congruence. rewrite decide_True by reflexivity.
    rewrite Z.lor_spec, Z.land_spec. reflexivity.
Qed.

Lemma qfq_move_groups_moved q mask src dst :
  src <> dst -> groups_moved q (qfq_move_groups q mask src dst).
Proof.
  intros Hne. destruct (qfq_move_groups_bits q mask src dst Hne) as (Hoth & Hsrc & Hdst).
  set (q' := qfq_move_groups q mask src dst) in *.
  split; [reflexivity|]. split.
  - intros Hnn s. unfold q', qfq_move_groups. rewrite !bitmaps_set_bitmap.
    pose proof (Hnn src). pose proof (Hnn dst). pose proof (Hnn s).
    repeat case_decide; subst;
      repeat first [assumption | apply land_nonneg_l | apply lor_nonneg_2].
  - intros j Hj. unfold state_count.
    destruct src, dst; try congruence;
      rewrite ?(Hdst j Hj), ?(Hsrc j Hj);
      repeat match goal with
             | |- context [bitmaps q' ?s] =>
               rewrite (Hoth s) by discriminate
             end;
      destruct (Z.testbit (bitmaps q ER) j), (Z.testbit (bitmaps q IR) j),
               (Z.testbit (bitmaps q EB) j), (Z.testbit (bitmaps q IB) j),
               (Z.testbit mask j), (Z.ltb_spec j 64); simpl; lia.
Qed.

(** [qfq_move_groups] between two different bitmaps loses no group and
    doubles none: the other two bitmaps are untouched, the union of the two
    it works on stays the same on the 64 bits of a word, the destination
    gains exactly the masked bits of the source, and bitmaps that were
    pairwise disjoint stay so. *)
Theorem qfq_move_groups_spec (q : qfq_sched) (mask : Z) (src dst : qfq_state) :
  src <> dst ->
  let q' := qfq_move_groups q mask src dst in
  (forall s, s <> src -> s <> dst -> bitmaps q' s = bitmaps q s)
  /\ (forall j, 0 <= j < 64 ->
        Z.testbit (bitmaps q' src) j || Z.testbit (bitmaps q' dst) j
        = Z.testbit (bitmaps q src) j || Z.testbit (bitmaps q dst) j)
  /\ (forall j, 0 <= j ->
        Z.testbit (bitmaps q' dst) j
        = Z.testbit (bitmaps q dst) j
          || (Z.testbit (bitmaps q src) j && Z.testbit mask j))
  /\ (bitmaps_disjoint q -> bitmaps_disjoint q')
  /\ groups q' = groups q.
Proof.
  intros Hne q'.
  destruct (qfq_move_groups_bits q mask src dst Hne) as (Hoth & Hsrc & Hdst).
  fold q' in Hoth, Hsrc, Hdst.
  split; [exact Hoth|]. split.
  { intros j Hj. rewrite (Hdst j) , (Hsrc j) by lia.
    destruct (Z.ltb_spec j 64); [|lia].
    destruct (Z.testbit (bitmaps q src) j), (Z.testbit (bitmaps q dst) j),
             (Z.testbit mask j); reflexivity. }
  split; [exact Hdst|]. split; [|reflexivity].
  rewrite !bitmaps_disjoint_count. intros H j Hj.
  apply (qfq_move_groups_moved q mask src dst Hne); auto.
Qed.

Lemma qfq_move_groups_spec_witness :
  let q := set_bitmap (set_bitmap (qfq_init_qdisc 1) IR 6) ER 8 in
  let q' := qfq_move_groups q 3 IR ER in
  (forall s, s <> IR -> s <> ER -> bitmaps q' s = bitmaps q s)
  /\ (forall j, 0 <= j < 64 ->
        Z.testbit (bitmaps q' IR) j || Z.testbit (bitmaps q' ER) j
        = Z.testbit (bitmaps q IR) j || Z.testbit (bitmaps q ER) j)
  /\ (forall j, 0 <= j ->
        Z.testbit (bitmaps q' ER) j
        = Z.testbit (bitmaps q ER) j
          || (Z.testbit (bitmaps q IR) j && Z.testbit 3 j))
  /\ (bitmaps_disjoint q -> bitmaps_disjoint q')
  /\ groups q' = groups q.
Proof.
  exact (qfq_move_groups_spec
           (set_bitmap (set_bitmap (qfq_init_qdisc 1) IR 6) ER 8) 3 IR ER
           ltac:(discriminate)).
Defined.

Lemma groups_check_spec q l :
  forall i0, groups_check q i0 l = true ->
  forall n grp, l !! n = Some grp ->
    index grp = i0 + Z.of_nat n /\ index grp < 64
    /\ (full_slots grp <> 0 <-> state_count q (index grp) = 1%nat).
Proof.
  induction l as [|g l IH]; intros i0 H n grp Hn; [destruct n; discriminate Hn|].
  cbn [groups_check] in H.
  apply andb_prop in H as [H Hrest]. apply andb_prop in H as [H Hfull].
  apply andb_prop in H as [Hidx H64].
  apply Z.eqb_eq in Hidx. apply Z.ltb_lt in H64.
  destruct n as [|n].
  - injection Hn as <-. split; [lia|]. split; [lia|]. rewrite Hidx.
    destruct (Z.eqb_spec (full_slots g) 0) as [Hz|Hnz],
             (Nat.eqb_spec (state_count q i0) 1) as [Hc|Hc];
      try discriminate Hfull; split; intros; congruence.
  - destruct (IH (i0 + 1) Hrest n grp Hn) as (H1 & H2 & H3).
    split; [lia|]. split; [exact H2|exact H3].
Qed.

Lemma scheduler_check_sound q : scheduler_check q = true -> scheduler_inv q.
Proof.
  unfold scheduler_check, bitmaps_check. intros H.
  apply andb_prop in H as [H Hg]. apply andb_prop in H as [Hnn Hdj].
  cbn [forallb fst snd] in Hnn, Hdj.
  repeat match goal with
         | H : _ && _ = true |- _ => apply andb_prop in H as [? ?]
         end.
  repeat match goal with
         | H : (_ <=? _) = true |- _ => apply Z.leb_le in H
         | H : (_ =? _) = true |- _ => apply Z.eqb_eq in H
         end.
  split; [|split; [|split]].
  - intros i grp Hi. unfold get_group in Hi.
    destruct (Z.ltb_spec i 0); [discriminate Hi|].
    destruct (groups_check_spec q _ 0 Hg _ _ Hi) as (Hx & Hy & _).
    rewrite Z2Nat.id in Hx by lia. lia.
  - intros s. destruct s; assumption.
  - intros s1 s2 Hne.
    destruct s1, s2; try congruence; try assumption;
      rewrite Z.land_comm; assumption.
  - intros grp Hin. apply list_elem_of_lookup in Hin as [n Hn].
    destruct (groups_check_spec q _ 0 Hg _ _ Hn) as (_ & _ & Hz).
    rewrite in_exactly_one_count. exact Hz.
Qed.


Lemma qfq_make_eligible_moved q old_V : groups_moved q (qfq_make_eligible q old_V).
Proof.
  unfold qfq_make_eligible.
  destruct (negb (Z.shiftr (V q) QFQ_MIN_SLOT_SHIFT =? Z.shiftr old_V QFQ_MIN_SLOT_SHIFT)).
  - eapply groups_moved_trans; apply qfq_move_groups_moved; discriminate.
  - apply groups_moved_refl.
Qed.

Lemma qfq_update_eligible_moved q old_V : groups_moved q (qfq_update_eligible q old_V).
Proof.
  unfold qfq_update_eligible.
  destruct (negb (Z.lor (bitmaps q IR) (bitmaps q IB) =? 0)).
  - apply qfq_make_eligible_moved.
  - apply groups_moved_refl.
Qed.

Lemma qfq_unblock_groups_moved q idx old_F q' :
  qfq_unblock_groups q idx old_F = Some q' -> groups_moved q q'.
Proof.
  unfold qfq_unblock_groups. intros H.
  match type of H with
  | mbind _ ?m = _ => destruct m as [[|]|]
  end; cbn [mbind option_bind] in H; try discriminate H; injection H as <-.
  - apply groups_moved_refl.
  - eapply groups_moved_trans; apply qfq_move_groups_moved; discriminate.
Qed.

Lemma qfq_update_system_time_moved q now :
  groups_moved q (qfq_update_system_time q now).
Proof.
  unfold qfq_update_system_time.
  destruct (v_last_updated q =? now); [apply groups_moved_refl|].
  destruct (negb (t_diff_sum q =? 0)); [destruct (t_diff_sum q <=? _)|];
    try destruct (bitmaps q ER =? 0);
    (eapply groups_moved_trans; [|apply qfq_update_eligible_moved]);
    (split; [reflexivity|]; split; [auto|]; intros j Hj Hc; auto).
Qed.

(** A clock update keeps the invariant of the bitmaps: the bitmaps stay
    pairwise disjoint and every group with a marked slot stays in exactly one
    of them, whatever groups become eligible. *)
Theorem qfq_update_system_time_invariant (q : qfq_sched) (now : Z) :
  scheduler_inv q -> scheduler_inv (qfq_update_system_time q now).
Proof.
  rewrite <- !counted_inv_iff. intros H.
  eapply counted_inv_moved; [exact H|apply qfq_update_system_time_moved].
Qed.

Lemma qfq_update_system_time_invariant_witness :
  exists q, qfq_run (qfq_init_qdisc 1) blocked_group_trace = Some q
            /\ scheduler_inv q
            /\ scheduler_inv (qfq_update_system_time q 8000000).
Proof.
  eexists. split; [vm_compute; reflexivity|]. split.
  - apply scheduler_check_sound. vm_compute. reflexivity.
  - apply qfq_update_system_time_invariant.
    apply scheduler_check_sound. vm_compute. reflexivity.
Defined.

(** ** What the operations do to the groups and to the bitmaps *)

Lemma group_view_set_group_eq q gi g0 g :
  get_group q gi = Some g0 ->
  group_view (set_group q gi g) gi = Some (index g, full_slots g).
Proof.
  intros H. unfold group_view. rewrite (get_group_set_group_eq q gi g0 g H).
  reflexivity.
Qed.

Lemma group_view_set_group_ne q gi i g0 g :
  get_group q gi = Some g0 -> i <> gi ->
  group_view (set_group q gi g) i = group_view q i.
Proof.
  intros H Hne. unfold group_view.
  rewrite (get_group_set_group_ne q gi i g0 g H Hne). reflexivity.
Qed.

Lemma get_group_hlist_del q cid q1 i :
  hlist_del q cid = Some q1 ->
  get_group q1 i = hlist_unlink cid <$> get_group q i.
Proof.
  unfold hlist_del. destruct (hlist_linked cid q); [|discriminate].
  intros H. injection H as <-. unfold get_group. cbn [groups set_groups].
  destruct (i <? 0); [reflexivity|]. apply list_lookup_fmap.
Qed.

Lemma clear_bit_0 nr : __clear_bit nr 0 = 0.
Proof. unfold __clear_bit. apply Z.ldiff_0_l. Qed.

Lemma set_bit_nonzero nr w : 0 <= nr -> __set_bit nr w <> 0.
Proof.
  intros Hnr H.
  assert (Hb : Z.testbit (__set_bit nr w) nr = true).
  { rewrite set_bit_testbit_any by lia. rewrite Z.eqb_refl. reflexivity. }
  rewrite H, Z.bits_0 in Hb. discriminate Hb.
Qed.

Lemma clear_bit_nonneg nr w : 0 <= w -> 0 <= __clear_bit nr w.
Proof. intros H. unfold __clear_bit. apply Z.ldiff_nonneg. left. exact H. Qed.

Lemma set_bit_nonneg nr w : 0 <= w -> 0 <= __set_bit nr w.
Proof.
  intros H. unfold __set_bit. apply Z.lor_nonneg. split; [exact H|].
  apply Z.shiftl_nonneg. lia.
Qed.

Lemma qfq_slot_remove_view q gi cid q1 :
  qfq_slot_remove q gi cid = Some q1 ->
  bitmaps q1 = bitmaps q
  /\ (forall i, i <> gi -> group_view q1 i = group_view q i)
  /\ exists idx f f1,
       group_view q gi = Some (idx, f) /\ group_view q1 gi = Some (idx, f1)
       /\ (f1 <> 0 -> f <> 0).
Proof.
  unfold qfq_slot_remove. intros H.
  destruct (get_group q gi) as [grp|] eqn:Hgrp; [|discriminate H].
  cbn [mbind option_bind] in H.
  destruct (get_class q cid) as [cl|]; [|discriminate H].
  cbn [mbind option_bind] in H.
  destruct (hlist_del q cid) as [q0|] eqn:Hdel; [|discriminate H].
  cbn [mbind option_bind] in H.
  assert (Hbm : bitmaps q0 = bitmaps q).
  { unfold hlist_del in Hdel. destruct (hlist_linked cid q); [|discriminate Hdel].
    injection Hdel as <-. reflexivity. }
  assert (Hview : forall i, group_view q0 i = group_view q i).
  { intros i. unfold group_view. rewrite (get_group_hlist_del q cid q0 i Hdel).
    destruct (get_group q i); reflexivity. }
  destruct (get_group q0 gi) as [grp0|] eqn:Hgrp0; [|discriminate H].
  cbn [mbind option_bind] in H.
  assert (Hv0 : group_view q0 gi = Some (index grp0, full_slots grp0))
    by (unfold group_view; rewrite Hgrp0; reflexivity).
  assert (Hv : group_view q gi = Some (index grp0, full_slots grp0))
    by (rewrite <- Hview; exact Hv0).
  match type of H with
  | context [slots grp0 !! ?n] => destruct (slots grp0 !! n) as [l|]
  end; [|discriminate H].
  cbn [mbind option_bind] in H. destruct l.
  - match type of H with
    | context [64 <=? ?o] => destruct (64 <=? o)
    end; [discriminate H|]. injection H as <-.
    split; [exact Hbm|]. split.
    + intros i Hi. rewrite (group_view_set_group_ne q0 gi i grp0 _ Hgrp0 Hi).
      apply Hview.
    + exists (index grp0), (full_slots grp0). eexists.
      split; [exact Hv|]. split.
      * rewrite (group_view_set_group_eq q0 gi grp0 _ Hgrp0). reflexivity.
      * cbn [full_slots set_full_slots]. intros Hne Hz. apply Hne.
        rewrite Hz. apply clear_bit_0.
  - injection H as <-. split; [exact Hbm|]. split; [intros i _; apply Hview|].
    exists (index grp0), (full_slots grp0), (full_slots grp0).
    split; [exact Hv|]. split; [exact Hv0|]. auto.
Qed.

Lemma qfq_slot_scan_view g g' ocl :
  qfq_slot_scan g = Some (g', ocl) ->
  index g' = index g
  /\ (full_slots g = 0 -> ocl = None /\ full_slots g' = 0)
  /\ (full_slots g <> 0 -> ocl <> None /\ full_slots g' <> 0).
Proof.
  unfold qfq_slot_scan. intros H.
  destruct (Z.eqb_spec (full_slots g) 0) as [Hz|Hnz].
  - injection H as <- <-. split; [reflexivity|]. split; [auto|]. intros; contradiction.
  - destruct (qfq_slot_head _) as [cl|]; [|discriminate H].
    cbn [mbind option_bind] in H. injection H as <- <-.
    destruct (Z.ltb_spec 0 (__ffs (full_slots g))) as [Hpos|_].
    + cbn [index full_slots set_full_slots set_front].
      split; [reflexivity|]. split; [intros; contradiction|]. intros _.
      split; [discriminate|].
      assert (Hfull : 0 < full_slots g).
      { destruct (full_slots g); [contradiction|lia|simpl in Hpos; lia]. }
      destruct (ffs_spec _ Hfull) as (Hn & Hset & _). intros Hz.
      assert (Hb : Z.testbit (Z.shiftr (full_slots g) (__ffs (full_slots g))) 0 = true).
      { rewrite Z.shiftr_spec by lia. exact Hset. }
      rewrite Hz, Z.bits_0 in Hb. discriminate Hb.
    + split; [reflexivity|]. split; [intros; contradiction|]. intros _.
      split; [discriminate|exact Hnz].
Qed.

Lemma qfq_front_slot_remove_view g g' :
  qfq_front_slot_remove g = Some g' ->
  index g' = index g /\ slot_shift g' = slot_shift g.
Proof.
  unfold qfq_front_slot_remove. intros H.
  destruct (qfq_slot_head g); [|discriminate H]. cbn [mbind option_bind] in H.
  destruct (slots g !! Z.to_nat (front g)) as [l|]; [|discriminate H].
  cbn [mbind option_bind] in H. injection H as <-.
  destruct (tail l); split; reflexivity.
Qed.

Lemma qfq_slot_insert_view q gi cid roundedS q1 :
  qfq_slot_insert q gi cid roundedS = Some q1 ->
  bitmaps q1 = bitmaps q
  /\ (forall i, i <> gi -> get_group q1 i = get_group q i)
  /\ exists g g1, get_group q gi = Some g /\ get_group q1 gi = Some g1
                  /\ index g1 = index g /\ full_slots g1 <> 0.
Proof.
  unfold qfq_slot_insert. intros H.
  destruct (hlist_linked cid q); [discriminate H|].
  destruct (get_group q gi) as [g|] eqn:Hg; [|discriminate H].
  cbn [mbind option_bind] in H.
  set (slot0 := Z.shiftr (u64 (roundedS - grp_S g)) (slot_shift g)) in *.
  assert (Hslot0 : 0 <= slot0).
  { unfold slot0. apply Z.shiftr_nonneg. apply u64_range. }
  destruct (Z.leb_spec QFQ_MAX_SLOTS slot0) as [Hbig|Hsmall];
    match type of H with
    | context [slots g !! ?n] => destruct (slots g !! n) as [l|]
    end; try discriminate H; cbn [mbind option_bind] in H; injection H as <-;
    (split; [reflexivity|]);
    (split; [intros i Hi; eapply get_group_set_group_ne; eassumption|]);
    eexists g, _;
    (split; [reflexivity|]);
    (split; [eapply get_group_set_group_eq; exact Hg|]);
    (split; [reflexivity|]);
    cbn [full_slots set_full_slots set_slots]; apply set_bit_nonzero.
  - vm_compute. congruence.
  - exact Hslot0.
Qed.

Lemma qfq_update_class_view q gi cid len q1 ch :
  qfq_update_class q gi cid len = Some (q1, ch) ->
  bitmaps q1 = bitmaps q
  /\ (forall i, i <> gi -> get_group q1 i = get_group q i)
  /\ exists g g1, get_group q gi = Some g /\ get_group q1 gi = Some g1
                  /\ index g1 = index g
                  /\ (ch = false -> full_slots g1 = full_slots g).
Proof.
  unfold qfq_update_class. intros H.
  destruct (get_group q gi) as [g|] eqn:Hg; [|discriminate H].
  cbn [mbind option_bind] in H.
  destruct (get_class q cid) as [cl|]; [|discriminate H].
  cbn [mbind option_bind] in H.
  assert (Hrem : forall g' (qc : qfq_sched),
             groups qc = groups q -> bitmaps qc = bitmaps q ->
             qfq_front_slot_remove g = Some g' ->
             bitmaps (set_group qc gi g') = bitmaps q
             /\ (forall i, i <> gi -> get_group (set_group qc gi g') i = get_group q i)
             /\ exists g0 g1, Some g = Some g0
                              /\ get_group (set_group qc gi g') gi = Some g1
                              /\ index g1 = index g0
                              /\ (true = false -> full_slots g1 = full_slots g0)).
  { intros g' qc Hgs Hbm Hr.
    assert (Hgc : get_group qc gi = Some g) by (unfold get_group; rewrite Hgs; exact Hg).
    split; [exact Hbm|]. split.
    - intros i Hi. rewrite (get_group_set_group_ne qc gi i g g' Hgc Hi).
      unfold get_group. rewrite Hgs. reflexivity.
    - exists g, g'. split; [reflexivity|].
      split; [eapply get_group_set_group_eq; exact Hgc|].
      split; [apply (qfq_front_slot_remove_view g g' Hr)|discriminate]. }
  destruct (len =? 0).
  { destruct (qfq_front_slot_remove g) as [g'|] eqn:Hr; [|discriminate H].
    cbn [mbind option_bind] in H. injection H as <- <-.
    apply Hrem; reflexivity. }
  cbn [inv_w set_cl_S] in H.
  destruct (inv_w cl =? ONE_FP + 1).
  { destruct (qfq_front_slot_remove g) as [g'|] eqn:Hr; [|discriminate H].
    cbn [mbind option_bind] in H. injection H as <- <-.
    apply Hrem; reflexivity. }
  match type of H with
  | context [?a =? grp_S g] => destruct (a =? grp_S g)
  end.
  { injection H as <- <-. split; [reflexivity|]. split; [reflexivity|].
    exists g, g. split; [reflexivity|]. split; [exact Hg|]. split; reflexivity. }
  destruct (qfq_front_slot_remove g) as [g'|] eqn:Hr; [|discriminate H].
  cbn [mbind option_bind] in H.
  match type of H with
  | mbind _ (qfq_slot_insert ?qa _ _ _) = _ =>
    destruct (qfq_slot_insert qa gi cid _) as [q2|] eqn:Hins; [|discriminate H]
  end.
  match type of Hins with
  | qfq_slot_insert (set_group ?qc _ _) _ _ _ = _ =>
    destruct (Hrem g' qc eq_refl eq_refl eq_refl)
      as (Hb1 & Ho1 & g0 & g1 & Hg0 & Hg1 & Hi1 & _)
  end.
  cbn [mbind option_bind] in H. injection H as <- <-.
  injection Hg0 as <-.
  destruct (qfq_slot_insert_view _ _ _ _ _ Hins)
    as (Hb2 & Ho2 & ga & gb & Hga & Hgb & Hi2 & _).
  split; [rewrite Hb2; exact Hb1|]. split.
  - intros i Hi. rewrite (Ho2 i Hi). apply Ho1. exact Hi.
  - exists g, gb. split; [reflexivity|]. split; [exact Hgb|].
    split; [|discriminate].
    rewrite Hi2. rewrite Hga in Hg1. injection Hg1 as ->. exact Hi1.
Qed.

(** ** A change at one group *)

Lemma get_group_nonneg q i grp : get_group q i = Some grp -> 0 <= i.
Proof.
  unfold get_group. destruct (Z.ltb_spec i 0); [discriminate|lia].
Qed.

Lemma group_view_Some q i grp :
  get_group q i = Some grp -> group_view q i = Some (index grp, full_slots grp).
Proof. unfold group_view. intros ->. reflexivity. Qed.

Lemma counted_inv_group q i grp :
  counted_inv q -> get_group q i = Some grp ->
  index grp = i /\ 0 <= i < 64
  /\ (state_count q i <= 1)%nat
  /\ (full_slots grp <> 0 <-> state_count q i = 1%nat).
Proof.
  intros (Hnn & Hcnt & Hg) Hi. pose proof (get_group_nonneg q i grp Hi) as H0.
  destruct (Hg i _ _ (group_view_Some q i grp Hi)) as (H1 & H2 & H3).
  split; [exact H1|]. split; [lia|]. split; [apply Hcnt; exact H0|exact H3].
Qed.

(** The bitmaps and the groups of [q'] are those of [q] but for the group at
    [gi] and for bit [gi] of the bitmaps, up to groups that moved. *)
Lemma counted_inv_step q q' gi f' :
  counted_inv q ->
  bitmaps_nonneg q' ->
  is_Some (group_view q gi) ->
  group_view q' gi = Some (gi, f') ->
  (forall i, i <> gi -> group_view q' i = group_view q i) ->
  (forall j, 0 <= j -> j <> gi -> (state_count q j <= 1)%nat ->
     (state_count q' j <= 1)%nat /\ (j < 64 -> state_count q' j = state_count q j)) ->
  ((state_count q' gi <= 1)%nat /\ (f' <> 0 <-> state_count q' gi = 1%nat)) ->
  counted_inv q'.
Proof.
  intros (Hnn & Hcnt & Hg) Hnn' [[idx f] Hv] Hv' Hoth Hcols [Hc1 Hc2].
  destruct (Hg gi idx f Hv) as (-> & H64 & _).
  split; [exact Hnn'|]. split.
  - intros j Hj. destruct (Z.eq_dec j gi) as [->|Hne]; [exact Hc1|].
    apply Hcols; auto.
  - intros i idx' f0 Hi. destruct (Z.eq_dec i gi) as [->|Hne].
    + rewrite Hv' in Hi. injection Hi as <- <-. auto.
    + rewrite (Hoth i Hne) in Hi. destruct (Hg i idx' f0 Hi) as (H1 & H2 & H3).
      split; [exact H1|]. split; [exact H2|].
      assert (H0 : 0 <= i).
      { unfold group_view in Hi. destruct (get_group q i) eqn:E; [|discriminate Hi].
        eapply get_group_nonneg; exact E. }
      destruct (Hcols i H0 Hne (Hcnt i H0)) as [_ Heq]. rewrite Heq by exact H2.
      exact H3.
Qed.

Lemma bitmaps_set_group q i g : bitmaps (set_group q i g) = bitmaps q.
Proof. reflexivity. Qed.

Lemma group_view_insert q q' gi g :
  groups q' = <[Z.to_nat gi := g]> (groups q) ->
  is_Some (get_group q gi) ->
  group_view q' gi = Some (index g, full_slots g)
  /\ forall i, i <> gi -> group_view q' i = group_view q i.
Proof.
  intros Hgs [g0 Hg0]. pose proof (get_group_nonneg q gi g0 Hg0) as H0.
  unfold group_view, get_group in *. rewrite Hgs.
  destruct (Z.ltb_spec gi 0); [lia|]. split.
  - rewrite list_lookup_insert_eq; [reflexivity|].
    eapply lookup_lt_Some. exact Hg0.
  - intros i Hi. destruct (Z.ltb_spec i 0); [reflexivity|].
    rewrite list_lookup_insert_ne by lia. reflexivity.
Qed.

(** Rewriting the bits of a bitmap built by the scheduler's own updates. *)
Ltac bitmap_bits :=
  unfold qfq_move_groups;
  repeat first [ rewrite bitmaps_set_bitmap | rewrite bitmaps_set_group
               | rewrite decide_True by reflexivity
               | rewrite decide_False by discriminate
               | rewrite Z.lor_spec | rewrite Z.land_spec
               | rewrite not64_testbit by lia
               | rewrite clear_bit_testbit by lia
               | rewrite set_bit_testbit_any by lia ].

Ltac bitmap_nonneg :=
  unfold qfq_move_groups;
  repeat first [ rewrite bitmaps_set_bitmap | rewrite bitmaps_set_group
               | rewrite decide_True by reflexivity
               | rewrite decide_False by discriminate ];
  repeat first [ assumption
               | match goal with
                 | H : forall s : qfq_state, 0 <= bitmaps _ s |- 0 <= bitmaps _ _ =>
                   apply H
                 end
               | apply clear_bit_nonneg | apply set_bit_nonneg
               | apply land_nonneg_l | apply lor_nonneg_2 ].

(** Case analysis on the bits at position [j] that a goal mentions. *)
Ltac bitmap_cases j :=
  repeat match goal with
         | |- context [Z.testbit ?x j] => destruct (Z.testbit x j)
         end;
  try destruct (Z.ltb_spec j 64); simpl; try tauto; try lia.

Lemma counted_inv_same q q' :
  bitmaps q' = bitmaps q -> groups q' = groups q -> counted_inv q -> counted_inv q'.
Proof.
  intros Hb Hg H.
  unfold counted_inv, bitmaps_nonneg, state_count, group_view, get_group in *.
  rewrite Hb, Hg. exact H.
Qed.

Lemma state_count_same q q' j :
  bitmaps q' = bitmaps q -> state_count q' j = state_count q j.
Proof. intros H. unfold state_count. rewrite H. reflexivity. Qed.

Lemma group_view_same q q' i :
  groups q' = groups q -> group_view q' i = group_view q i.
Proof. intros H. unfold group_view, get_group. rewrite H. reflexivity. Qed.

Lemma qfq_calc_state_range q grp s :
  qfq_calc_state q grp = Some s ->
  exists st, qfq_state_of_int s = Some st.
Proof.
  unfold qfq_calc_state. intros H.
  destruct (negb (mask_from (bitmaps q ER) (index grp) =? 0)).
  - destruct (qfq_ffs q _) as [next|]; [|discriminate H].
    cbn [mbind option_bind] in H. injection H as <-.
    destruct (qfq_gt (grp_S grp) (V q)), (qfq_gt (grp_F grp) (grp_F next));
      eexists; vm_compute; reflexivity.
  - injection H as <-. destruct (qfq_gt (grp_S grp) (V q));
      eexists; vm_compute; reflexivity.
Qed.

Lemma qfq_deactivate_class_counted q cid q' :
  counted_inv q -> qfq_deactivate_class q cid = Some q' -> counted_inv q'.
Proof.
  intros Hinv H. unfold qfq_deactivate_class in H.
  destruct (get_class q cid) as [cl|]; [|discriminate H].
  cbn [mbind option_bind] in H.
  set (gi := cl_grp cl) in *.
  destruct (qfq_slot_remove _ gi cid) as [q1|] eqn:Hrem; [|discriminate H].
  cbn [mbind option_bind] in H.
  destruct (qfq_slot_remove_view _ _ _ _ Hrem)
    as (Hbm & Hoth & idx & f & f1 & Hv & Hv1 & Hff).
  cbn [bitmaps set_class set_clhash] in Hbm.
  destruct (get_group q1 gi) as [grp|] eqn:Hgrp; [|discriminate H].
  cbn [mbind option_bind] in H.
  rewrite (group_view_Some _ _ _ Hgrp) in Hv1.
  injection Hv1 as <- <-.
  assert (Hvq : group_view q gi = Some (index grp, f)) by exact Hv.
  destruct Hinv as (Hnn & Hcnt & Hg).
  destruct (Hg gi _ _ Hvq) as (Hidx & H64 & Hf).
  assert (H0 : 0 <= gi).
  { eapply get_group_nonneg; exact Hgrp. }
  assert (Hnn1 : forall s, 0 <= bitmaps q1 s) by (intros s; rewrite Hbm; apply Hnn).
  assert (Hinv : counted_inv q) by (split; [exact Hnn|split; [exact Hcnt|exact Hg]]).
  assert (Hothq : forall i, i <> gi -> group_view q1 i = group_view q i)
    by (intros i Hi; rewrite (Hoth i Hi); reflexivity).
  match type of H with
  | mbind _ ?m = _ => destruct m as [q2|] eqn:Hq2; [|discriminate H]
  end.
  cbn [mbind option_bind] in H. injection H as <-.
  eapply counted_inv_moved; [|apply qfq_update_eligible_moved].
  destruct (Z.eqb_spec (full_slots grp) 0) as [Hz|Hnz].
  - injection Hq2 as <-.
    match goal with
    | |- context [if ?c then _ else _] => destruct c
    end.
    + apply (counted_inv_step q _ gi 0 Hinv).
      * intros s. destruct s; bitmap_nonneg.
      * rewrite Hvq. eauto.
      * rewrite <- Hidx at 2. rewrite <- Hz. apply (group_view_Some _ _ _ Hgrp).
      * intros i Hi. rewrite <- (Hothq i Hi). reflexivity.
      * intros j Hj Hne. unfold state_count. bitmap_bits.
        rewrite Hidx, Hbm. rewrite (proj2 (Z.eqb_neq j gi) Hne).
        bitmap_cases j.
      * unfold state_count. bitmap_bits. rewrite Hidx, Z.eqb_refl.
        bitmap_cases gi.
    + apply (counted_inv_step q _ gi 0 Hinv).
      * intros s. destruct s; bitmap_nonneg.
      * rewrite Hvq. eauto.
      * rewrite <- Hidx at 2. rewrite <- Hz. apply (group_view_Some _ _ _ Hgrp).
      * intros i Hi. rewrite <- (Hothq i Hi). reflexivity.
      * intros j Hj Hne. unfold state_count. bitmap_bits.
        rewrite Hidx, Hbm. rewrite (proj2 (Z.eqb_neq j gi) Hne).
        bitmap_cases j.
      * unfold state_count. bitmap_bits. rewrite Hidx, Z.eqb_refl.
        bitmap_cases gi.
  - assert (Hfq : state_count q gi = 1%nat) by (apply Hf, Hff, Hnz).
    assert (Hsome : is_Some (group_view q gi)) by (rewrite Hvq; eauto).
    destruct (slots grp !! Z.to_nat (front grp)) as [l|]; [|discriminate Hq2].
    cbn [mbind option_bind] in Hq2. destruct l as [|c l].
    + destruct (qfq_slot_scan grp) as [[g2 ocl]|] eqn:Hscan; [|discriminate Hq2].
      cbn [mbind option_bind] in Hq2.
      destruct (qfq_slot_scan_view _ _ _ Hscan) as (Hi2 & _ & Hf2).
      destruct (Hf2 Hnz) as [_ Hnz2].
      destruct ocl as [c2|]; [|discriminate Hq2]. cbn [mbind option_bind] in Hq2.
      destruct (get_class q1 c2) as [cl2|]; [|discriminate Hq2].
      cbn [mbind option_bind] in Hq2.
      match type of Hq2 with
      | (if ?c then _ else _) = _ => destruct c
      end.
      * match type of Hq2 with
        | mbind _ ?m = _ => destruct m as [s|] eqn:Hcs; [|discriminate Hq2]
        end.
        cbn [mbind option_bind] in Hq2.
        destruct (qfq_state_of_int s) as [st|]; [|discriminate Hq2].
        cbn [mbind option_bind] in Hq2. injection Hq2 as <-. clear Hcs.
        match goal with
        | |- counted_inv ?qq =>
          destruct (group_view_insert q1 qq gi
                      (set_grp_SF g2 (qfq_round_down (cl_S cl2) (slot_shift g2))
                         (u64 (qfq_round_down (cl_S cl2) (slot_shift g2)
                               + u64 (Z.shiftl 2 (slot_shift g2))))))
            as [Hvn Hvo]
        end.
        { cbn [groups set_group set_groups set_bitmap set_bitmaps].
          apply list_insert_insert_eq. }
        { rewrite Hgrp. eauto. }
        cbn [index full_slots set_grp_SF] in Hvn. rewrite Hi2, Hidx in Hvn.
        apply (counted_inv_step q _ gi (full_slots g2) Hinv).
        -- intros s'. destruct st, s'; bitmap_nonneg.
        -- exact Hsome.
        -- exact Hvn.
        -- intros i Hi. rewrite (Hvo i Hi). apply Hothq. exact Hi.
        -- intros j Hj Hne. unfold state_count.
           destruct st; bitmap_bits; cbn [index set_grp_SF];
             rewrite Hi2, Hidx, Hbm, (proj2 (Z.eqb_neq j gi) Hne);
             bitmap_cases j.
        -- unfold state_count.
           destruct st; bitmap_bits; cbn [index set_grp_SF];
             rewrite Hi2, Hidx, Hbm, Z.eqb_refl;
             bitmap_cases gi.
      * injection Hq2 as <-.
        destruct (group_view_insert q1 (set_group q1 gi g2) gi g2 eq_refl)
          as [Hvn Hvo]; [rewrite Hgrp; eauto|].
        rewrite Hi2, Hidx in Hvn.
        apply (counted_inv_step q _ gi (full_slots g2) Hinv).
        -- intros s'. bitmap_nonneg.
        -- exact Hsome.
        -- exact Hvn.
        -- intros i Hi. rewrite (Hvo i Hi). apply Hothq. exact Hi.
        -- intros j Hj Hne Hc. rewrite (state_count_same q (set_group q1 gi g2)) by exact Hbm.
           auto.
        -- rewrite (state_count_same q (set_group q1 gi g2)) by exact Hbm.
           rewrite Hfq. split; [lia|tauto].
    + injection Hq2 as <-. apply (counted_inv_step q _ gi (full_slots grp) Hinv).
      * exact Hnn1.
      * exact Hsome.
      * rewrite <- Hidx at 2. apply (group_view_Some _ _ _ Hgrp).
      * exact Hothq.
      * intros j Hj Hne Hc. rewrite (state_count_same q q1) by exact Hbm. auto.
      * rewrite (state_count_same q q1) by exact Hbm.
        rewrite Hfq. split; [lia|tauto].
Qed.

(** Taking a class out of the scheduler keeps the invariant of the bitmaps,
    whether its group empties, gets a new start time or stays as it is. *)
Theorem qfq_deactivate_class_invariant (q : qfq_sched) (cid : Z) (q' : qfq_sched) :
  scheduler_inv q -> qfq_deactivate_class q cid = Some q' -> scheduler_inv q'.
Proof. rewrite <- !counted_inv_iff. apply qfq_deactivate_class_counted. Qed.

Lemma qfq_deactivate_class_invariant_witness :
  exists q q', qfq_run (qfq_init_qdisc 1) blocked_group_trace = Some q
               /\ qfq_deactivate_class q 2 = Some q'
               /\ scheduler_inv q /\ scheduler_inv q'.
Proof.
  eexists. eexists. split; [vm_compute; reflexivity|].
  split; [vm_compute; reflexivity|].
  assert (Hq : scheduler_inv
                 (default (qfq_init_qdisc 1)
                    (qfq_run (qfq_init_qdisc 1) blocked_group_trace))).
  { apply scheduler_check_sound. vm_compute. reflexivity. }
  split; [exact Hq|].
  exact (qfq_deactivate_class_invariant _ 2 _ Hq ltac:(vm_compute; reflexivity)).
Defined.

Lemma wsum_active_idle_same q cl n :
  bitmaps (wsum_active_idle q cl n) = bitmaps q
  /\ groups (wsum_active_idle q cl n) = groups q.
Proof.
  unfold wsum_active_idle.
  destruct (negb (inv_w cl =? 0) && bool_decide (n = 0%nat)); split; reflexivity.
Qed.

Lemma qfq_dequeue_counted q now q' r :
  counted_inv q -> qfq_dequeue q now = Some (q', r) -> counted_inv q'.
Proof.
  intros Hinv0 H. unfold qfq_dequeue in H.
  pose proof (counted_inv_moved _ _ Hinv0 (qfq_update_system_time_moved q now))
    as Hinv.
  cbv zeta in H.
  set (qu := qfq_update_system_time q now) in *. clearbody qu. clear Hinv0 q.
  rename qu into q.
  destruct (Z.eqb_spec (bitmaps q ER) 0) as [Hz|Hnz].
  { injection H as <- <-. exact Hinv. }
  set (gi := __ffs (bitmaps q ER)) in *.
  destruct (get_group q gi) as [grp|] eqn:Hgrp; [|discriminate H].
  cbn [mbind option_bind] in H.
  destruct (counted_inv_group q gi grp Hinv Hgrp) as (Hidx & Hgi & Hc1 & Hf).
  assert (Hnn : forall s, 0 <= bitmaps q s) by apply Hinv.
  assert (HER : Z.testbit (bitmaps q ER) gi = true).
  { apply ffs_spec. pose proof (Hnn ER). lia. }
  assert (Hrest : Z.testbit (bitmaps q IR) gi = false
                  /\ Z.testbit (bitmaps q EB) gi = false
                  /\ Z.testbit (bitmaps q IB) gi = false).
  { revert Hc1. unfold state_count. rewrite HER. bitmap_cases gi. }
  destruct Hrest as (HIR & HEB & HIB).
  assert (Hcq : state_count q gi = 1%nat).
  { unfold state_count. rewrite HER, HIR, HEB, HIB. reflexivity. }
  assert (Hsome : is_Some (group_view q gi)).
  { rewrite (group_view_Some _ _ _ Hgrp). eauto. }
  destruct (qfq_slot_head grp) as [cid|]; [|discriminate H].
  cbn [mbind option_bind] in H.
  destruct (get_class q cid) as [cl|]; [|discriminate H].
  cbn [mbind option_bind] in H.
  destruct (qdisc cl) as [|len rest].
  { injection H as <- <-. exact Hinv. }
  match type of H with
  | mbind _ (qfq_update_class ?qa _ _ ?nl) = _ =>
    set (q_a := qa) in *;
      destruct (qfq_update_class q_a gi cid nl) as [[q1 ch]|] eqn:Hupd;
      [|discriminate H]
  end.
  cbn [mbind option_bind] in H.
  assert (Hqa : bitmaps q_a = bitmaps q /\ groups q_a = groups q).
  { unfold q_a. destruct (bool_decide (length rest = 0%nat)); split; reflexivity. }
  destruct Hqa as [Hba Hga].
  destruct (qfq_update_class_view _ _ _ _ _ _ Hupd)
    as (Hb1 & Ho1 & g & g1 & Hg & Hg1 & Hi1 & Hf1).
  assert (g = grp).
  { unfold get_group in Hg, Hgrp. rewrite Hga, Hgrp in Hg. congruence. }
  subst g. rewrite Hba in Hb1.
  assert (Hoth1 : forall i, i <> gi -> group_view q1 i = group_view q i).
  { intros i Hi. unfold group_view. rewrite (Ho1 i Hi).
    unfold get_group. rewrite Hga. reflexivity. }
  clearbody q_a. clear Hupd Ho1 Hg Hba Hga q_a.
  destruct (get_class q1 cid) as [cl'|]; [|discriminate H].
  cbn [mbind option_bind] in H.
  destruct (wsum_active_idle_same q1 cl' (length rest)) as [Hbw Hgw].
  set (q1' := wsum_active_idle q1 cl' (length rest)) in *.
  assert (Hg1' : get_group q1' gi = Some g1).
  { unfold get_group. rewrite Hgw. exact Hg1. }
  assert (Hoth1' : forall i, i <> gi -> group_view q1' i = group_view q i).
  { intros i Hi. rewrite <- (Hoth1 i Hi). apply group_view_same. exact Hgw. }
  rewrite Hb1 in Hbw.
  assert (Hnn1 : forall s, 0 <= bitmaps q1' s) by (intros s; rewrite Hbw; apply Hnn).
  clearbody q1'.
  destruct ch.
  - rewrite Hg1 in H. cbn [mbind option_bind] in H.
    destruct (qfq_slot_scan g1) as [[g2 ocl]|] eqn:Hscan; [|discriminate H].
    cbn [mbind option_bind] in H.
    destruct (qfq_slot_scan_view _ _ _ Hscan) as (Hi2 & Hf0 & Hf2).
    destruct ocl as [c2|].
    + assert (Hnz2 : full_slots g2 <> 0).
      { apply Hf2. intros Hz. destruct (Hf0 Hz) as [Hx _]. discriminate Hx. }
      cbn [mbind option_bind] in H.
      match type of H with
      | mbind _ ?m = _ => destruct m as [cl2|]; [|discriminate H]
      end.
      cbn [mbind option_bind] in H.
      match type of H with
      | (if ?c then _ else _) = _ => destruct c
      end.
      * injection H as <- <-.
        eapply counted_inv_moved; [|apply qfq_update_eligible_moved].
        destruct (group_view_insert q1' (set_group q1' gi g2) gi g2 eq_refl)
          as [Hvn Hvo]; [rewrite Hg1'; eauto|].
        rewrite Hi2, Hi1, Hidx in Hvn.
        apply (counted_inv_step q _ gi (full_slots g2) Hinv).
        -- intros s'. bitmap_nonneg.
        -- exact Hsome.
        -- exact Hvn.
        -- intros i Hi. rewrite (Hvo i Hi). apply Hoth1'. exact Hi.
        -- intros j Hj Hne Hc.
           rewrite (state_count_same q (set_group q1' gi g2)) by exact Hbw. auto.
        -- rewrite (state_count_same q (set_group q1' gi g2)) by exact Hbw.
           rewrite Hcq. split; [lia|tauto].
      * match type of H with
        | mbind _ ?m = _ => destruct m as [s|]; [|discriminate H]
        end.
        cbn [mbind option_bind] in H.
        destruct (qfq_state_of_int s) as [st|]; [|discriminate H].
        cbn [mbind option_bind] in H.
        match type of H with
        | mbind _ (qfq_unblock_groups ?qq ?i ?f) = _ =>
          destruct (qfq_unblock_groups qq i f) as [q5|] eqn:Hunb; [|discriminate H];
            apply qfq_unblock_groups_moved in Hunb;
            assert (Hqq : counted_inv qq)
        end.
        { match goal with
          | |- counted_inv ?qq =>
            destruct (group_view_insert q1' qq gi
                        (set_grp_SF g2 (qfq_round_down (cl_S cl2) (slot_shift g2))
                           (u64 (qfq_round_down (cl_S cl2) (slot_shift g2)
                                 + u64 (Z.shiftl 2 (slot_shift g2))))))
              as [Hvn Hvo]
          end.
          { cbn [groups set_group set_groups set_bitmap set_bitmaps].
            apply list_insert_insert_eq. }
          { rewrite Hg1'. eauto. }
          cbn [index full_slots set_grp_SF] in Hvn. rewrite Hi2, Hi1, Hidx in Hvn.
          apply (counted_inv_step q _ gi (full_slots g2) Hinv).
          - intros s'. destruct st, s'; bitmap_nonneg.
          - exact Hsome.
          - exact Hvn.
          - intros i Hi. rewrite (Hvo i Hi). apply Hoth1'. exact Hi.
          - intros j Hj Hne. unfold state_count.
            destruct st; bitmap_bits; cbn [index set_grp_SF];
              rewrite Hi2, Hi1, Hidx, Hbw, (proj2 (Z.eqb_neq j gi) Hne);
              bitmap_cases j.
          - unfold state_count.
            destruct st; bitmap_bits; cbn [index set_grp_SF];
              rewrite Hi2, Hi1, Hidx, Hbw, Z.eqb_refl, HIR, HEB, HIB;
              bitmap_cases gi. }
        cbn [mbind option_bind] in H. injection H as <- <-.
        eapply counted_inv_moved; [|apply qfq_update_eligible_moved].
        eapply counted_inv_moved; [exact Hqq|exact Hunb].
    + assert (Hz2 : full_slots g2 = 0).
      { destruct (Z.eq_dec (full_slots g1) 0) as [Hz|Hn]; [apply Hf0; exact Hz|].
        destruct (Hf2 Hn) as [Hx _]. contradiction. }
      match type of H with
      | mbind _ (qfq_unblock_groups ?qq ?i ?f) = _ =>
        destruct (qfq_unblock_groups qq i f) as [q5|] eqn:Hunb; [|discriminate H];
          apply qfq_unblock_groups_moved in Hunb;
          assert (Hqq : counted_inv qq)
      end.
      { match goal with
        | |- counted_inv ?qq =>
          destruct (group_view_insert q1' qq gi g2 eq_refl) as [Hvn Hvo]
        end.
        { rewrite Hg1'. eauto. }
        rewrite Hi2, Hi1, Hidx, Hz2 in Hvn.
        apply (counted_inv_step q _ gi 0 Hinv).
        - intros s'. destruct s'; bitmap_nonneg.
        - exact Hsome.
        - exact Hvn.
        - intros i Hi. rewrite (Hvo i Hi). apply Hoth1'. exact Hi.
        - intros j Hj Hne. unfold state_count. bitmap_bits.
          rewrite Hi2, Hi1, Hidx, Hbw, (proj2 (Z.eqb_neq j gi) Hne).
          bitmap_cases j.
        - unfold state_count. bitmap_bits.
          rewrite Hi2, Hi1, Hidx, Hbw, Z.eqb_refl, HIR, HEB, HIB.
          bitmap_cases gi. }
      cbn [mbind option_bind] in H. injection H as <- <-.
      eapply counted_inv_moved; [|apply qfq_update_eligible_moved].
      eapply counted_inv_moved; [exact Hqq|exact Hunb].
  - injection H as <- <-.
    eapply counted_inv_moved; [|apply qfq_update_eligible_moved].
    apply (counted_inv_step q _ gi (full_slots g1) Hinv).
    + exact Hnn1.
    + exact Hsome.
    + rewrite (group_view_Some _ _ _ Hg1'). rewrite Hi1, Hidx. reflexivity.
    + exact Hoth1'.
    + intros j Hj Hne Hc. rewrite (state_count_same q q1') by exact Hbw. auto.
    + rewrite (state_count_same q q1') by exact Hbw.
      rewrite (Hf1 eq_refl). split; [exact Hc1|exact Hf].
Qed.

(** Whenever a dequeue returns, with or without a packet, it keeps the
    invariant of the bitmaps. *)
Theorem qfq_dequeue_invariant (q : qfq_sched) (now : Z) (q' : qfq_sched)
    (r : option Z) :
  scheduler_inv q -> qfq_dequeue q now = Some (q', r) -> scheduler_inv q'.
Proof. rewrite <- !counted_inv_iff. apply qfq_dequeue_counted. Qed.

Lemma qfq_dequeue_invariant_witness :
  exists q q' r, qfq_run (qfq_init_qdisc 1) (take 5 blocked_group_trace) = Some q
                 /\ qfq_dequeue q 7449000 = Some (q', r)
                 /\ scheduler_inv q /\ scheduler_inv q'.
Proof.
  eexists. eexists. eexists. split; [vm_compute; reflexivity|].
  split; [vm_compute; reflexivity|].
  assert (Hq : scheduler_inv
                 (default (qfq_init_qdisc 1)
                    (qfq_run (qfq_init_qdisc 1) (take 5 blocked_group_trace)))).
  { apply scheduler_check_sound. vm_compute. reflexivity. }
  split; [exact Hq|].
  exact (qfq_dequeue_invariant _ 7449000 _ _ Hq ltac:(vm_compute; reflexivity)).
Defined.

Lemma qfq_update_start_same q cid q0 :
  qfq_update_start q cid = Some q0 ->
  bitmaps q0 = bitmaps q /\ groups q0 = groups q.
Proof.
  unfold qfq_update_start. intros H.
  destruct (get_class q cid) as [cl|]; [|discriminate H].
  cbn [mbind option_bind] in H.
  destruct (get_group q (cl_grp cl)) as [grp|]; [|discriminate H].
  cbn [mbind option_bind] in H.
  repeat match type of H with
         | (if ?c then _ else _) = _ => destruct c
         | mbind _ ?m = _ =>
           destruct m; [|discriminate H]; cbn [mbind option_bind] in H
         end;
    injection H as <-; split; reflexivity.
Qed.

Lemma group_view_get_group q q' i :
  get_group q' i = get_group q i -> group_view q' i = group_view q i.
Proof. unfold group_view. intros ->. reflexivity. Qed.

Lemma qfq_slot_rotate_view grp roundedS grp' :
  qfq_slot_rotate grp roundedS = Some grp' ->
  index grp' = index grp /\ slot_shift grp' = slot_shift grp.
Proof.
  unfold qfq_slot_rotate. destruct (64 <=? _); [discriminate|].
  intros H. injection H as <-. split; reflexivity.
Qed.

Lemma qfq_activate_class_counted q cid pkt_len q' :
  counted_inv q ->
  (forall cl, get_class q cid = Some cl ->
     test_bit (cl_grp cl) (bitmaps q ER) = false
     /\ test_bit (cl_grp cl) (bitmaps q EB) = false) ->
  qfq_activate_class q cid pkt_len = Some q' ->
  counted_inv q'.
Proof.
  intros Hinv Hinel H. unfold qfq_activate_class in H.
  destruct (get_class q cid) as [cl|]; [|discriminate H].
  destruct (Hinel cl eq_refl) as [HER HEB]. unfold test_bit in HER, HEB. clear Hinel.
  cbn [mbind option_bind] in H.
  set (gi := cl_grp cl) in *.
  destruct (qfq_update_start q cid) as [q0|] eqn:Hus; [|discriminate H].
  cbn [mbind option_bind] in H.
  destruct (qfq_update_start_same _ _ _ Hus) as [Hb0 Hg0]. clear Hus.
  destruct (get_class q0 cid) as [cl0|]; [|discriminate H].
  cbn [mbind option_bind] in H.
  destruct (get_group q0 gi) as [grp|] eqn:Hgrp0; [|discriminate H].
  cbn [mbind option_bind] in H.
  assert (Hgrp : get_group q gi = Some grp).
  { unfold get_group in *. rewrite <- Hg0. exact Hgrp0. }
  destruct (counted_inv_group q gi grp Hinv Hgrp) as (Hidx & Hgi & Hc1 & Hf).
  assert (Hnn : forall s, 0 <= bitmaps q s) by apply Hinv.
  assert (Hsome : is_Some (group_view q gi)).
  { rewrite (group_view_Some _ _ _ Hgrp). eauto. }
  cbv zeta in H.
  match type of H with
  | context [set_class q0 cid ?c] => set (q_c := set_class q0 cid c) in *
  end.
  assert (Hbc : bitmaps q_c = bitmaps q) by exact Hb0.
  assert (Hgc : groups q_c = groups q) by exact Hg0.
  assert (Hgrpc : get_group q_c gi = Some grp).
  { unfold get_group. rewrite Hgc. exact Hgrp. }
  clearbody q_c. clear Hb0 Hg0 Hgrp0 q0.
  destruct (Z.eqb_spec (full_slots grp) 0) as [Hz|Hnz]; cbn [negb andb] in H.
  - (* the group was empty *)
    cbn [mbind option_bind] in H.
    assert (Hall : Z.testbit (bitmaps q IR) gi = false
                   /\ Z.testbit (bitmaps q IB) gi = false).
    { assert (Hc0 : state_count q gi <> 1%nat) by (intros Hx; apply Hf in Hx; auto).
      revert Hc1 Hc0. unfold state_count. rewrite HER, HEB. bitmap_cases gi. }
    destruct Hall as [HIR HIB].
    match type of H with
    | mbind _ ?m = _ => destruct m as [s|]; [|discriminate H]
    end.
    cbn [mbind option_bind] in H.
    destruct (qfq_state_of_int s) as [st|]; [|discriminate H].
    cbn [mbind option_bind] in H.
    destruct (qfq_slot_insert_view _ _ _ _ _ H)
      as (Hb4 & Ho4 & g4 & g5 & Hg4 & Hg5 & Hi5 & Hf5).
    match type of Hg4 with
    | get_group ?qq gi = _ =>
      destruct (group_view_insert q_c qq gi _ eq_refl) as [Hvn Hvo];
        [rewrite Hgrpc; eauto|]
    end.
    rewrite (group_view_Some _ _ _ Hg4) in Hvn. injection Hvn as Hi4 _.
    cbn [index set_grp_SF] in Hi4.
    apply (counted_inv_step q _ gi (full_slots g5) Hinv).
    + intros s'. rewrite Hb4. destruct st, s'; bitmap_nonneg;
        rewrite Hbc; apply Hnn.
    + exact Hsome.
    + rewrite (group_view_Some _ _ _ Hg5). rewrite Hi5, Hi4, Hidx. reflexivity.
    + intros i Hi. rewrite (group_view_get_group _ _ i (Ho4 i Hi)).
      rewrite (Hvo i Hi). apply group_view_same. exact Hgc.
    + intros j Hj Hne. unfold state_count. rewrite Hb4.
      destruct st; bitmap_bits; cbn [index set_grp_SF];
        rewrite Hidx, Hbc, (proj2 (Z.eqb_neq j gi) Hne);
        bitmap_cases j.
    + unfold state_count. rewrite Hb4.
      destruct st; bitmap_bits; cbn [index set_grp_SF];
        rewrite Hidx, Hbc, Z.eqb_refl, HER, HEB, HIR, HIB;
        bitmap_cases gi.
  - (* the group holds classes *)
    assert (Hcq : state_count q gi = 1%nat) by (apply Hf; exact Hnz).
    match type of H with
    | (if ?c then _ else _) = _ => destruct c
    end.
    + destruct (qfq_slot_insert_view _ _ _ _ _ H)
        as (Hb4 & Ho4 & g4 & g5 & Hg4 & Hg5 & Hi5 & Hf5).
      rewrite Hgrpc in Hg4. injection Hg4 as <-.
      apply (counted_inv_step q _ gi (full_slots g5) Hinv).
      * intros s'. rewrite Hb4, Hbc. apply Hnn.
      * exact Hsome.
      * rewrite (group_view_Some _ _ _ Hg5). rewrite Hi5, Hidx. reflexivity.
      * intros i Hi. rewrite (group_view_get_group _ _ i (Ho4 i Hi)).
        apply group_view_same. exact Hgc.
      * intros j Hj Hne Hc. rewrite (state_count_same q q') by (rewrite Hb4; exact Hbc).
        auto.
      * rewrite (state_count_same q q') by (rewrite Hb4; exact Hbc).
        rewrite Hcq. split; [lia|tauto].
    + destruct (qfq_slot_rotate grp _) as [gr|] eqn:Hrot; [|discriminate H].
      cbn [mbind option_bind] in H.
      destruct (qfq_slot_rotate_view _ _ _ Hrot) as [Hir _].
      match type of H with
      | mbind _ ?m = _ => destruct m as [s|]; [|discriminate H]
      end.
      cbn [mbind option_bind] in H.
      destruct (qfq_state_of_int s) as [st|]; [|discriminate H].
      cbn [mbind option_bind] in H.
      destruct (qfq_slot_insert_view _ _ _ _ _ H)
        as (Hb4 & Ho4 & g4 & g5 & Hg4 & Hg5 & Hi5 & Hf5).
      match type of Hg4 with
      | get_group ?qq gi = _ =>
        destruct (group_view_insert q_c qq gi _ eq_refl) as [Hvn Hvo];
          [rewrite Hgrpc; eauto|]
      end.
      rewrite (group_view_Some _ _ _ Hg4) in Hvn. injection Hvn as Hi4 _.
      cbn [index set_grp_SF] in Hi4.
      apply (counted_inv_step q _ gi (full_slots g5) Hinv).
      * intros s'. rewrite Hb4. destruct st, s'; bitmap_nonneg;
          rewrite Hbc; apply Hnn.
      * exact Hsome.
      * rewrite (group_view_Some _ _ _ Hg5). rewrite Hi5, Hi4, Hir, Hidx. reflexivity.
      * intros i Hi. rewrite (group_view_get_group _ _ i (Ho4 i Hi)).
        rewrite (Hvo i Hi). apply group_view_same. exact Hgc.
      * intros j Hj Hne. unfold state_count. rewrite Hb4.
        destruct st; bitmap_bits; cbn [index set_grp_SF];
          rewrite Hir, Hidx, Hbc, (proj2 (Z.eqb_neq j gi) Hne);
          bitmap_cases j.
      * unfold state_count. rewrite Hb4.
        destruct st; bitmap_bits; cbn [index set_grp_SF];
          rewrite Hir, Hidx, Hbc, Z.eqb_refl, HER, HEB;
          bitmap_cases gi.
Qed.

(** Putting a class into the scheduler keeps the invariant of the bitmaps
    when the group of the class is in neither of the two eligible bitmaps, as
    the source assumes where it rotates the slots of a group. *)
Theorem qfq_activate_class_invariant (q : qfq_sched) (cid pkt_len : Z)
    (q' : qfq_sched) :
  scheduler_inv q ->
  (forall cl, get_class q cid = Some cl ->
     test_bit (cl_grp cl) (bitmaps q ER) = false
     /\ test_bit (cl_grp cl) (bitmaps q EB) = false) ->
  qfq_activate_class q cid pkt_len = Some q' ->
  scheduler_inv q'.
Proof. rewrite <- !counted_inv_iff. apply qfq_activate_class_counted. Qed.

Lemma qfq_activate_class_invariant_witness :
  exists q q', qfq_run (qfq_init_qdisc 1) (take 7 blocked_group_trace) = Some q
               /\ qfq_activate_class q 1 500 = Some q'
               /\ scheduler_inv q /\ scheduler_inv q'.
Proof.
  eexists. eexists. split; [vm_compute; reflexivity|].
  split; [vm_compute; reflexivity|].
  assert (Hq : scheduler_inv
                 (default (qfq_init_qdisc 1)
                    (qfq_run (qfq_init_qdisc 1) (take 7 blocked_group_trace)))).
  { apply scheduler_check_sound. vm_compute. reflexivity. }
  split; [exact Hq|].
  refine (qfq_activate_class_invariant _ 1 500 _ Hq _ ltac:(vm_compute; reflexivity)).
  intros cl Hcl. vm_compute in Hcl. injection Hcl as <-.
  split; vm_compute; reflexivity.
Defined.

(** ** Drop, queue-length notification and reset *)

Lemma qfq_drop_walk_counted cids :
  forall q q' len,
    counted_inv q -> qfq_drop_walk q cids = Some (q', len) -> counted_inv q'.
Proof.
  induction cids as [|cid cids IH]; intros q q' len Hinv H.
  - injection H as <- _. exact Hinv.
  - cbn [qfq_drop_walk] in H.
    destruct (get_class q cid) as [cl|]; [|discriminate H].
    cbn [mbind option_bind] in H.
    destruct (qdisc_drop (qdisc cl)) as [l n].
    destruct (0 <? n).
    + destruct l.
      * match type of H with
        | mbind _ (qfq_deactivate_class ?qq _) = _ =>
          destruct (qfq_deactivate_class qq cid) as [q1|] eqn:Hd; [|discriminate H];
            apply (qfq_deactivate_class_counted qq) in Hd;
            [|apply (counted_inv_same q); [reflexivity|reflexivity|exact Hinv]]
        end.
        cbn [mbind option_bind] in H. injection H as <- _. exact Hd.
      * injection H as <- _.
        apply (counted_inv_same q); [reflexivity|reflexivity|exact Hinv].
    + eapply IH; [|exact H].
      apply (counted_inv_same q); [reflexivity|reflexivity|exact Hinv].
Qed.

(** Dropping a packet, and the notification that a sub-queue has changed its
    length, keep the invariant of the bitmaps. *)
Theorem qfq_drop_invariant (q : qfq_sched) :
  scheduler_inv q ->
  (forall q' len, qfq_drop q = Some (q', len) -> scheduler_inv q')
  /\ (forall cid q', qfq_qlen_notify q cid = Some q' -> scheduler_inv q').
Proof.
  rewrite <- counted_inv_iff. intros Hinv. split.
  - intros q' len H. rewrite <- counted_inv_iff.
    eapply qfq_drop_walk_counted; [exact Hinv|exact H].
  - intros cid q' H. rewrite <- counted_inv_iff. unfold qfq_qlen_notify in H.
    destruct (get_class q cid) as [cl|]; [|discriminate H].
    cbn [mbind option_bind] in H. destruct (qdisc cl).
    + eapply qfq_deactivate_class_counted; [exact Hinv|exact H].
    + injection H as <-. exact Hinv.
Qed.

Lemma qfq_drop_invariant_witness :
  exists q q', qfq_run (qfq_init_qdisc 1) (take 3 drop_trace) = Some q
               /\ qfq_drop q = Some (q', 100)
               /\ scheduler_inv q /\ scheduler_inv q'.
Proof.
  eexists. eexists. split; [vm_compute; reflexivity|].
  split; [vm_compute; reflexivity|].
  assert (Hq : scheduler_inv
                 (default (qfq_init_qdisc 1)
                    (qfq_run (qfq_init_qdisc 1) (take 3 drop_trace)))).
  { apply scheduler_check_sound. vm_compute. reflexivity. }
  split; [exact Hq|].
  exact (proj1 (qfq_drop_invariant _ Hq) _ 100 ltac:(vm_compute; reflexivity)).
Defined.

Lemma same_accounts_refl q : same_accounts q q.
Proof. repeat split. Qed.

Lemma same_accounts_trans q1 q2 q3 :
  same_accounts q1 q2 -> same_accounts q2 q3 -> same_accounts q1 q3.
Proof. unfold same_accounts. intuition congruence. Qed.

Lemma same_but_bitmaps_accounts q q' :
  same_but_bitmaps q q' -> same_accounts q q' /\ clhash q' = clhash q.
Proof. unfold same_but_bitmaps, same_accounts. intuition congruence. Qed.

Lemma qfq_slot_remove_frame q gi cid q1 :
  qfq_slot_remove q gi cid = Some q1 ->
  same_accounts q q1 /\ clhash q1 = clhash q.
Proof.
  unfold qfq_slot_remove, hlist_del. intros H.
  destruct (get_group q gi) as [grp|]; [|discriminate H].
  cbn [mbind option_bind] in H.
  destruct (get_class q cid) as [cl|]; [|discriminate H].
  cbn [mbind option_bind] in H.
  destruct (hlist_linked cid q); [|discriminate H].
  cbn [mbind option_bind] in H.
  match type of H with
  | mbind _ ?m = _ => destruct m as [grp0|]; [|discriminate H]
  end.
  cbn [mbind option_bind] in H.
  match type of H with
  | mbind _ ?m = _ => destruct m as [l|]; [|discriminate H]
  end.
  cbn [mbind option_bind] in H.
  destruct l.
  - match type of H with
    | (if ?c then _ else _) = _ => destruct c
    end; [discriminate H|].
    injection H as <-. repeat split.
  - injection H as <-. repeat split.
Qed.

Lemma qfq_deactivate_class_frame q cid q' :
  qfq_deactivate_class q cid = Some q' ->
  same_accounts q q'
  /\ exists cl, get_class q cid = Some cl
                /\ clhash q' = <[cid := set_cl_F cl (cl_S cl)]> (clhash q).
Proof.
  unfold qfq_deactivate_class. intros H.
  destruct (get_class q cid) as [cl|]; [|discriminate H].
  cbn [mbind option_bind] in H.
  destruct (qfq_slot_remove _ _ _) as [q1|] eqn:Hrem; [|discriminate H].
  cbn [mbind option_bind] in H.
  apply qfq_slot_remove_frame in Hrem as [Hacc Hcl].
  destruct (get_group q1 (cl_grp cl)) as [grp|]; [|discriminate H].
  cbn [mbind option_bind] in H.
  match type of H with
  | mbind _ ?m = _ =>
    assert (Hm : forall x, m = Some x -> same_accounts q1 x /\ clhash x = clhash q1)
  end.
  { intros x Hx. destruct (full_slots grp =? 0).
    - injection Hx as <-.
      match goal with |- context [if ?c then _ else _] => destruct c end;
        repeat split.
    - destruct (slots grp !! Z.to_nat (front grp)) as [l|]; [|discriminate Hx].
      cbn [mbind option_bind] in Hx. destruct l; [|injection Hx as <-; repeat split].
      destruct (qfq_slot_scan grp) as [[grp' ocl]|]; [|discriminate Hx].
      cbn [mbind option_bind] in Hx.
      destruct ocl as [c2|]; [|discriminate Hx]. cbn [mbind option_bind] in Hx.
      destruct (get_class q1 c2) as [cl2|]; [|discriminate Hx].
      cbn [mbind option_bind] in Hx.
      match type of Hx with
      | (if ?c then _ else _) = _ => destruct c
      end; [|injection Hx as <-; repeat split].
      match type of Hx with
      | mbind _ ?m = _ => destruct m as [s|]; [|discriminate Hx]
      end.
      cbn [mbind option_bind] in Hx.
      destruct (qfq_state_of_int s) as [st|]; [|discriminate Hx].
      cbn [mbind option_bind] in Hx. injection Hx as <-. repeat split. }
  match type of H with
  | mbind _ ?m = _ => destruct m as [q2|]; [|discriminate H]
  end.
  cbn [mbind option_bind] in H. injection H as <-.
  destruct (Hm q2 eq_refl) as [Hacc2 Hcl2].
  destruct (same_but_bitmaps_accounts _ _ (qfq_update_eligible_same q2 (V q2)))
    as [Hacc3 Hcl3].
  split.
  - eapply same_accounts_trans; [|exact Hacc3].
    eapply same_accounts_trans; [|exact Hacc2]. exact Hacc.
  - exists cl. split; [reflexivity|]. rewrite Hcl3, Hcl2, Hcl. reflexivity.
Qed.

Lemma qfq_reset_walk_spec cids :
  forall q q',
    qfq_reset_walk q cids = Some q' ->
    (counted_inv q -> counted_inv q') /\ same_accounts q q'.
Proof.
  induction cids as [|cid cids IH]; intros q q' H.
  - injection H as <-. split; [auto|apply same_accounts_refl].
  - cbn [qfq_reset_walk] in H.
    destruct (qfq_deactivate_class q cid) as [q1|] eqn:Hd; [|discriminate H].
    cbn [mbind option_bind] in H.
    destruct (IH _ _ H) as (Hi & Hacc).
    split.
    + intros Hinv. apply Hi. eapply qfq_deactivate_class_counted; eassumption.
    + eapply same_accounts_trans; [|exact Hacc].
      apply (qfq_deactivate_class_frame _ _ _ Hd).
Qed.

(** A reset keeps the invariant of the bitmaps, empties the sub-queue of every
    class, the packet count and the activation work, and leaves the weight
    sums as they were: [wsum_active] is not brought back to 0 with the
    queues. *)
Theorem qfq_reset_qdisc_spec (q q' : qfq_sched) :
  scheduler_inv q ->
  qfq_reset_qdisc q = Some q' ->
  scheduler_inv q'
  /\ (forall cid cl, get_class q' cid = Some cl -> qdisc cl = [])
  /\ sch_qlen q' = 0 /\ work_bitmap q' = 0
  /\ (forall w, w ∈ work_queue q' -> w = [])
  /\ wsum_active q' = wsum_active q /\ wsum q' = wsum q.
Proof.
  rewrite <- !counted_inv_iff. intros Hinv H. unfold qfq_reset_qdisc in H.
  destruct (qfq_reset_walk q _) as [q1|] eqn:Hw; [|discriminate H].
  cbn [mbind option_bind] in H. injection H as <-.
  destruct (qfq_reset_walk_spec _ _ _ Hw) as (Hi & Hacc).
  split; [|split; [|split; [|split; [|split; [|split]]]]].
  - apply (counted_inv_same q1); [reflexivity|reflexivity|auto].
  - intros cid cl Hcl. unfold get_class in Hcl.
    cbn [clhash set_work set_sch_qlen set_clhash] in Hcl.
    rewrite lookup_fmap in Hcl.
    destruct (clhash q1 !! cid) as [c|]; [|discriminate Hcl].
    injection Hcl as <-. reflexivity.
  - reflexivity.
  - reflexivity.
  - intros w Hin. cbn [work_queue set_work] in Hin.
    apply list_elem_of_fmap in Hin as (x & -> & _). reflexivity.
  - apply Hacc.
  - apply Hacc.
Qed.

Lemma qfq_reset_qdisc_spec_witness :
  exists q q', qfq_run (qfq_init_qdisc 1) blocked_group_trace = Some q
               /\ qfq_reset_qdisc q = Some q'
               /\ scheduler_inv q
               /\ scheduler_inv q'
               /\ (forall cid cl, get_class q' cid = Some cl -> qdisc cl = [])
               /\ sch_qlen q' = 0 /\ work_bitmap q' = 0
               /\ (forall w, w ∈ work_queue q' -> w = [])
               /\ wsum_active q' = wsum_active q /\ wsum q' = wsum q.
Proof.
  eexists. eexists. split; [vm_compute; reflexivity|].
  split; [vm_compute; reflexivity|].
  assert (Hq : scheduler_inv
                 (default (qfq_init_qdisc 1)
                    (qfq_run (qfq_init_qdisc 1) blocked_group_trace))).
  { apply scheduler_check_sound. vm_compute. reflexivity. }
  split; [exact Hq|].
  exact (qfq_reset_qdisc_spec _ _ Hq ltac:(vm_compute; reflexivity)).
Defined.

(** ** Which groups the two mask operations move *)

Lemma low_mask_testbit n j :
  0 <= n < 64 -> 0 <= j -> Z.testbit (u64 (Z.shiftl 1 n) - 1) j = (j <? n).
Proof.
  intros Hn Hj. rewrite u64_shiftl_1 by lia.
  replace (2 ^ n - 1) with (Z.ones n) by (rewrite Z.ones_equiv; lia).
  apply Z.testbit_ones_nonneg; lia.
Qed.

Lemma fls_bound x : 0 <= fls x <= 32.
Proof.
  unfold fls. destruct (Z.eqb_spec (u32 x) 0) as [|Hnz]; [lia|].
  assert (Hr : 0 < u32 x < 2 ^ 32).
  { unfold u32 in *. pose proof (Z.mod_pos_bound x (2 ^ 32)). lia. }
  pose proof (Z.log2_nonneg (u32 x)).
  assert (Z.log2 (u32 x) < 32) by (apply Z.log2_lt_pow2; lia). lia.
Qed.

Lemma fls_lt x j :
  0 <= x < 2 ^ 32 -> 0 <= j -> (j <? fls x) = negb (Z.shiftr x j =? 0).
Proof.
  intros Hx Hj. unfold fls. rewrite u32_small by exact Hx.
  rewrite Z.shiftr_div_pow2 by exact Hj.
  assert (Hp : 0 < 2 ^ j) by (apply Z.pow_pos_nonneg; lia).
  destruct (Z.eqb_spec x 0) as [->|Hnz].
  - rewrite Z.div_0_l by lia. cbn [Z.eqb negb].
    destruct (Z.ltb_spec j 0); [lia|reflexivity].
  - destruct (Z.ltb_spec j (Z.log2 x + 1)) as [Hlt|Hge];
      destruct (Z.eqb_spec (x / 2 ^ j) 0) as [Hz|Hn]; try reflexivity; exfalso.
    + assert (Hle : 2 ^ j <= x) by (apply Z.log2_le_pow2; lia).
      apply Z.div_small_iff in Hz; lia.
    + apply Hn. apply Z.div_small. split; [lia|].
      apply Z.log2_lt_pow2; lia.
Qed.

(** [qfq_unblock_groups] either leaves the bitmaps as they are or unblocks
    exactly the groups below [idx]: each of them that was in EB is in ER, each
    that was in IB is in IR, and no group at [idx] or above changes its
    bitmap. *)
Theorem qfq_unblock_groups_spec (q : qfq_sched) (idx old_F : Z) (q' : qfq_sched) :
  0 <= idx < 64 ->
  qfq_unblock_groups q idx old_F = Some q' ->
  same_but_bitmaps q q'
  /\ (q' = q
      \/ forall j, 0 <= j < 64 ->
           Z.testbit (bitmaps q' ER) j
           = Z.testbit (bitmaps q ER) j || (Z.testbit (bitmaps q EB) j && (j <? idx))
           /\ Z.testbit (bitmaps q' EB) j
              = Z.testbit (bitmaps q EB) j && negb (j <? idx)
           /\ Z.testbit (bitmaps q' IR) j
              = Z.testbit (bitmaps q IR) j || (Z.testbit (bitmaps q IB) j && (j <? idx))
           /\ Z.testbit (bitmaps q' IB) j
              = Z.testbit (bitmaps q IB) j && negb (j <? idx)).
Proof.
  intros Hidx H. unfold qfq_unblock_groups in H.
  match type of H with
  | mbind _ ?m = _ => destruct m as [[|]|]
  end; cbn [mbind option_bind] in H; try discriminate H; injection H as <-.
  - split; [apply same_but_bitmaps_refl|left; reflexivity].
  - split.
    + eapply same_but_bitmaps_trans; apply qfq_move_groups_same.
    + right. intros j Hj.
      repeat split; bitmap_bits; rewrite ?low_mask_testbit by lia;
        destruct (Z.ltb_spec j 64); try lia;
        destruct (Z.testbit (bitmaps q ER) j), (Z.testbit (bitmaps q EB) j),
                 (Z.testbit (bitmaps q IR) j), (Z.testbit (bitmaps q IB) j),
                 (j <? idx); reflexivity.
Qed.

Lemma qfq_unblock_groups_spec_witness :
  exists q',
    qfq_unblock_groups calc_state_input 1 0 = Some q'
    /\ same_but_bitmaps calc_state_input q'
    /\ (q' = calc_state_input
        \/ forall j, 0 <= j < 64 ->
             Z.testbit (bitmaps q' ER) j
             = Z.testbit (bitmaps calc_state_input ER) j
               || (Z.testbit (bitmaps calc_state_input EB) j && (j <? 1))
             /\ Z.testbit (bitmaps q' EB) j
                = Z.testbit (bitmaps calc_state_input EB) j && negb (j <? 1)
             /\ Z.testbit (bitmaps q' IR) j
                = Z.testbit (bitmaps calc_state_input IR) j
                  || (Z.testbit (bitmaps calc_state_input IB) j && (j <? 1))
             /\ Z.testbit (bitmaps q' IB) j
                = Z.testbit (bitmaps calc_state_input IB) j && negb (j <? 1)).
Proof.
  eexists. split; [vm_compute; reflexivity|].
  exact (qfq_unblock_groups_spec calc_state_input 1 0 _ ltac:(lia)
           ltac:(vm_compute; reflexivity)).
Defined.

(** A group of index [j] that waits in IR or IB becomes eligible exactly when
    V has left the slot of size 2^(QFQ_MIN_SLOT_SHIFT + j) in which the old V
    lay; the groups of ER and EB stay where they are.  Stated for a virtual
    time below 2^54, where the slot number fits the 32-bit argument of
    [fls]. *)
Theorem qfq_make_eligible_spec (q : qfq_sched) (old_V j : Z) :
  0 <= V q < 2 ^ 54 -> 0 <= old_V < 2 ^ 54 -> 0 <= j < 64 ->
  let q' := qfq_make_eligible q old_V in
  let crossed :=
    negb (Z.shiftr (V q) (QFQ_MIN_SLOT_SHIFT + j)
          =? Z.shiftr old_V (QFQ_MIN_SLOT_SHIFT + j)) in
  Z.testbit (bitmaps q' ER) j
  = Z.testbit (bitmaps q ER) j || (Z.testbit (bitmaps q IR) j && crossed)
  /\ Z.testbit (bitmaps q' IR) j = Z.testbit (bitmaps q IR) j && negb crossed
  /\ Z.testbit (bitmaps q' EB) j
     = Z.testbit (bitmaps q EB) j || (Z.testbit (bitmaps q IB) j && crossed)
  /\ Z.testbit (bitmaps q' IB) j = Z.testbit (bitmaps q IB) j && negb crossed.
Proof.
  intros HV Hold Hj q' crossed.
  set (vslot := Z.shiftr (V q) QFQ_MIN_SLOT_SHIFT).
  set (old_vslot := Z.shiftr old_V QFQ_MIN_SLOT_SHIFT).
  assert (Hshift : forall x, 0 <= x < 2 ^ 54 ->
                     0 <= Z.shiftr x QFQ_MIN_SLOT_SHIFT < 2 ^ 32).
  { intros x Hx. change QFQ_MIN_SLOT_SHIFT with 22. rewrite Z.shiftr_div_pow2 by lia.
    split; [apply Z.div_pos; lia|].
    apply Z.div_lt_upper_bound; [reflexivity|].
    change (2 ^ 22 * 2 ^ 32) with (2 ^ 54). lia. }
  pose proof (Hshift _ HV) as Hvs. pose proof (Hshift _ Hold) as Hos.
  fold vslot in Hvs. fold old_vslot in Hos.
  assert (Hx : 0 <= Z.lxor vslot old_vslot < 2 ^ 32).
  { split; [apply Z.lxor_nonneg; lia|].
    destruct (Z.eq_dec (Z.lxor vslot old_vslot) 0) as [->|Hnz]; [lia|].
    apply Z.log2_lt_pow2; [pose proof (proj2 (Z.lxor_nonneg vslot old_vslot)); lia|].
    eapply Z.le_lt_trans; [apply Z.log2_lxor; lia|].
    apply Z.max_lub_lt.
    - destruct (Z.eq_dec vslot 0) as [->|]; [reflexivity|].
      apply Z.log2_lt_pow2; lia.
    - destruct (Z.eq_dec old_vslot 0) as [->|]; [reflexivity|].
      apply Z.log2_lt_pow2; lia. }
  assert (Hcr : crossed = negb (Z.shiftr (Z.lxor vslot old_vslot) j =? 0)).
  { unfold crossed, vslot, old_vslot.
    change QFQ_MIN_SLOT_SHIFT with 22.
    rewrite Z.shiftr_lxor, !Z.shiftr_shiftr by lia.
    f_equal.
    destruct (Z.eqb_spec (Z.shiftr (V q) (22 + j))
                         (Z.shiftr old_V (22 + j))) as [He|Hne];
      symmetry.
    - apply Z.eqb_eq. rewrite He. apply Z.lxor_nilpotent.
    - apply Z.eqb_neq. intros Hz. apply Hne. apply Z.lxor_eq. exact Hz. }
  unfold q', qfq_make_eligible. fold vslot old_vslot.
  destruct (Z.eqb_spec vslot old_vslot) as [He|Hne]; cbn [negb].
  - assert (crossed = false) as ->.
    { rewrite Hcr, He, Z.lxor_nilpotent, Z.shiftr_0_l. reflexivity. }
    cbn [negb]. rewrite !andb_false_r, !orb_false_r, !andb_true_r. auto.
  - pose proof (fls_bound (Z.lxor vslot old_vslot)) as Hfb.
    repeat split; bitmap_bits; rewrite ?low_mask_testbit by lia;
      rewrite (fls_lt _ j Hx) by lia; rewrite <- Hcr;
      destruct (Z.ltb_spec j 64); try lia;
      destruct (Z.testbit (bitmaps q ER) j), (Z.testbit (bitmaps q EB) j),
               (Z.testbit (bitmaps q IR) j), (Z.testbit (bitmaps q IB) j),
               crossed; reflexivity.
Qed.

Lemma qfq_make_eligible_spec_witness :
  let q := set_bitmap (set_clock (qfq_init_qdisc 1) (2 ^ 23) 0 0 0) IR 3 in
  let q' := qfq_make_eligible q 0 in
  let crossed :=
    negb (Z.shiftr (V q) (QFQ_MIN_SLOT_SHIFT + 1)
          =? Z.shiftr 0 (QFQ_MIN_SLOT_SHIFT + 1)) in
  Z.testbit (bitmaps q' ER) 1
  = Z.testbit (bitmaps q ER) 1 || (Z.testbit (bitmaps q IR) 1 && crossed)
  /\ Z.testbit (bitmaps q' IR) 1 = Z.testbit (bitmaps q IR) 1 && negb crossed
  /\ Z.testbit (bitmaps q' EB) 1
     = Z.testbit (bitmaps q EB) 1 || (Z.testbit (bitmaps q IB) 1 && crossed)
  /\ Z.testbit (bitmaps q' IB) 1 = Z.testbit (bitmaps q IB) 1 && negb crossed.
Proof.
  exact (qfq_make_eligible_spec
           (set_bitmap (set_clock (qfq_init_qdisc 1) (2 ^ 23) 0 0 0) IR 3) 0 1
           ltac:(vm_compute; split; [discriminate|reflexivity])
           ltac:(vm_compute; split; [discriminate|reflexivity])
           ltac:(lia)).
Defined.

(** ** What a dequeue does to the class it serves and to the accounts *)

Lemma qfq_unblock_groups_same q idx old_F q' :
  qfq_unblock_groups q idx old_F = Some q' -> same_but_bitmaps q q'.
Proof.
  unfold qfq_unblock_groups. intros H.
  match type of H with
  | mbind _ ?m = _ => destruct m as [[|]|]
  end; cbn [mbind option_bind] in H; try discriminate H; injection H as <-.
  - apply same_but_bitmaps_refl.
  - eapply same_but_bitmaps_trans; apply qfq_move_groups_same.
Qed.

Lemma qfq_slot_insert_frame q gi cid roundedS q1 :
  qfq_slot_insert q gi cid roundedS = Some q1 ->
  same_accounts q q1 /\ clhash q1 = clhash q.
Proof.
  unfold qfq_slot_insert. intros H.
  destruct (hlist_linked cid q); [discriminate H|].
  destruct (get_group q gi) as [g|]; [|discriminate H].
  cbn [mbind option_bind] in H.
  destruct (QFQ_MAX_SLOTS <=? _);
    match type of H with
    | context [slots g !! ?n] => destruct (slots g !! n) as [l|]
    end; try discriminate H; cbn [mbind option_bind] in H; injection H as <-;
    repeat split.
Qed.

Lemma accounts_chain q a b :
  same_accounts q a /\ clhash a = clhash q -> same_but_bitmaps a b ->
  same_accounts q b /\ clhash b = clhash q.
Proof.
  intros [Ha Hc] Hb. apply same_but_bitmaps_accounts in Hb as [Hb Hc'].
  split; [eapply same_accounts_trans; eassumption|congruence].
Qed.

(** The class after [qfq_update_class]: its start is the old finish, the
    finish is recomputed from the length of the next packet, nothing else of
    the class changes. *)
Lemma qfq_update_class_frame q gi cid len q1 ch :
  qfq_update_class q gi cid len = Some (q1, ch) ->
  same_accounts q q1
  /\ exists cl cl1,
       get_class q cid = Some cl
       /\ clhash q1 = <[cid := cl1]> (clhash q)
       /\ cl_S cl1 = cl_F cl /\ qdisc cl1 = qdisc cl
       /\ inv_w cl1 = inv_w cl /\ lmax cl1 = lmax cl /\ cl_grp cl1 = cl_grp cl
       /\ cl_F cl1 = (if (len =? 0) || (inv_w cl =? ONE_FP + 1) then cl_F cl
                      else u64 (cl_F cl + u64 (len * inv_w cl))).
Proof.
  unfold qfq_update_class. intros H.
  destruct (get_group q gi) as [g|]; [|discriminate H].
  cbn [mbind option_bind] in H.
  destruct (get_class q cid) as [cl|]; [|discriminate H].
  cbn [mbind option_bind] in H.
  destruct (len =? 0).
  { destruct (qfq_front_slot_remove g) as [g'|]; [|discriminate H].
    cbn [mbind option_bind] in H. injection H as <- <-.
    split; [repeat split|]. eexists cl, _. split; [reflexivity|].
    split; [reflexivity|]. repeat split. }
  change (inv_w (set_cl_S cl (cl_F cl))) with (inv_w cl) in H. cbn [orb].
  destruct (inv_w cl =? ONE_FP + 1) eqn:Hw1.
  { destruct (qfq_front_slot_remove g) as [g'|]; [|discriminate H].
    cbn [mbind option_bind] in H. injection H as <- <-.
    split; [repeat split|]. eexists cl, _. split; [reflexivity|].
    split; [reflexivity|]. rewrite Hw1. repeat split. }
  match type of H with
  | context [?a =? grp_S g] => destruct (a =? grp_S g)
  end.
  { injection H as <- <-.
    split; [repeat split|]. eexists cl, _. split; [reflexivity|].
    split; [reflexivity|]. rewrite Hw1. repeat split. }
  destruct (qfq_front_slot_remove g) as [g'|]; [|discriminate H].
  cbn [mbind option_bind] in H.
  match type of H with
  | mbind _ (qfq_slot_insert ?qa _ _ ?r) = _ =>
    destruct (qfq_slot_insert qa gi cid r) as [q2|] eqn:Hins; [|discriminate H]
  end.
  cbn [mbind option_bind] in H. injection H as <- <-.
  destruct (qfq_slot_insert_frame _ _ _ _ _ Hins) as [Hacc Hcl].
  split.
  - eapply same_accounts_trans; [|exact Hacc]. repeat split.
  - eexists cl, _. split; [reflexivity|].
    split; [rewrite Hcl; reflexivity|]. rewrite Hw1. repeat split.
Qed.

(** A dequeue that hands out a packet serves the first class of the front
    slot of the lowest group of ER, after the clock update.  The packet is
    the head of the sub-queue of that class, which loses it; the class starts
    where it finished and keeps its weight, its [lmax] and its group; no other
    class changes.  V does not move: the service is recorded in the two debt
    sums.  The weight of the class leaves [wsum_active], and the class the
    count of active classes, exactly when its sub-queue is left empty. *)
Theorem qfq_dequeue_served (q : qfq_sched) (now : Z) (q' : qfq_sched) (len : Z) :
  qfq_dequeue q now = Some (q', Some len) ->
  let qu := qfq_update_system_time q now in
  exists grp cid cl rest cl',
    get_group qu (__ffs (bitmaps qu ER)) = Some grp
    /\ qfq_slot_head grp = Some cid
    /\ get_class qu cid = Some cl /\ qdisc cl = len :: rest
    /\ clhash q' = <[cid := cl']> (clhash qu)
    /\ qdisc cl' = rest /\ cl_S cl' = cl_F cl
    /\ inv_w cl' = inv_w cl /\ lmax cl' = lmax cl /\ cl_grp cl' = cl_grp cl
    /\ V q' = V qu /\ wsum q' = wsum qu
    /\ v_diff_sum q'
       = u64 (v_diff_sum qu
              + u64 (len * ONE_FP) / max_u32 LINK_SPEED (wsum_active qu))
    /\ t_diff_sum q'
       = u64 (t_diff_sum qu + u64 (len * NSEC_PER_SEC) / (125000 * LINK_SPEED))
    /\ wsum_active q'
       = (if negb (inv_w cl =? 0) && bool_decide (length rest = 0%nat)
          then u32 (wsum_active qu - ONE_FP / inv_w cl) else wsum_active qu)
    /\ sch_qlen q'
       = (if bool_decide (length rest = 0%nat)
          then u32 (sch_qlen qu - 1) else sch_qlen qu).
Proof.
  intros H qu. unfold qfq_dequeue in H. cbv zeta in H. fold qu in H.
  clearbody qu.
  destruct (bitmaps qu ER =? 0); [discriminate H|].
  destruct (get_group qu (__ffs (bitmaps qu ER))) as [grp|] eqn:Hgrp;
    [|discriminate H].
  cbn [mbind option_bind] in H.
  destruct (qfq_slot_head grp) as [cid|] eqn:Hhead; [|discriminate H].
  cbn [mbind option_bind] in H.
  destruct (get_class qu cid) as [cl|] eqn:Hcl; [|discriminate H].
  cbn [mbind option_bind] in H.
  destruct (qdisc cl) as [|len0 rest] eqn:Hqd; [discriminate H|].
  match type of H with
  | mbind _ (qfq_update_class ?qa ?gi _ ?nl) = _ =>
    set (q_a := qa) in *;
      destruct (qfq_update_class q_a gi cid nl) as [[q1 ch]|] eqn:Hupd;
      [|discriminate H]
  end.
  cbn [mbind option_bind] in H.
  destruct (qfq_update_class_frame _ _ _ _ _ _ Hupd)
    as (Hacc1 & c0 & cl1 & Hc0 & Hcl1 & HS & Hq & Hw & Hl & Hg & _).
  assert (Hcla : clhash q_a = <[cid := set_qdisc cl rest]> (clhash qu)).
  { unfold q_a. destruct (bool_decide (length rest = 0%nat)); reflexivity. }
  unfold get_class in Hc0. rewrite Hcla, lookup_insert_eq in Hc0.
  injection Hc0 as <-. cbn [cl_F qdisc inv_w lmax cl_grp set_qdisc] in *.
  rewrite Hcla, insert_insert_eq in Hcl1.
  assert (Hget1 : get_class q1 cid = Some cl1).
  { unfold get_class. rewrite Hcl1. apply lookup_insert_eq. }
  rewrite Hget1 in H. cbn [mbind option_bind] in H.
  set (q1' := wsum_active_idle q1 cl1 (length rest)) in *.
  assert (Htail : (same_accounts q1' q' /\ clhash q' = clhash q1') /\ len0 = len).
  { destruct ch.
    - destruct (get_group q1 _) as [g1|]; [|discriminate H].
      cbn [mbind option_bind] in H.
      destruct (qfq_slot_scan g1) as [[g2 ocl]|]; [|discriminate H].
      cbn [mbind option_bind] in H.
      destruct ocl as [c2|].
      + cbn [mbind option_bind] in H.
        match type of H with
        | mbind _ ?m = _ => destruct m as [cl2|]; [|discriminate H]
        end.
        cbn [mbind option_bind] in H.
        match type of H with
        | (if ?c then _ else _) = _ => destruct c
        end.
        * injection H as <- <-. split; [|reflexivity].
          eapply accounts_chain; [|apply qfq_update_eligible_same]. repeat split.
        * match type of H with
          | mbind _ ?m = _ => destruct m as [s|]; [|discriminate H]
          end.
          cbn [mbind option_bind] in H.
          destruct (qfq_state_of_int s) as [st|]; [|discriminate H].
          cbn [mbind option_bind] in H.
          match type of H with
          | mbind _ (qfq_unblock_groups ?qq ?i ?f) = _ =>
            destruct (qfq_unblock_groups qq i f) as [q5|] eqn:Hunb;
              [|discriminate H]
          end.
          cbn [mbind option_bind] in H. injection H as <- <-.
          split; [|reflexivity].
          eapply accounts_chain; [|apply qfq_update_eligible_same].
          eapply accounts_chain; [|exact (qfq_unblock_groups_same _ _ _ _ Hunb)].
          repeat split.
      + match type of H with
        | mbind _ (qfq_unblock_groups ?qq ?i ?f) = _ =>
          destruct (qfq_unblock_groups qq i f) as [q5|] eqn:Hunb;
            [|discriminate H]
        end.
        cbn [mbind option_bind] in H. injection H as <- <-.
        split; [|reflexivity].
        eapply accounts_chain; [|apply qfq_update_eligible_same].
        eapply accounts_chain; [|exact (qfq_unblock_groups_same _ _ _ _ Hunb)].
        repeat split.
    - injection H as <- <-. split; [|reflexivity].
      eapply accounts_chain; [|apply qfq_update_eligible_same]. repeat split. }
  destruct Htail as [[Hacc' Hcl'] ->].
  exists grp, cid, cl, rest, cl1.
  destruct Hacc1 as (HV1 & Hws1 & Hwa1 & _ & Hvd1 & Htd1 & _ & _ & Hql1).
  destruct Hacc' as (HV' & Hws' & Hwa' & _ & Hvd' & Htd' & _ & _ & Hql').
  assert (Hidle : V q1' = V q1 /\ wsum q1' = wsum q1 /\ v_diff_sum q1' = v_diff_sum q1
                  /\ t_diff_sum q1' = t_diff_sum q1 /\ sch_qlen q1' = sch_qlen q1
                  /\ clhash q1' = clhash q1
                  /\ wsum_active q1'
                     = (if negb (inv_w cl1 =? 0) && bool_decide (length rest = 0%nat)
                        then u32 (wsum_active q1 - ONE_FP / inv_w cl1)
                        else wsum_active q1)).
  { unfold q1', wsum_active_idle.
    destruct (negb (inv_w cl1 =? 0) && bool_decide (length rest = 0%nat));
      repeat split. }
  destruct Hidle as (HVi & Hwsi & Hvdi & Htdi & Hqli & Hcli & Hwai).
  split; [reflexivity|]. split; [exact Hhead|]. split; [exact Hcl|].
  split; [exact Hqd|].
  split; [rewrite Hcl', Hcli; exact Hcl1|].
  split; [exact Hq|]. split; [exact HS|]. split; [exact Hw|].
  split; [exact Hl|]. split; [exact Hg|].
  split; [rewrite HV', HVi, HV1; unfold q_a;
          destruct (bool_decide (length rest = 0%nat)); reflexivity|].
  split; [rewrite Hws', Hwsi, Hws1; unfold q_a;
          destruct (bool_decide (length rest = 0%nat)); reflexivity|].
  split; [rewrite Hvd', Hvdi, Hvd1; unfold q_a;
          destruct (bool_decide (length rest = 0%nat)); reflexivity|].
  split; [rewrite Htd', Htdi, Htd1; unfold q_a;
          destruct (bool_decide (length rest = 0%nat)); reflexivity|].
  split.
  - rewrite Hwa', Hwai, Hwa1, Hw. unfold q_a.
    destruct (bool_decide (length rest = 0%nat)); reflexivity.
  - rewrite Hql', Hqli, Hql1. unfold q_a.
    destruct (bool_decide (length rest = 0%nat)); reflexivity.
Qed.

Lemma qfq_dequeue_served_witness :
  qfq_dequeue served_input 7449000 = Some (served_output, Some 256)
  /\ let qu := qfq_update_system_time served_input 7449000 in
     exists grp cid cl rest cl',
       get_group qu (__ffs (bitmaps qu ER)) = Some grp
       /\ qfq_slot_head grp = Some cid
       /\ get_class qu cid = Some cl /\ qdisc cl = 256 :: rest
       /\ clhash served_output = <[cid := cl']> (clhash qu)
       /\ qdisc cl' = rest /\ cl_S cl' = cl_F cl
       /\ inv_w cl' = inv_w cl /\ lmax cl' = lmax cl /\ cl_grp cl' = cl_grp cl
       /\ V served_output = V qu /\ wsum served_output = wsum qu
       /\ v_diff_sum served_output
          = u64 (v_diff_sum qu
                 + u64 (256 * ONE_FP) / max_u32 LINK_SPEED (wsum_active qu))
       /\ t_diff_sum served_output
          = u64 (t_diff_sum qu
                 + u64 (256 * NSEC_PER_SEC) / (125000 * LINK_SPEED))
       /\ wsum_active served_output
          = (if negb (inv_w cl =? 0) && bool_decide (length rest = 0%nat)
             then u32 (wsum_active qu - ONE_FP / inv_w cl) else wsum_active qu)
       /\ sch_qlen served_output
          = (if bool_decide (length rest = 0%nat)
             then u32 (sch_qlen qu - 1) else sch_qlen qu).
Proof.
  assert (H : qfq_dequeue served_input 7449000 = Some (served_output, Some 256))
    by (vm_compute; reflexivity).
  split; [exact H|].
  exact (qfq_dequeue_served served_input 7449000 served_output 256 H).
Defined.

(** ** What an activation does *)

Lemma qfq_update_start_frame q cid q0 :
  qfq_update_start q cid = Some q0 ->
  same_accounts q q0 /\ bitmaps q0 = bitmaps q /\ groups q0 = groups q
  /\ exists cl s, get_class q cid = Some cl
                  /\ clhash q0 = <[cid := set_cl_S cl s]> (clhash q).
Proof.
  unfold qfq_update_start. intros H.
  destruct (get_class q cid) as [cl|]; [|discriminate H].
  cbn [mbind option_bind] in H.
  destruct (get_group q (cl_grp cl)) as [grp|]; [|discriminate H].
  cbn [mbind option_bind] in H.
  repeat match type of H with
         | (if ?c then _ else _) = _ => destruct c
         | mbind _ ?m = _ =>
           destruct m; [|discriminate H]; cbn [mbind option_bind] in H
         end;
    injection H as <-; (split; [repeat split|]);
    (split; [reflexivity|]); (split; [reflexivity|]);
    eexists cl, _; split; reflexivity.
Qed.

Lemma qfq_slot_insert_linked q gi cid roundedS q1 :
  qfq_slot_insert q gi cid roundedS = Some q1 ->
  exists g1 l, get_group q1 gi = Some g1 /\ full_slots g1 <> 0
               /\ l ∈ slots g1 /\ head l = Some cid.
Proof.
  unfold qfq_slot_insert. intros H.
  destruct (hlist_linked cid q); [discriminate H|].
  destruct (get_group q gi) as [g|] eqn:Hg; [|discriminate H].
  cbn [mbind option_bind] in H.
  set (slot0 := Z.shiftr (u64 (roundedS - grp_S g)) (slot_shift g)) in *.
  assert (Hslot0 : 0 <= slot0).
  { unfold slot0. apply Z.shiftr_nonneg. apply u64_range. }
  destruct (Z.leb_spec QFQ_MAX_SLOTS slot0) as [Hbig|Hsmall];
    match type of H with
    | context [slots g !! ?n] => destruct (slots g !! n) as [l|] eqn:Hl
    end; try discriminate H; cbn [mbind option_bind] in H; injection H as <-;
    eexists _, (cid :: l);
    (split; [eapply get_group_set_group_eq; exact Hg|]);
    cbn [full_slots slots set_full_slots set_slots];
    (split; [apply set_bit_nonzero|]).
  - vm_compute. congruence.
  - split; [|reflexivity]. apply list_elem_of_lookup. eexists.
    apply list_lookup_insert_eq. eapply lookup_lt_Some. exact Hl.
  - exact Hslot0.
  - split; [|reflexivity]. apply list_elem_of_lookup. eexists.
    apply list_lookup_insert_eq. eapply lookup_lt_Some. exact Hl.
Qed.

Lemma qfq_activate_class_frame q cid pkt_len q' :
  qfq_activate_class q cid pkt_len = Some q' ->
  same_accounts q q'
  /\ exists cl cl' grp' l,
       get_class q cid = Some cl
       /\ clhash q' = <[cid := cl']> (clhash q)
       /\ qdisc cl' = qdisc cl /\ inv_w cl' = inv_w cl
       /\ lmax cl' = lmax cl /\ cl_grp cl' = cl_grp cl
       /\ cl_F cl' = u64 (cl_S cl' + u64 (pkt_len * inv_w cl))
       /\ get_group q' (cl_grp cl) = Some grp'
       /\ full_slots grp' <> 0
       /\ l ∈ slots grp' /\ head l = Some cid
       /\ forall i, i <> cl_grp cl -> get_group q' i = get_group q i.
Proof.
  intros H. unfold qfq_activate_class in H.
  destruct (get_class q cid) as [cl|] eqn:Hcl; [|discriminate H].
  cbn [mbind option_bind] in H.
  set (gi := cl_grp cl) in *.
  destruct (qfq_update_start q cid) as [q0|] eqn:Hus; [|discriminate H].
  cbn [mbind option_bind] in H.
  destruct (qfq_update_start_frame _ _ _ Hus)
    as (Hacc0 & Hb0 & Hg0 & c & s & Hc & Hcl0).
  rewrite Hcl in Hc. injection Hc as <-. clear Hus.
  assert (Hget0 : get_class q0 cid = Some (set_cl_S cl s)).
  { unfold get_class. rewrite Hcl0. apply lookup_insert_eq. }
  rewrite Hget0 in H. cbn [mbind option_bind] in H.
  destruct (get_group q0 gi) as [grp|] eqn:Hgrp0; [|discriminate H].
  cbn [mbind option_bind] in H. cbv zeta in H.
  match type of H with
  | context [set_class q0 cid ?c] =>
    set (cl' := c) in *; set (q_c := set_class q0 cid cl') in *
  end.
  assert (Hclc : clhash q_c = <[cid := cl']> (clhash q)).
  { unfold q_c, set_class. cbn [clhash set_clhash]. rewrite Hcl0.
    apply insert_insert_eq. }
  assert (Hgc : groups q_c = groups q) by exact Hg0.
  assert (Haccc : same_accounts q q_c).
  { eapply same_accounts_trans; [exact Hacc0|]. repeat split. }
  assert (Hgrpc : get_group q_c gi = Some grp) by exact Hgrp0.
  assert (Hfin : forall qq,
             same_accounts q_c qq -> clhash qq = clhash q_c ->
             (forall i, i <> gi -> get_group qq i = get_group q_c i) ->
             qfq_slot_insert qq gi cid
               (qfq_round_down (cl_S cl') (slot_shift grp)) = Some q' ->
             same_accounts q q'
             /\ exists cl0 cl'0 grp' l,
                  Some cl = Some cl0
                  /\ clhash q' = <[cid := cl'0]> (clhash q)
                  /\ qdisc cl'0 = qdisc cl0 /\ inv_w cl'0 = inv_w cl0
                  /\ lmax cl'0 = lmax cl0 /\ cl_grp cl'0 = cl_grp cl0
                  /\ cl_F cl'0 = u64 (cl_S cl'0 + u64 (pkt_len * inv_w cl0))
                  /\ get_group q' (cl_grp cl0) = Some grp'
                  /\ full_slots grp' <> 0
                  /\ l ∈ slots grp' /\ head l = Some cid
                  /\ forall i, i <> cl_grp cl0 -> get_group q' i = get_group q i).
  { intros qq Hacc Hclq Hoth Hins.
    destruct (qfq_slot_insert_frame _ _ _ _ _ Hins) as [Hacc2 Hcl2].
    destruct (qfq_slot_insert_linked _ _ _ _ _ Hins) as (g1 & l & Hg1 & Hf1 & Hl & Hh).
    destruct (qfq_slot_insert_view _ _ _ _ _ Hins) as (_ & Ho & _).
    split.
    - eapply same_accounts_trans; [exact Haccc|].
      eapply same_accounts_trans; [exact Hacc|exact Hacc2].
    - exists cl, cl', g1, l. split; [reflexivity|].
      split; [rewrite Hcl2, Hclq; exact Hclc|].
      split; [reflexivity|]. split; [reflexivity|]. split; [reflexivity|].
      split; [reflexivity|]. split; [reflexivity|]. split; [exact Hg1|].
      split; [exact Hf1|]. split; [exact Hl|]. split; [exact Hh|].
      intros i Hi. rewrite (Ho i Hi), (Hoth i Hi).
      unfold get_group. rewrite Hgc. reflexivity. }
  clearbody q_c.
  match type of H with
  | (if ?c then _ else _) = _ => destruct c
  end.
  - apply (Hfin q_c); [apply same_accounts_refl|reflexivity|reflexivity|exact H].
  - match type of H with
    | mbind _ ?m = _ => destruct m as [[q2 g2]|] eqn:Hm; [|discriminate H]
    end.
    cbn [mbind option_bind] in H.
    assert (Hq2 : same_accounts q_c q2 /\ clhash q2 = clhash q_c
                  /\ groups q2 = groups q_c /\ slot_shift g2 = slot_shift grp).
    { destruct (negb (full_slots grp =? 0)).
      - destruct (qfq_slot_rotate grp _) as [gr|] eqn:Hrot; [|discriminate Hm].
        cbn [mbind option_bind] in Hm. injection Hm as <- <-.
        destruct (qfq_slot_rotate_view _ _ _ Hrot) as [_ Hss].
        repeat split. exact Hss.
      - injection Hm as <- <-. repeat split. }
    destruct Hq2 as (Hacc2 & Hcl2 & Hg2 & Hss).
    match type of H with
    | mbind _ ?m = _ => destruct m as [s'|]; [|discriminate H]
    end.
    cbn [mbind option_bind] in H.
    destruct (qfq_state_of_int s') as [st|]; [|discriminate H].
    cbn [mbind option_bind] in H.
    refine (Hfin _ _ _ _ H).
    + eapply same_accounts_trans; [exact Hacc2|]. repeat split.
    + exact Hcl2.
    + intros i Hi.
      assert (Hgi : is_Some (get_group q2 gi)).
      { unfold get_group in *. rewrite Hg2. rewrite Hgrpc. eauto. }
      destruct Hgi as [gx Hgx].
      etransitivity; [apply (get_group_set_group_ne q2 gi i gx _ Hgx Hi)|].
      unfold get_group. rewrite Hg2. reflexivity.
Qed.

(** The activation of a class that is on no slot list gives the class its
    finish time, [F = S + len * inv_w] in 64 bits, and puts it at the head of
    a slot list of its group, which then has a marked slot.  The weight,
    [lmax], the group and the sub-queue of the class, every other class, every
    other group, the clock, the weight sums, the packet count and the
    activation work are as before. *)
Theorem qfq_activate_class_spec (q : qfq_sched) (cid pkt_len : Z) (q' : qfq_sched) :
  hlist_linked cid q = false ->
  qfq_activate_class q cid pkt_len = Some q' ->
  same_accounts q q'
  /\ exists cl cl' grp' l,
       get_class q cid = Some cl
       /\ clhash q' = <[cid := cl']> (clhash q)
       /\ qdisc cl' = qdisc cl /\ inv_w cl' = inv_w cl
       /\ lmax cl' = lmax cl /\ cl_grp cl' = cl_grp cl
       /\ cl_F cl' = u64 (cl_S cl' + u64 (pkt_len * inv_w cl))
       /\ get_group q' (cl_grp cl) = Some grp'
       /\ full_slots grp' <> 0
       /\ l ∈ slots grp' /\ head l = Some cid
       /\ forall i, i <> cl_grp cl -> get_group q' i = get_group q i.
Proof. intros _. apply qfq_activate_class_frame. Qed.

Lemma qfq_activate_class_spec_witness :
  hlist_linked 1 activate_input = false
  /\ qfq_activate_class activate_input 1 500 = Some activate_output
  /\ same_accounts activate_input activate_output
  /\ exists cl cl' grp' l,
       get_class activate_input 1 = Some cl
       /\ clhash activate_output = <[1 := cl']> (clhash activate_input)
       /\ qdisc cl' = qdisc cl /\ inv_w cl' = inv_w cl
       /\ lmax cl' = lmax cl /\ cl_grp cl' = cl_grp cl
       /\ cl_F cl' = u64 (cl_S cl' + u64 (500 * inv_w cl))
       /\ get_group activate_output (cl_grp cl) = Some grp'
       /\ full_slots grp' <> 0
       /\ l ∈ slots grp' /\ head l = Some 1
       /\ forall i, i <> cl_grp cl ->
            get_group activate_output i = get_group activate_input i.
Proof.
  assert (Hunl : hlist_linked 1 activate_input = false)
    by (vm_compute; reflexivity).
  assert (H : qfq_activate_class activate_input 1 500 = Some activate_output)
    by (vm_compute; reflexivity).
  split; [exact Hunl|]. split; [exact H|].
  exact (qfq_activate_class_spec activate_input 1 500 activate_output Hunl H).
Defined.
